(** * A shallow embedding of parts of the React reconciler

    The development covers
    - [ReactFiberNewContext]: the context stack ([pushProvider],
      [popProvider]), [calculateChangedBits], the propagation walk
      [propagateContextChange] and [readContext];
    - [ReactContext]: the public [readContext] wrapper;
    - [ReactFiberDevToolsHook]: the guarded devtools callbacks;
    - [DevToolsHook]: [installHook] on a global object;
    - [ReactDOMFiber]: the commit bracket of the DOM renderer;
    - [VerticalScrollView]: the scroll-state setter of the profiler view.

    Fibers, contexts and hooks are JavaScript objects compared by reference:
    they live in stores indexed by their identity, and the functions below
    thread those stores explicitly. *)

From Stdlib Require Import ZArith Bool Lia.
From Stdlib Require Import Floats.SpecFloat.
From stdpp Require Import gmap strings list fin_maps.

Local Open Scope Z_scope.

(** ** JavaScript values *)

Module JS.

(** A JavaScript number is an IEEE 754 binary64: [spec_float] with
    [prec = 53] and [emax = 1024]. *)
Definition prec : Z := 53.
Definition emax : Z := 1024.

Definition NaN : spec_float := S754_nan.
Definition posZero : spec_float := S754_zero false.
Definition negZero : spec_float := S754_zero true.
Definition one : spec_float := S754_finite false 4503599627370496 (-52).

(** Objects and functions are compared by reference: [Object id]. *)
Inductive value :=
| Undefined
| Null
| Boolean (b : bool)
| Number (x : spec_float)
| String (s : string)
| Object (id : nat).

#[global] Instance spec_float_eq_dec : EqDecision spec_float.
Proof. solve_decision. Defined.

#[global] Instance value_eq_dec : EqDecision value.
Proof. solve_decision. Defined.

(** [a === b]: IEEE equality on numbers, identity elsewhere. *)
Definition strictEquals (a b : value) : bool :=
  match a, b with
  | Number x, Number y => SFeqb x y
  | _, _ => bool_decide (a = b)
  end.

(** [Object.is(a, b)] of the language: the same value, with [+0] and
    [-0] distinguished and [NaN] equal to itself. *)
Definition sameValue (a b : value) : bool := bool_decide (a = b).

(** [ToNumber] on strings and objects runs a parser or user code; both
    are left to the host. *)
Class Coercions := {
  ToNumber_string : string -> spec_float;
  ToNumber_object : nat -> spec_float;
}.

Definition ToNumber `{Coercions} (v : value) : spec_float :=
  match v with
  | Undefined => NaN
  | Null => posZero
  | Boolean b => if b then one else posZero
  | Number x => x
  | String s => ToNumber_string s
  | Object o => ToNumber_object o
  end.

(** [a / b]. *)
Definition divide `{Coercions} (a b : value) : value :=
  Number (SFdiv prec emax (ToNumber a) (ToNumber b)).

(** The integer part of a finite number, rounding toward zero. *)
Definition truncate (x : spec_float) : Z :=
  match x with
  | S754_finite s m e =>
    let mag := if 0 <=? e then Z.shiftl (Z.pos m) e
               else Z.shiftr (Z.pos m) (- e) in
    if s then - mag else mag
  | _ => 0
  end.

(** Wrap an integer into the signed 32-bit range. *)
Definition int32 (z : Z) : Z :=
  let k := z mod 2 ^ 32 in
  if 2 ^ 31 <=? k then k - 2 ^ 32 else k.

(** [x | 0] on a number. *)
Definition ToInt32 (x : spec_float) : Z := int32 (truncate x).

(** [a & b] on numbers with integer values: both operands are wrapped
    into the signed 32-bit range before the bits are combined. *)
Definition bitAnd (a b : Z) : Z := Z.land (int32 a) (int32 b).

(** What a call can do: return, or throw. The state reached is kept in
    both cases. *)
Inductive completion (S A : Type) :=
| Normal (s : S) (a : A)
| Throw (s : S) (error : value).
Arguments Normal {S A} s a.
Arguments Throw {S A} s error.

(** [shared/invariant]: the error thrown when the condition fails
    carries the message. *)
Definition invariantError (message : string) : value := String message.

End JS.

(** ** Fibers and the fiber store *)

Module ReactFiber.

(** Identity of a fiber object. *)
Definition ptr := nat.

(** [shared/ReactTypeOfWork] is a table of numeric tags; the walk only
    compares a tag with [ContextProvider]. *)
Inductive TypeOfWork :=
| FunctionalComponent
| ClassComponent
| HostRoot
| HostComponent
| HostText
| ContextConsumer
| ContextProvider.

#[global] Instance TypeOfWork_eq_dec : EqDecision TypeOfWork.
Proof. solve_decision. Defined.

(** [ContextDependency<T>]: the [next] link is the tail of the list the
    record sits in. [context] is the identity of the context object. *)
Record ContextDependency := mkContextDependency {
  context : nat;
  observedBits : Z;
}.

(** The fields of a fiber that the context module reads or writes.
    [type] is the identity of the element type (for a provider fiber the
    [Provider] object of its context); [firstContextDependency] is the
    linked list of dependency records, [[]] for [null];
    [pendingProps_value] is [pendingProps.value]. *)
Record Fiber := mkFiber {
  tag : TypeOfWork;
  type : nat;
  return_ : option ptr;
  child : option ptr;
  sibling : option ptr;
  alternate : option ptr;
  expirationTime : Z;
  childExpirationTime : Z;
  firstContextDependency : list ContextDependency;
  pendingProps_value : JS.value;
}.

#[global] Instance Fiber_inhabited : Inhabited Fiber :=
  populate (mkFiber HostComponent 0%nat None None None None 0 0 []
                   JS.Undefined).

Definition set_return (r : option ptr) (f : Fiber) : Fiber :=
  mkFiber (tag f) (type f) r (child f) (sibling f) (alternate f)
          (expirationTime f) (childExpirationTime f)
          (firstContextDependency f) (pendingProps_value f).

Definition set_expirationTime (t : Z) (f : Fiber) : Fiber :=
  mkFiber (tag f) (type f) (return_ f) (child f) (sibling f) (alternate f)
          t (childExpirationTime f) (firstContextDependency f)
          (pendingProps_value f).

Definition set_childExpirationTime (t : Z) (f : Fiber) : Fiber :=
  mkFiber (tag f) (type f) (return_ f) (child f) (sibling f) (alternate f)
          (expirationTime f) t (firstContextDependency f)
          (pendingProps_value f).

Definition set_firstContextDependency
    (l : list ContextDependency) (f : Fiber) : Fiber :=
  mkFiber (tag f) (type f) (return_ f) (child f) (sibling f) (alternate f)
          (expirationTime f) (childExpirationTime f) l
          (pendingProps_value f).

(** [ReactFiberExpirationTime.NoWork]. *)
Definition NoWork : Z := 0.

End ReactFiber.

(** ** Context cells *)

Module ReactTypes.

(** The fields of a [ReactContext<T>] object. [_calculateChangedBits]
    is [None] unless it is a function; [_currentRenderer] holds the
    identity of a renderer sigil, [None] for [null] or [undefined]. *)
Record ReactContext := mkReactContext {
  _calculateChangedBits : option (JS.value -> JS.value -> spec_float);
  _currentValue : JS.value;
  _currentValue2 : JS.value;
  _changedBits : Z;
  _changedBits2 : Z;
  _currentRenderer : option nat;
  _currentRenderer2 : option nat;
}.

#[global] Instance ReactContext_inhabited : Inhabited ReactContext :=
  populate (mkReactContext None JS.Undefined JS.Undefined 0 0 None None).

End ReactTypes.

(** ** ReactFiberStack *)

Module ReactFiberStack.

(** Modelled from the spec: [ReactFiberStack] ([createCursor], [push],
    [pop]) is not among the sources. The spec calls it a stack-like
    cursor that saves the previous value on [push] and restores it on
    [pop], in LIFO order: a cursor holds its current value and the
    values saved so far, the most recent first. *)
Record StackCursor (T : Type) := mkStackCursor {
  current : T;
  saved : list T;
}.
Arguments mkStackCursor {T} current saved.
Arguments current {T} s.
Arguments saved {T} s.

Definition createCursor {T} (defaultValue : T) : StackCursor T :=
  mkStackCursor defaultValue [].

Definition push {T} (cursor : StackCursor T) (value : T) : StackCursor T :=
  mkStackCursor value (current cursor :: saved cursor).

(** A [pop] on an empty stack leaves the cursor as it is. *)
Definition pop {T} (cursor : StackCursor T) : StackCursor T :=
  match saved cursor with
  | [] => cursor
  | v :: rest => mkStackCursor v rest
  end.

End ReactFiberStack.

(** ** ReactFiberNewContext *)

Module ReactFiberNewContext.
Import ReactFiber ReactTypes ReactFiberStack.

(** Modelled from the spec: [maxSigned31BitInt] is not among the
    sources; the default of the comparator is "all bits changed", the
    largest signed 31-bit integer. *)
Definition MAX_SIGNED_31_BIT_INT : Z := 1073741823.
Definition maxSigned31BitInt : Z := MAX_SIGNED_31_BIT_INT.

(** The module-level variables, with the two object stores the module
    writes to: context objects and fibers. [lastContextDependency] is
    the last record of the list of the fiber being rendered. *)
Record State := mkState {
  contexts : gmap nat ReactContext;
  fibers : gmap ptr Fiber;
  valueCursor : StackCursor JS.value;
  changedBitsCursor : StackCursor Z;
  currentlyRenderingFiber : option ptr;
  lastContextDependency : option ContextDependency;
  lastContextWithAllBitsObserved : option nat;
}.

Definition initialState (cs : gmap nat ReactContext)
    (fs : gmap ptr Fiber) : State :=
  mkState cs fs (createCursor JS.Null) (createCursor 0) None None None.

Definition resetContextDependences (s : State) : State :=
  mkState (contexts s) (fibers s) (valueCursor s) (changedBitsCursor s)
          None None None.

(** The renderer configuration: [isPrimaryRenderer] of the host config,
    the build flag [__DEV__] and the identity of [rendererSigil]. *)
Record Config := mkConfig {
  isPrimaryRenderer : bool;
  __DEV__ : bool;
  rendererSigil : nat;
}.

(** [providerFiber.type._context]: a context has exactly one [Provider]
    object, and the two share their identity here. *)
Definition type_context (providerFiber : Fiber) : nat := type providerFiber.

Definition pushProvider (cfg : Config) (providerFiber : Fiber)
    (changedBits : Z) (s : State) : State :=
  let c := type_context providerFiber in
  let ctx := contexts s !!! c in
  if isPrimaryRenderer cfg then
    let cb := push (changedBitsCursor s) (_changedBits ctx) in
    let vc := push (valueCursor s) (_currentValue ctx) in
    let ctx' :=
      mkReactContext (_calculateChangedBits ctx)
        (pendingProps_value providerFiber) (_currentValue2 ctx)
        changedBits (_changedBits2 ctx)
        (if __DEV__ cfg then Some (rendererSigil cfg)
         else _currentRenderer ctx)
        (_currentRenderer2 ctx) in
    mkState (<[c := ctx']> (contexts s)) (fibers s) vc cb
            (currentlyRenderingFiber s) (lastContextDependency s)
            (lastContextWithAllBitsObserved s)
  else
    let cb := push (changedBitsCursor s) (_changedBits2 ctx) in
    let vc := push (valueCursor s) (_currentValue2 ctx) in
    let ctx' :=
      mkReactContext (_calculateChangedBits ctx)
        (_currentValue ctx) (pendingProps_value providerFiber)
        (_changedBits ctx) changedBits
        (_currentRenderer ctx)
        (if __DEV__ cfg then Some (rendererSigil cfg)
         else _currentRenderer2 ctx) in
    mkState (<[c := ctx']> (contexts s)) (fibers s) vc cb
            (currentlyRenderingFiber s) (lastContextDependency s)
            (lastContextWithAllBitsObserved s).

Definition popProvider (cfg : Config) (providerFiber : Fiber)
    (s : State) : State :=
  let changedBits := current (changedBitsCursor s) in
  let currentValue := current (valueCursor s) in
  let vc := pop (valueCursor s) in
  let cb := pop (changedBitsCursor s) in
  let c := type_context providerFiber in
  let ctx := contexts s !!! c in
  let ctx' :=
    if isPrimaryRenderer cfg then
      mkReactContext (_calculateChangedBits ctx)
        currentValue (_currentValue2 ctx) changedBits (_changedBits2 ctx)
        (_currentRenderer ctx) (_currentRenderer2 ctx)
    else
      mkReactContext (_calculateChangedBits ctx)
        (_currentValue ctx) currentValue (_changedBits ctx) changedBits
        (_currentRenderer ctx) (_currentRenderer2 ctx) in
  mkState (<[c := ctx']> (contexts s)) (fibers s) vc cb
          (currentlyRenderingFiber s) (lastContextDependency s)
          (lastContextWithAllBitsObserved s).

(** The inlined [Object.is] polyfill of [calculateChangedBits]:
    [(oldValue === newValue &&
       (oldValue !== 0 || 1 / oldValue === 1 / newValue)) ||
     (oldValue !== oldValue && newValue !== newValue)]. *)
Definition objectIs `{JS.Coercions} (oldValue newValue : JS.value) : bool :=
  (JS.strictEquals oldValue newValue &&
     (negb (JS.strictEquals oldValue (JS.Number JS.posZero)) ||
      JS.strictEquals (JS.divide (JS.Number JS.one) oldValue)
                      (JS.divide (JS.Number JS.one) newValue))) ||
  (negb (JS.strictEquals oldValue oldValue) &&
   negb (JS.strictEquals newValue newValue)).

(** The development-only warning of the [else] branch has no effect on
    the result. *)
Definition calculateChangedBits `{JS.Coercions} (ctx : ReactContext)
    (newValue oldValue : JS.value) : Z :=
  if objectIs oldValue newValue then
    (* No change *)
    0
  else
    match _calculateChangedBits ctx with
    | Some f => JS.ToInt32 (f oldValue newValue)
    | None => JS.int32 MAX_SIGNED_31_BIT_INT
    end.

(** The optional argument [observedBits : void | number | boolean]. The
    number is a bit mask. *)
Inductive ObservedBits :=
| ObservedUndefined
| ObservedBoolean (b : bool)
| ObservedNumber (n : Z).

Definition with_fibers (fs : gmap ptr Fiber) (s : State) : State :=
  mkState (contexts s) fs (valueCursor s) (changedBitsCursor s)
          (currentlyRenderingFiber s) (lastContextDependency s)
          (lastContextWithAllBitsObserved s).

Definition with_lastContextDependency (d : option ContextDependency)
    (s : State) : State :=
  mkState (contexts s) (fibers s) (valueCursor s) (changedBitsCursor s)
          (currentlyRenderingFiber s) d (lastContextWithAllBitsObserved s).

Definition with_lastContextWithAllBitsObserved (c : option nat)
    (s : State) : State :=
  mkState (contexts s) (fibers s) (valueCursor s) (changedBitsCursor s)
          (currentlyRenderingFiber s) (lastContextDependency s) c.

Definition write_firstContextDependency (p : ptr)
    (l : list ContextDependency) (h : gmap ptr Fiber) : gmap ptr Fiber :=
  <[p := set_firstContextDependency l (h !!! p)]> h.

Definition currentChangedBits (cfg : Config) (ctx : ReactContext) : Z :=
  if isPrimaryRenderer cfg then _changedBits ctx else _changedBits2 ctx.

Definition prepareToReadContext (cfg : Config) (workInProgress : ptr)
    (renderExpirationTime : Z) (s : State) : State * bool :=
  let s1 :=
    mkState (contexts s) (fibers s) (valueCursor s) (changedBitsCursor s)
            (Some workInProgress) None None in
  match firstContextDependency (fibers s1 !!! workInProgress) with
  | [] => (s1, false)
  | d :: rest =>
    (* Reset the work-in-progress list *)
    let s2 :=
      with_fibers (write_firstContextDependency workInProgress []
                                                (fibers s1)) s1 in
    let hasPendingContext :=
      existsb
        (fun dependency =>
           let changedBits :=
             currentChangedBits cfg
               (contexts s2 !!! context dependency) in
           negb (changedBits =? 0) &&
           negb (JS.bitAnd changedBits (observedBits dependency) =? 0))
        (d :: rest) in
    (s2, hasPendingContext)
  end.

Definition currentValue (cfg : Config) (ctx : ReactContext) : JS.value :=
  if isPrimaryRenderer cfg then _currentValue ctx else _currentValue2 ctx.

Definition readContext_message : string :=
  "Context.unstable_read(): Context can only be read while React is rendering, e.g. inside the render method or getDerivedStateFromProps.".

(** [observedBits === false || observedBits === 0]. *)
Definition observesNothing (observedBits : ObservedBits) : bool :=
  match observedBits with
  | ObservedBoolean false => true
  | ObservedNumber n => n =? 0
  | _ => false
  end.

(** [typeof observedBits !== 'number' ||
     observedBits === maxSigned31BitInt]. *)
Definition observesAll (observedBits : ObservedBits) : bool :=
  match observedBits with
  | ObservedNumber n => n =? maxSigned31BitInt
  | _ => true
  end.

(** A record is appended through [lastContextDependency.next], that is
    at the end of the list that holds the last record: the list of the
    fiber being rendered. With no such fiber the list belongs to no
    fiber of the store, and only the module variable moves. *)
Definition readContext (cfg : Config) (ctx : nat)
    (observedBits : ObservedBits) (s : State)
    : JS.completion State JS.value :=
  let result (s' : State) :=
    JS.Normal s' (currentValue cfg (contexts s' !!! ctx)) in
  if bool_decide (lastContextWithAllBitsObserved s = Some ctx) then
    (* Nothing to do. We already observe everything in this context. *)
    result s
  else if observesNothing observedBits then
    (* Do not observe any updates. *)
    result s
  else
    let s1 :=
      if observesAll observedBits
      then with_lastContextWithAllBitsObserved (Some ctx) s
      else s in
    let resolvedObservedBits :=
      match observedBits with
      | ObservedNumber n =>
        if observesAll observedBits then maxSigned31BitInt else n
      | _ => maxSigned31BitInt
      end in
    let contextItem := mkContextDependency ctx resolvedObservedBits in
    match lastContextDependency s1 with
    | None =>
      match currentlyRenderingFiber s1 with
      | None => JS.Throw s1 (JS.invariantError readContext_message)
      | Some f =>
        (* This is the first dependency in the list *)
        result
          (with_lastContextDependency (Some contextItem)
             (with_fibers
                (write_firstContextDependency f [contextItem] (fibers s1))
                s1))
      end
    | Some _ =>
      (* Append a new context item. *)
      let fs :=
        match currentlyRenderingFiber s1 with
        | Some f =>
          write_firstContextDependency f
            (firstContextDependency (fibers s1 !!! f) ++ [contextItem])
            (fibers s1)
        | None => fibers s1
        end in
      result (with_lastContextDependency (Some contextItem)
                                         (with_fibers fs s1))
    end.

(** [t === NoWork || t > renderExpirationTime], the test guarding every
    write of an expiration time. *)
Definition lessUrgent (t renderExpirationTime : Z) : bool :=
  (t =? NoWork) || (renderExpirationTime <? t).

(** [h.[p].expirationTime = t] and its sibling for the child time. *)
Definition write_expirationTime (p : ptr) (t : Z) (h : gmap ptr Fiber)
    : gmap ptr Fiber :=
  <[p := set_expirationTime t (h !!! p)]> h.

Definition write_childExpirationTime (p : ptr) (t : Z) (h : gmap ptr Fiber)
    : gmap ptr Fiber :=
  <[p := set_childExpirationTime t (h !!! p)]> h.

Definition write_return (p : ptr) (r : option ptr) (h : gmap ptr Fiber)
    : gmap ptr Fiber :=
  <[p := set_return r (h !!! p)]> h.

(** The loop over the ancestors, [while (node !== null) { ... }], which
    raises the child expiration time of [node], of its alternate, or
    breaks when neither was updated. [None] is running out of fuel. *)
Fixpoint scheduleAncestors (fuel : nat) (renderExpirationTime : Z)
    (h : gmap ptr Fiber) (node : option ptr) : option (gmap ptr Fiber) :=
  match node with
  | None => Some h
  | Some n =>
    match fuel with
    | O => None
    | S fuel' =>
      let alt := alternate (h !!! n) in
      if lessUrgent (childExpirationTime (h !!! n)) renderExpirationTime
      then
        let h1 := write_childExpirationTime n renderExpirationTime h in
        let h2 :=
          match alt with
          | Some a =>
            if lessUrgent (childExpirationTime (h1 !!! a))
                          renderExpirationTime
            then write_childExpirationTime a renderExpirationTime h1
            else h1
          | None => h1
          end in
        scheduleAncestors fuel' renderExpirationTime h2
                          (return_ (h2 !!! n))
      else
        match alt with
        | Some a =>
          if lessUrgent (childExpirationTime (h !!! a))
                        renderExpirationTime
          then
            let h1 := write_childExpirationTime a renderExpirationTime h in
            scheduleAncestors fuel' renderExpirationTime h1
                              (return_ (h1 !!! n))
          else Some h
        | None => Some h
        end
    end
  end.

(** "Match! Schedule an update on this fiber." *)
Definition scheduleFiber (fuel : nat) (renderExpirationTime : Z)
    (h : gmap ptr Fiber) (fiber : ptr) : option (gmap ptr Fiber) :=
  let h1 :=
    if lessUrgent (expirationTime (h !!! fiber)) renderExpirationTime
    then write_expirationTime fiber renderExpirationTime h
    else h in
  let h2 :=
    match alternate (h1 !!! fiber) with
    | Some a =>
      if lessUrgent (expirationTime (h1 !!! a)) renderExpirationTime
      then write_expirationTime a renderExpirationTime h1
      else h1
    | None => h1
    end in
  scheduleAncestors fuel renderExpirationTime h2 (return_ (h2 !!! fiber)).

(** [dependency.context === context &&
     (dependency.observedBits & changedBits) !== 0]. *)
Definition dependencyMatches (ctx : nat) (changedBits : Z)
    (d : ContextDependency) : bool :=
  (context d =? ctx)%nat &&
  negb (JS.bitAnd (observedBits d) changedBits =? 0).

(** The [do { ... } while (dependency !== null)] loop over the records
    of one fiber. *)
Fixpoint visitDependencies (fuel : nat) (ctx : nat) (changedBits : Z)
    (renderExpirationTime : Z) (fiber : ptr)
    (deps : list ContextDependency) (h : gmap ptr Fiber)
    : option (gmap ptr Fiber) :=
  match deps with
  | [] => Some h
  | d :: rest =>
    h1 ← (if dependencyMatches ctx changedBits d
          then scheduleFiber fuel renderExpirationTime h fiber
          else Some h);
    visitDependencies fuel ctx changedBits renderExpirationTime fiber
                      rest h1
  end.

(** "Visit this fiber": the new store and [nextFiber]. *)
Definition visitFiber (fuel : nat) (workInProgress : ptr) (ctx : nat)
    (changedBits : Z) (renderExpirationTime : Z)
    (h : gmap ptr Fiber) (fiber : ptr)
    : option (gmap ptr Fiber * option ptr) :=
  match firstContextDependency (h !!! fiber) with
  | d :: rest =>
    h1 ← visitDependencies fuel ctx changedBits renderExpirationTime
                           fiber (d :: rest) h;
    Some (h1, child (h1 !!! fiber))
  | [] =>
    if decide (tag (h !!! fiber) = ContextProvider)
    then
      (* Don't scan deeper if this is a matching provider *)
      Some (h, if (type (h !!! fiber) =? type (h !!! workInProgress))%nat
               then None else child (h !!! fiber))
    else Some (h, child (h !!! fiber))
  end.

(** "No child. Traverse to next sibling.": the inner [while] loop,
    entered with [nextFiber = fiber]. *)
Fixpoint nextSibling (fuel : nat) (workInProgress : ptr)
    (h : gmap ptr Fiber) (nextFiber : option ptr)
    : option (gmap ptr Fiber * option ptr) :=
  match nextFiber with
  | None => Some (h, None)
  | Some n =>
    match fuel with
    | O => None
    | S fuel' =>
      if (n =? workInProgress)%nat then Some (h, None)
      else
        match sibling (h !!! n) with
        | Some s => Some (write_return s (return_ (h !!! n)) h, Some s)
        | None => nextSibling fuel' workInProgress h (return_ (h !!! n))
        end
    end
  end.

(** The outer [while (fiber !== null)] loop. *)
Fixpoint walk (fuel : nat) (workInProgress : ptr) (ctx : nat)
    (changedBits : Z) (renderExpirationTime : Z)
    (h : gmap ptr Fiber) (fiber : option ptr) : option (gmap ptr Fiber) :=
  match fiber with
  | None => Some h
  | Some f =>
    match fuel with
    | O => None
    | S fuel' =>
      '(h1, nextFiber) ← visitFiber fuel' workInProgress ctx changedBits
                                    renderExpirationTime h f;
      '(h2, nextFiber') ←
        match nextFiber with
        | Some c => Some (write_return c (Some f) h1, Some c)
        | None => nextSibling fuel' workInProgress h1 (Some f)
        end;
      walk fuel' workInProgress ctx changedBits renderExpirationTime
           h2 nextFiber'
    end
  end.

Definition propagateContextChange (fuel : nat) (h : gmap ptr Fiber)
    (workInProgress : ptr) (ctx : nat) (changedBits : Z)
    (renderExpirationTime : Z) : option (gmap ptr Fiber) :=
  let fiber := child (h !!! workInProgress) in
  let h0 :=
    match fiber with
    | Some c => write_return c (Some workInProgress) h
    | None => h
    end in
  walk fuel workInProgress ctx changedBits renderExpirationTime h0 fiber.

End ReactFiberNewContext.

(** ** ReactContext: the public [readContext] *)

Module ReactContext.
Import ReactFiberNewContext.

(** [ReactCurrentOwner.currentDispatcher], [None] for [null]: an object
    with a [readContext] method. *)
Record Dispatcher (S : Type) := mkDispatcher {
  dispatcher_readContext :
    nat -> ObservedBits -> S -> JS.completion S JS.value;
}.
Arguments dispatcher_readContext {S} d.

Definition readContext {S} (currentDispatcher : option (Dispatcher S))
    (ctx : nat) (observedBits : ObservedBits) (s : S)
    : JS.completion S JS.value :=
  match currentDispatcher with
  | None => JS.Throw s (JS.invariantError readContext_message)
  | Some dispatcher => dispatcher_readContext dispatcher ctx observedBits s
  end.

End ReactContext.

(** ** ReactFiberDevToolsHook: the guarded callbacks *)

Module ReactFiberDevToolsHook.

(** The imports of the module that are not among the sources, as
    parameters: two flags, the constant [DidCapture] of
    [ReactSideEffectTags], and the clock and priority functions. The
    clock and the hook callbacks run in a host world [W]. *)
Record Env (W : Type) := mkEnv {
  __DEV__ : bool;
  enableProfilerTimer : bool;
  DidCapture : Z;
  getCurrentTime : W -> JS.completion W Z;
  inferPriorityFromExpirationTime : Z -> Z -> W -> JS.completion W Z;
}.
Arguments __DEV__ {W} e.
Arguments enableProfilerTimer {W} e.
Arguments DidCapture {W} e.
Arguments getCurrentTime {W} e.
Arguments inferPriorityFromExpirationTime {W} e.

(** [root.current.effectTag] is all [onCommitRoot] reads of a root;
    [root_id] is its identity. *)
Record FiberRoot := mkFiberRoot {
  root_id : nat;
  current_effectTag : Z;
}.

(** The module-level variables. A callback is [None] unless it is a
    function; it runs in the host world and returns or throws. *)
Record Hooks (W : Type) := mkHooks {
  onScheduleFiberRoot :
    option (JS.value -> FiberRoot -> JS.value -> W ->
            JS.completion W unit);
  rendererID : JS.value;
  onCommitFiberRoot :
    option (JS.value -> FiberRoot -> option Z -> bool -> W ->
            JS.completion W unit);
  onCommitFiberUnmount :
    option (JS.value -> nat -> W -> JS.completion W unit);
}.
Arguments onScheduleFiberRoot {W} h.
Arguments rendererID {W} h.
Arguments onCommitFiberRoot {W} h.
Arguments onCommitFiberUnmount {W} h.

(** [hasLoggedError], the host world, and the errors that the wrappers
    passed to [console.error], the latest first. *)
Record State (W : Type) := mkState {
  hasLoggedError : bool;
  world : W;
  logged : list JS.value;
}.
Arguments mkState {W} hasLoggedError world logged.
Arguments hasLoggedError {W} s.
Arguments world {W} s.
Arguments logged {W} s.

Section Wrappers.
Context {W : Type} (env : Env W) (hooks : Hooks W).

(** Run a callback on the host world of the state. *)
Definition inWorld {A} (f : W -> JS.completion W A) (s : State W)
    : JS.completion (State W) A :=
  match f (world s) with
  | JS.Normal w a => JS.Normal (mkState (hasLoggedError s) w (logged s)) a
  | JS.Throw w err => JS.Throw (mkState (hasLoggedError s) w (logged s)) err
  end.

(** [try { body } catch (err) { handler(err) }]. *)
Definition tryCatch {S A} (body : JS.completion S A)
    (handler : JS.value -> S -> JS.completion S A)
    : JS.completion S A :=
  match body with
  | JS.Normal s a => JS.Normal s a
  | JS.Throw s err => handler err s
  end.

(** [hasLoggedError = true;
     console.error('React instrumentation encountered an error: %s',
                   err);]
    The console records the error and returns. *)
Definition logError (err : JS.value) (s : State W)
    : JS.completion (State W) unit :=
  JS.Normal (mkState true (world s) (err :: logged s)) tt.

Definition onScheduleRoot (root : FiberRoot) (children : JS.value)
    (s : State W) : JS.completion (State W) unit :=
  if __DEV__ env then
    match onScheduleFiberRoot hooks with
    | Some f =>
      tryCatch (inWorld (f (rendererID hooks) root children) s)
               (fun err s' =>
                  if __DEV__ env && negb (hasLoggedError s')
                  then logError err s' else JS.Normal s' tt)
    | None => JS.Normal s tt
    end
  else JS.Normal s tt.

Definition onCommitRoot (root : FiberRoot) (expirationTime : Z)
    (s : State W) : JS.completion (State W) unit :=
  match onCommitFiberRoot hooks with
  | Some f =>
    tryCatch
      (let didError :=
         JS.bitAnd (current_effectTag root) (DidCapture env)
         =? DidCapture env in
       if enableProfilerTimer env then
         match inWorld (getCurrentTime env) s with
         | JS.Throw s1 err => JS.Throw s1 err
         | JS.Normal s1 currentTime =>
           match inWorld
                   (inferPriorityFromExpirationTime
                      env currentTime expirationTime) s1 with
           | JS.Throw s2 err => JS.Throw s2 err
           | JS.Normal s2 priorityLevel =>
             inWorld (f (rendererID hooks) root (Some priorityLevel)
                        didError) s2
           end
         end
       else inWorld (f (rendererID hooks) root None didError) s)
      (fun err s' =>
         if __DEV__ env then
           if negb (hasLoggedError s') then logError err s'
           else JS.Normal s' tt
         else JS.Normal s' tt)
  | None => JS.Normal s tt
  end.

Definition onCommitUnmount (fiber : nat) (s : State W)
    : JS.completion (State W) unit :=
  match onCommitFiberUnmount hooks with
  | Some f =>
    tryCatch (inWorld (f (rendererID hooks) fiber) s)
             (fun err s' =>
                if __DEV__ env then
                  if negb (hasLoggedError s') then logError err s'
                  else JS.Normal s' tt
                else JS.Normal s' tt)
  | None => JS.Normal s tt
  end.

(** A session: the calls the reconciler makes, in order. A call that
    throws ends the session with its error. *)
Inductive Call :=
| ScheduleRoot (root : FiberRoot) (children : JS.value)
| CommitRoot (root : FiberRoot) (expirationTime : Z)
| CommitUnmount (fiber : nat).

Definition call (c : Call) (s : State W) : JS.completion (State W) unit :=
  match c with
  | ScheduleRoot root children => onScheduleRoot root children s
  | CommitRoot root expirationTime => onCommitRoot root expirationTime s
  | CommitUnmount fiber => onCommitUnmount fiber s
  end.

Fixpoint session (cs : list Call) (s : State W)
    : JS.completion (State W) unit :=
  match cs with
  | [] => JS.Normal s tt
  | c :: rest =>
    match call c s with
    | JS.Normal s' _ => session rest s'
    | JS.Throw s' err => JS.Throw s' err
    end
  end.

End Wrappers.

End ReactFiberDevToolsHook.

(** ** The devtools global hook: [installHook] *)

Module DevToolsHook.


Record DevToolsHookSettings := mkSettings {
  appendComponentStack : bool;
  breakOnConsoleErrors : bool;
  showInlineWarningsAndErrors : bool;
  hideConsoleLogsInStrictMode : bool;
}.


(** The data of a freshly built hook object: its collections are empty
    and keyed by renderer id or event name; the methods of the hook are
    closures over these. *)
Record DevToolsHook := mkHook {
  rendererInterfaces : gmap nat nat;
  listeners : gmap string (list nat);
  backends : gmap string nat;
  renderers : gmap nat nat;
  supportsFiber : bool;
  settings : DevToolsHookSettings;
  workTagMapByRendererId : gmap nat nat;
}.

(** An own property of the target: a data property, or the accessor
    that [installHook] defines, whose getter returns the hook. *)
Inductive Property :=
| DataProperty (v : JS.value)
| HookAccessor (hook : DevToolsHook) (configurable enumerable : bool).





End DevToolsHook.

(** ** ReactDOMFiber: the commit bracket *)

Module ReactDOMFiber.

(** What [ReactInputSelection.getSelectionInformation] captures. *)
Record SelectionInformation := mkSelection {
  focusedElem : option nat;
  selectionRange : option (Z * Z);
}.

(** The module variables [eventsEnabled] and [selectionInformation]
    ([None] for [null]) with the two collaborators: the enabled flag of
    [ReactBrowserEventEmitter] and the selection of the document. *)
Record State := mkState {
  eventsEnabled : option bool;
  selectionInformation : option SelectionInformation;
  emitterEnabled : bool;
  documentSelection : SelectionInformation;
}.

(** Modelled from the spec: [ReactBrowserEventEmitter] is not among the
    sources. Its [setEnabled] suspends or resumes event dispatch and
    [isEnabled] reads that flag; [null] counts as [false]. *)
Definition isEnabled (s : State) : bool := emitterEnabled s.

Definition setEnabled (enabled : option bool) (s : State) : State :=
  mkState (eventsEnabled s) (selectionInformation s)
          (default false enabled) (documentSelection s).

(** Modelled from the spec: [ReactInputSelection] is not among the
    sources. [getSelectionInformation] snapshots the focus and selection
    state and [restoreSelection] puts a captured snapshot back; without
    a snapshot there is nothing to put back. *)
Definition getSelectionInformation (s : State) : SelectionInformation :=
  documentSelection s.

Definition restoreSelection (prior : option SelectionInformation)
    (s : State) : State :=
  match prior with
  | Some sel =>
    mkState (eventsEnabled s) (selectionInformation s) (emitterEnabled s) sel
  | None => s
  end.

Definition prepareForCommit (s : State) : State :=
  let s1 := mkState (Some (isEnabled s)) (selectionInformation s)
                    (emitterEnabled s) (documentSelection s) in
  let s2 := setEnabled (Some false) s1 in
  mkState (eventsEnabled s2) (Some (getSelectionInformation s2))
          (emitterEnabled s2) (documentSelection s2).

Definition resetAfterCommit (s : State) : State :=
  let s1 := restoreSelection (selectionInformation s) s in
  let s2 := mkState (eventsEnabled s1) None
                    (emitterEnabled s1) (documentSelection s1) in
  let s3 := setEnabled (eventsEnabled s2) s2 in
  mkState None (selectionInformation s3)
          (emitterEnabled s3) (documentSelection s3).

(** What the mutations of a commit can do to the state between the two
    calls: move the focus or the selection. *)
Definition mutateSelection (sel : SelectionInformation) (s : State)
    : State :=
  mkState (eventsEnabled s) (selectionInformation s) (emitterEnabled s) sel.

End ReactDOMFiber.

(** ** VerticalScrollView: the scroll state of the profiler view *)

Module VerticalScrollView.

Record ScrollState (number : Type) := mkScrollState {
  offset : number;
  length : number;
}.
Arguments mkScrollState {number} offset length.
Arguments offset {number} s.
Arguments length {number} s.

(** The helpers of [./utils/scrollState] are not among the sources, and
    the view is parametrised by them, with the arguments of their option
    objects in the order [state], [minContentLength], [maxContentLength],
    [containerLength] for [clampState] and [state], [delta],
    [containerLength] for [translateState]. [negate] is unary minus. *)
Class ScrollStateUtils (number : Type) := {
  clampState :
    ScrollState number -> number -> number -> number -> ScrollState number;
  areScrollStatesEqual : ScrollState number -> ScrollState number -> bool;
  translateState :
    ScrollState number -> number -> number -> ScrollState number;
  negate : number -> number;
}.

(** The fields of the view that scrolling touches:
    [this._contentView.frame.size.height], [this.frame.size.height],
    the scroll state, the registered callback ([None] for [null]), the
    redraw request of [setNeedsDisplay], and the calls made to the
    callback with their arguments, the latest first. *)
Record View (number : Type) := mkView {
  contentView_frame_height : number;
  frame_height : number;
  _scrollState : ScrollState number;
  _onChangeCallback : option nat;
  needsDisplay : bool;
  onChangeCalls : list (nat * ScrollState number * number);
}.
Arguments mkView {number} _ _ _ _ _ _.
Arguments contentView_frame_height {number} v.
Arguments frame_height {number} v.
Arguments _scrollState {number} v.
Arguments _onChangeCallback {number} v.
Arguments needsDisplay {number} v.
Arguments onChangeCalls {number} v.

Section View.
Context {number : Type} `{ScrollStateUtils number}.

Definition onChange (callback : nat) (v : View number) : View number :=
  mkView (contentView_frame_height v) (frame_height v) (_scrollState v)
         (Some callback) (needsDisplay v) (onChangeCalls v).

Definition _setScrollState (proposedState : ScrollState number)
    (v : View number) : View number * bool :=
  let height := contentView_frame_height v in
  let clampedState :=
    clampState proposedState height height (frame_height v) in
  if negb (areScrollStatesEqual clampedState (_scrollState v)) then
    let st := mkScrollState (offset clampedState) (length clampedState) in
    let calls :=
      match _onChangeCallback v with
      | Some callback =>
        (callback, clampedState, frame_height v) :: onChangeCalls v
      | None => onChangeCalls v
      end in
    (mkView (contentView_frame_height v) (frame_height v) st
            (_onChangeCallback v) true calls, true)
  else (v, false).

Definition scrollBy (deltaY : number) (v : View number)
    : View number * bool :=
  let newState :=
    translateState (_scrollState v) (negate deltaY) (frame_height v) in
  _setScrollState newState v.

End View.

(** The view is parametrised by the helpers. To run it on concrete
    numbers, an instance on integer lengths: a length is clamped
    between the larger of the minimal content length and the container
    and the larger of the container and the maximal content length, an
    offset between [-(length - containerLength)] and [0]; a translation
    moves the offset and clamps it; two states are equal when their
    offsets and their lengths are. *)
Module Reference.

Definition clamp (min max value : Z) : Z :=
  if value <? min then min else if max <? value then max else value.

Definition clampOffset (state : ScrollState Z) (containerLength : Z)
    : ScrollState Z :=
  mkScrollState
    (clamp (- (length state - containerLength)) 0 (offset state))
    (length state).

Definition clampLength (state : ScrollState Z)
    (minContentLength maxContentLength containerLength : Z)
    : ScrollState Z :=
  mkScrollState
    (offset state)
    (clamp (Z.max minContentLength containerLength)
           (Z.max containerLength maxContentLength)
           (length state)).

#[export] Instance utils : ScrollStateUtils Z := {
  clampState state minContentLength maxContentLength containerLength :=
    clampOffset
      (clampLength state minContentLength maxContentLength
                   containerLength)
      containerLength;
  areScrollStatesEqual a b :=
    (offset a =? offset b) && (length a =? length b);
  translateState state delta containerLength :=
    clampOffset (mkScrollState (offset state + delta) (length state))
                containerLength;
  negate := Z.opp;
}.

End Reference.

End VerticalScrollView.

(** ** ReactFiberDevToolsHook: the injection *)

Module ReactFiberDevToolsInjection.
Import ReactFiberDevToolsHook.

(** What the module reads of [__REACT_DEVTOOLS_GLOBAL_HOOK__]:
    whether [isDisabled] and [supportsFiber] are truthy, the [inject]
    method, which runs in the host world and returns the renderer id or
    throws, and the three callbacks, [None] unless they are
    functions. *)
Record GlobalHook (W : Type) := mkGlobalHook {
  isDisabled : bool;
  supportsFiber : bool;
  inject : JS.value -> W -> JS.completion W JS.value;
  hook_onScheduleFiberRoot :
    option (JS.value -> FiberRoot -> JS.value -> W ->
            JS.completion W unit);
  hook_onCommitFiberRoot :
    option (JS.value -> FiberRoot -> option Z -> bool -> W ->
            JS.completion W unit);
  hook_onCommitFiberUnmount :
    option (JS.value -> nat -> W -> JS.completion W unit);
}.
Arguments isDisabled {W} g.
Arguments supportsFiber {W} g.
Arguments inject {W} g.
Arguments hook_onScheduleFiberRoot {W} g.
Arguments hook_onCommitFiberRoot {W} g.
Arguments hook_onCommitFiberUnmount {W} g.

(** The module-level variables: the callbacks with the renderer id,
    and [hasLoggedError] with the host world and the console. A call
    of [console.error] is recorded in [logged] with the error it
    reports, or with its message when it reports none. *)
Record Module (W : Type) := mkModule {
  hooks : Hooks W;
  state : State W;
}.
Arguments mkModule {W} hooks state.
Arguments hooks {W} m.
Arguments state {W} m.

(** The module when it is loaded, in the world [w]. *)
Definition loaded {W} (w : W) : Module W :=
  mkModule (mkHooks W None JS.Null None None) (mkState false w []).

Definition tooOld : string :=
  "The installed version of React DevTools is too old and will not work with the current version of React. Please update React DevTools. https://fb.me/react-devtools".

(** [console.error] with [v]. *)
Definition consoleError {W} (v : JS.value) (s : State W) : State W :=
  mkState (hasLoggedError s) (world s) (v :: logged s).

(** [globalHook] is [None] when
    [typeof __REACT_DEVTOOLS_GLOBAL_HOOK__ === 'undefined']. *)
Definition injectInternals {W} (env : Env W)
    (globalHook : option (GlobalHook W)) (internals : JS.value)
    (m : Module W) : Module W * bool :=
  match globalHook with
  | None =>
    (* No DevTools *)
    (m, false)
  | Some hook =>
    if isDisabled hook then (m, true)
    else if negb (supportsFiber hook) then
      (* DevTools exists, even though it doesn't support Fiber. *)
      (if __DEV__ env
       then mkModule (hooks m) (consoleError (JS.String tooOld) (state m))
       else m,
       true)
    else
      match inWorld (inject hook internals) (state m) with
      | JS.Normal s id =>
        (* We have successfully injected, so now it is safe to set up
           hooks. *)
        let onSchedule :=
          if __DEV__ env then
            match hook_onScheduleFiberRoot hook with
            | Some f => Some f
            | None => onScheduleFiberRoot (hooks m)
            end
          else onScheduleFiberRoot (hooks m) in
        (mkModule
           (mkHooks W onSchedule id (hook_onCommitFiberRoot hook)
                    (hook_onCommitFiberUnmount hook))
           s,
         true)
      | JS.Throw s err =>
        (* Catch all errors because it is unsafe to throw during
           initialization. *)
        (mkModule (hooks m)
                  (if __DEV__ env then consoleError err s else s),
         true)
      end
  end.

End ReactFiberDevToolsInjection.

(** ** The child list of a DOM node *)

Module DOM.

(** Identity of a DOM node. *)
Abbreviation Node := nat.

(** The children of the parent node, in document order. A node that is
    not among them is taken to be detached: it has no sibling. The
    methods below are those of the parent; moving a node that contains
    the parent is not modelled. *)
Abbreviation children := (list Node).

Definition NotFoundError : JS.value := JS.String "NotFoundError".
Definition TypeError : JS.value := JS.String "TypeError".

(** [parentNode.firstChild]. *)
Definition firstChild (l : children) : option Node := head l.

(** [n.nextSibling]. *)
Fixpoint nextSibling (l : children) (n : Node) : option Node :=
  match l with
  | [] => None
  | x :: rest => if decide (x = n) then head rest else nextSibling rest n
  end.

(** The list without [n]. *)
Definition without (n : Node) (l : children) : children :=
  filter (fun x => x <> n) l.

(** The list with [n] before [r]. *)
Fixpoint before (r n : Node) (l : children) : children :=
  match l with
  | [] => [n]
  | x :: rest => if decide (x = r) then n :: x :: rest
                 else x :: before r n rest
  end.

(** [parentNode.insertBefore(n, referenceNode)]: a reference that is
    not a child is a [NotFoundError]; a reference that is [n] itself
    stands for the next sibling of [n]; [n] leaves its place and goes
    before the reference, or to the end without one. *)
Definition insertBefore (n : Node) (referenceNode : option Node)
    (l : children) : JS.completion children unit :=
  match referenceNode with
  | None => JS.Normal (without n l ++ [n]) tt
  | Some r =>
    if decide (r ∈ l) then
      match (if decide (r = n) then nextSibling l n else Some r) with
      | Some r' => JS.Normal (before r' n (without n l)) tt
      | None => JS.Normal (without n l ++ [n]) tt
      end
    else JS.Throw l NotFoundError
  end.

(** [parentNode.removeChild(n)]: [null] is a [TypeError], a node that
    is not a child a [NotFoundError]. *)
Definition removeChild (n : option Node) (l : children)
    : JS.completion children unit :=
  match n with
  | None => JS.Throw l TypeError
  | Some n =>
    if decide (n ∈ l) then JS.Normal (without n l) tt
    else JS.Throw l NotFoundError
  end.

End DOM.

(** ** DOMChildrenOperations *)

Module DOMChildrenOperations.
Import DOM.

(** What [getNativeNode] gives for a component: a node, or for a text
    component the array of its opening and closing comments. *)
Inductive NativeNode :=
| Single (n : Node)
| Delimited (openingComment closingComment : Node).

Definition getNodeAfter (l : children) (node : option NativeNode)
    : option Node :=
  (* Special case for text components, which return [open, close]
     comments from getNativeNode. *)
  let node :=
    match node with
    | Some (Delimited _ closingComment) => Some closingComment
    | Some (Single n) => Some n
    | None => None
    end in
  match node with
  | Some n => nextSibling l n
  | None => firstChild l
  end.

(** [createMicrosoftUnsafeLocalFunction] calls the function it wraps. *)
Definition insertChildAt (childNode : Node) (referenceNode : option Node)
    (l : children) : JS.completion children unit :=
  insertBefore childNode referenceNode l.

(** The loop of [moveDelimitedNodes], entered with [node]; reading
    [nextSibling] of [null] is a [TypeError]. [None] is running out of
    fuel. *)
Fixpoint moveDelimitedNodesFrom (fuel : nat) (node : option Node)
    (closingComment : Node) (referenceNode : option Node) (l : children)
    : option (JS.completion children unit) :=
  match fuel with
  | O => None
  | S fuel' =>
    match node with
    | None => Some (JS.Throw l TypeError)
    | Some n =>
      let nextNode := nextSibling l n in
      match insertChildAt n referenceNode l with
      | JS.Throw l' err => Some (JS.Throw l' err)
      | JS.Normal l' _ =>
        if decide (n = closingComment) then Some (JS.Normal l' tt)
        else moveDelimitedNodesFrom fuel' nextNode closingComment
                                    referenceNode l'
      end
    end
  end.

Definition moveDelimitedNodes (fuel : nat)
    (openingComment closingComment : Node) (referenceNode : option Node)
    (l : children) : option (JS.completion children unit) :=
  moveDelimitedNodesFrom fuel (Some openingComment) closingComment
                         referenceNode l.

Fixpoint removeDelimitedNodes (fuel : nat) (startNode closingComment : Node)
    (l : children) : option (JS.completion children unit) :=
  match fuel with
  | O => None
  | S fuel' =>
    let node := nextSibling l startNode in
    if decide (node = Some closingComment) then
      (* The closing comment is removed by ReactMultiChild. *)
      Some (JS.Normal l tt)
    else
      match DOM.removeChild node l with
      | JS.Throw l' err => Some (JS.Throw l' err)
      | JS.Normal l' _ =>
        removeDelimitedNodes fuel' startNode closingComment l'
      end
  end.

Definition moveChild (fuel : nat) (childNode : NativeNode)
    (referenceNode : option Node) (l : children)
    : option (JS.completion children unit) :=
  match childNode with
  | Delimited openingComment closingComment =>
    moveDelimitedNodes fuel openingComment closingComment referenceNode l
  | Single n => Some (insertChildAt n referenceNode l)
  end.

Definition removeChild (fuel : nat) (childNode : NativeNode)
    (l : children) : option (JS.completion children unit) :=
  match childNode with
  | Delimited openingComment closingComment =>
    r ← removeDelimitedNodes fuel openingComment closingComment l;
    Some
      match r with
      | JS.Throw l1 err => JS.Throw l1 err
      | JS.Normal l1 _ =>
        match DOM.removeChild (Some closingComment) l1 with
        | JS.Throw l2 err => JS.Throw l2 err
        | JS.Normal l2 _ => DOM.removeChild (Some openingComment) l2
        end
      end
  | Single n => Some (DOM.removeChild (Some n) l)
  end.

End DOMChildrenOperations.

(** ** The devtools global hook: the methods of the hook *)

Module DevToolsHookMethods.

(** *** Events *)

(** A handler is a function, compared by reference. *)
Abbreviation Handler := nat.

(** [listeners], a plain object from event names to arrays of
    handlers: the map holds the properties of the object itself. *)
Abbreviation Listeners := (gmap string (list Handler)).

(** The names that a plain object inherits from [Object.prototype]. *)
Definition Object_prototype : list string :=
  ["constructor"; "__defineGetter__"; "__defineSetter__";
   "hasOwnProperty"; "__lookupGetter__"; "__lookupSetter__";
   "isPrototypeOf"; "propertyIsEnumerable"; "toString"; "valueOf";
   "__proto__"; "toLocaleString"].

Definition TypeError : JS.value := JS.String "TypeError".

(** What [listeners[event]] reads: an array of the object itself, or
    a value inherited from [Object.prototype] (a function, or for
    [__proto__] the prototype: truthy, and with no method [push] or
    [indexOf]), or [undefined]. *)
Inductive Property :=
| Own (handlers : list Handler)
| Inherited
| Absent.

Definition get (event : string) (listeners : Listeners) : Property :=
  match listeners !! event with
  | Some handlers => Own handlers
  | None =>
    if bool_decide (event ∈ Object_prototype) then Inherited else Absent
  end.

(** On an inherited name [listeners[event].push] is [undefined], and
    the call of it a [TypeError]. *)
Definition on (event : string) (fn : Handler) (listeners : Listeners)
    : JS.completion Listeners unit :=
  match get event listeners with
  | Own handlers => JS.Normal (<[event := handlers ++ [fn]]> listeners) tt
  | Inherited => JS.Throw listeners TypeError
  | Absent => JS.Normal (<[event := [] ++ [fn]]> listeners) tt
  end.

(** [handlers.indexOf(fn)], [None] for [-1]. *)
Fixpoint indexOf (fn : Handler) (handlers : list Handler) : option nat :=
  match handlers with
  | [] => None
  | h :: rest => if decide (h = fn) then Some O
                 else S <$> indexOf fn rest
  end.

(** On an inherited name [listeners[event].indexOf] is [undefined],
    and the call of it a [TypeError]. *)
Definition off (event : string) (fn : Handler) (listeners : Listeners)
    : JS.completion Listeners unit :=
  match get event listeners with
  | Absent => JS.Normal listeners tt
  | Inherited => JS.Throw listeners TypeError
  | Own handlers =>
    let handlers' :=
      match indexOf fn handlers with
      | Some index => delete index handlers
      | None => handlers
      end in
    match handlers' with
    | [] => JS.Normal (delete event listeners) tt
    | _ :: _ => JS.Normal (<[event := handlers']> listeners) tt
    end
  end.

(** [sub] returns the function that unsubscribes, when [on] returns. *)
Definition sub (event : string) (fn : Handler) (listeners : Listeners)
    : JS.completion Listeners
        (Listeners -> JS.completion Listeners unit) :=
  match on event fn listeners with
  | JS.Normal subscribed _ => JS.Normal subscribed (off event fn)
  | JS.Throw listeners' error => JS.Throw listeners' error
  end.

(** *** The roots of a renderer *)

Abbreviation RendererID := nat.

(** What [onCommitFiberRoot] reads of a root: its identity and
    [root.current.memoizedState], [None] when it is [null] or
    [undefined], with its [element], [None] when that is. *)
Record Root := mkRoot {
  root : nat;
  current_memoizedState : option (option nat);
}.

(** [fiberRoots], an object from renderer ids to sets of roots. *)
Abbreviation FiberRoots := (gmap RendererID (gset nat)).

Definition getFiberRoots (rendererID : RendererID) (roots : FiberRoots)
    : FiberRoots * gset nat :=
  match roots !! rendererID with
  | Some mountedRoots => (roots, mountedRoots)
  | None => (<[rendererID := ∅]> roots, ∅)
  end.

Definition isUnmounting (r : Root) : bool :=
  match current_memoizedState r with
  | None => true
  | Some None => true
  | Some (Some _) => false
  end.

(** The renderer interfaces are host objects: [handleCommitFiberRoot]
    runs in the host world [W] and returns or throws. *)
Record RendererInterface (W : Type) := mkRendererInterface {
  handleCommitFiberRoot : Root -> option Z -> W -> JS.completion W unit;
}.
Arguments handleCommitFiberRoot {W} r.

Definition onCommitFiberRoot {W}
    (rendererInterfaces : gmap RendererID (RendererInterface W))
    (rendererID : RendererID) (r : Root) (priorityLevel : option Z)
    (s : FiberRoots * W) : JS.completion (FiberRoots * W) unit :=
  let '(roots, mountedRoots) := getFiberRoots rendererID s.1 in
  let isKnownRoot := bool_decide (root r ∈ mountedRoots) in
  let isUnmounting := isUnmounting r in
  (* Keep track of mounted roots so we can hydrate when DevTools
     connect. *)
  let mountedRoots' :=
    if negb isKnownRoot && negb isUnmounting
    then {[ root r ]} ∪ mountedRoots
    else if isKnownRoot && isUnmounting
    then mountedRoots ∖ {[ root r ]}
    else mountedRoots in
  let roots' := <[rendererID := mountedRoots']> roots in
  match rendererInterfaces !! rendererID with
  | Some rendererInterface =>
    match handleCommitFiberRoot rendererInterface r priorityLevel s.2 with
    | JS.Normal w _ => JS.Normal (roots', w) tt
    | JS.Throw w err => JS.Throw (roots', w) err
    end
  | None => JS.Normal (roots', s.2) tt
  end.

(** *** The console in strict mode *)

(** A method of [targetConsole]: missing ([undefined]), a method of
    the host, or the override that [patchConsoleForStrictMode] builds
    around the method it found. *)
Inductive Method :=
| Missing
| Host (name : string)
| StrictModeOverride (originalMethod : Method).

(** [targetConsole], [isRunningDuringStrictModeInvocation] and
    [unpatchConsoleCallbacks]: each callback puts one method back. *)
Record Console := mkConsole {
  targetConsole : gmap string Method;
  isRunningDuringStrictModeInvocation : bool;
  unpatchConsoleCallbacks : list (string * Method);
}.

(** [targetConsole[method]]. *)
Definition method (c : gmap string Method) (name : string) : Method :=
  default Missing (c !! name).

Definition consoleMethodsToOverrideForStrictMode : list string :=
  ["group"; "groupCollapsed"; "info"; "log"].

Definition patchConsoleForStrictMode (c : Console) : Console :=
  (* Don't patch twice *)
  match unpatchConsoleCallbacks c with
  | _ :: _ => c
  | [] =>
    foldl
      (fun c name =>
         let originalMethod := method (targetConsole c) name in
         mkConsole
           (<[name := StrictModeOverride originalMethod]> (targetConsole c))
           (isRunningDuringStrictModeInvocation c)
           (unpatchConsoleCallbacks c ++ [(name, originalMethod)]))
      c consoleMethodsToOverrideForStrictMode
  end.

Definition unpatchConsoleForStrictMode (c : Console) : Console :=
  mkConsole
    (foldl (fun t callback => <[callback.1 := callback.2]> t)
           (targetConsole c) (unpatchConsoleCallbacks c))
    (isRunningDuringStrictModeInvocation c)
    [].

Definition setStrictMode (rendererID : RendererID) (isStrictMode : bool)
    (c : Console) : Console :=
  let c1 := mkConsole (targetConsole c) isStrictMode
                      (unpatchConsoleCallbacks c) in
  if isStrictMode then patchConsoleForStrictMode c1
  else unpatchConsoleForStrictMode c1.

(** *** The ranges of internal modules *)

Definition newline : Ascii.ascii := Ascii.ascii_of_nat 10.

(** [s.split('\n')]. *)
Fixpoint split (s : string) : list string :=
  match s with
  | EmptyString => [EmptyString]
  | String c rest =>
    if Ascii.eqb c newline then EmptyString :: split rest
    else match split rest with
         | line :: lines => String c line :: lines
         | [] => [String c EmptyString]
         end
  end.

(** An error is read through its [stack]. *)
Definition getTopStackFrameString (stack : string) : option string :=
  let frames := split stack in
  if (1 <? List.length frames)%nat then frames !! 1%nat else None.

(** [openModuleRangesStack] and [moduleRanges]; [push] appends and
    [pop] takes the last element. *)
Record ModuleRanges := mkModuleRanges {
  openModuleRangesStack : list string;
  moduleRanges : list (string * string);
}.

Definition getInternalModuleRanges (m : ModuleRanges)
    : list (string * string) :=
  moduleRanges m.

Definition registerInternalModuleStart (stack : string) (m : ModuleRanges)
    : ModuleRanges :=
  match getTopStackFrameString stack with
  | Some startStackFrame =>
    mkModuleRanges (openModuleRangesStack m ++ [startStackFrame])
                   (moduleRanges m)
  | None => m
  end.

Definition registerInternalModuleStop (stack : string) (m : ModuleRanges)
    : ModuleRanges :=
  match last (openModuleRangesStack m) with
  | Some startStackFrame =>
    let open := removelast (openModuleRangesStack m) in
    match getTopStackFrameString stack with
    | Some stopStackFrame =>
      mkModuleRanges open
                     (moduleRanges m ++ [(startStackFrame, stopStackFrame)])
    | None => mkModuleRanges open (moduleRanges m)
    end
  | None => m
  end.

End DevToolsHookMethods.

(** ** scripts/rollup/modules *)

Module RollupModules.

Definition exclude : list string :=
  ["src/**/__benchmarks__/**/*.js";
   "src/**/__tests__/**/*.js";
   "src/**/__mocks__/**/*.js"].

(** [moduleMap], a plain object from module names to paths: the map
    holds the properties of the object itself. *)
Abbreviation ModuleMap := (gmap string string).

(** [moduleMap[moduleName] = path] with a string [path]. The name
    [__proto__] is the accessor that the object inherits from
    [Object.prototype], whose setter ignores a value that is no object:
    nothing is stored. Any other name becomes, or stays, a property of
    the object itself. *)
Definition assign (moduleName path : string) (moduleMap : ModuleMap)
    : ModuleMap :=
  if decide (moduleName = "__proto__") then moduleMap
  else <[moduleName := path]> moduleMap.

Section Host.
(** [sync] of [glob], and [basename] (with the extension ['.js']) and
    [resolve] of [path], are functions of the host. *)
Variable sync : string -> list string -> list string.
Variables basename resolve : string -> string.

Definition createModuleMap (paths : list string) : ModuleMap :=
  foldl
    (fun moduleMap path =>
       let files := sync path exclude in
       foldl
         (fun moduleMap file =>
            let moduleName := basename file in
            assign moduleName (resolve file) moduleMap)
         moduleMap files)
    ∅ paths.

End Host.

End RollupModules.

(** ** ReactDOMFiber: the notice about the experimental renderer *)

Module ReactDOMFiberNotice.

(** The module variable [warned] and the messages that [warning]
    printed. [warning] of fbjs prints its message in a development
    build when its condition is false, and does nothing otherwise. *)
Record State := mkState {
  warned : bool;
  warnings : list string;
}.

Definition unstableUse : string :=
  "You are using React DOM Fiber which is an experimental renderer. It is likely to have bugs, breaking changes and is unsupported.".

Definition warning (__DEV__ condition : bool) (format : string) (s : State)
    : State :=
  if __DEV__ && negb condition
  then mkState (warned s) (warnings s ++ [format])
  else s.

(** [useFiber] is the flag of [ReactDOMFeatureFlags]. *)
Definition warnAboutUnstableUse (__DEV__ useFiber : bool) (s : State)
    : State :=
  (* Ignore this warning is the feature flag is turned on. E.g. for
     tests. *)
  let s1 := warning __DEV__ (warned s || useFiber) unstableUse s in
  mkState true (warnings s1).

End ReactDOMFiberNotice.

(** * Properties *)

(** ** The context stack and the comparison of context values *)

Module NewContextFacts.
Import ReactFiber ReactTypes ReactFiberStack ReactFiberNewContext.

Lemma pop_push {T} (cursor : StackCursor T) (v : T) :
  pop (push cursor v) = cursor.
Proof. by destruct cursor. Qed.

Lemma current_push {T} (cursor : StackCursor T) (v : T) :
  current (push cursor v) = v.
Proof. done. Qed.

(** C3. A [pushProvider] followed by the matching [popProvider] gives
    back the context cell: the value and changed-bits fields of both
    renderers are those held before the push, the two cursors are
    restored, and no other context is touched. *)
Theorem pushProvider_popProvider_roundtrip
    (cfg : Config) (providerFiber : Fiber) (changedBits : Z) (s : State) :
  let c := type_context providerFiber in
  let s' := popProvider cfg providerFiber
              (pushProvider cfg providerFiber changedBits s) in
  _currentValue (contexts s' !!! c) = _currentValue (contexts s !!! c) /\
  _currentValue2 (contexts s' !!! c) = _currentValue2 (contexts s !!! c) /\
  _changedBits (contexts s' !!! c) = _changedBits (contexts s !!! c) /\
  _changedBits2 (contexts s' !!! c) = _changedBits2 (contexts s !!! c) /\
  valueCursor s' = valueCursor s /\
  changedBitsCursor s' = changedBitsCursor s /\
  (forall c', c' <> c -> contexts s' !!! c' = contexts s !!! c').
Proof.
  intros c s'. subst s'. unfold popProvider, pushProvider. fold c.
  destruct (isPrimaryRenderer cfg) eqn:Hp; cbn [contexts valueCursor
    changedBitsCursor]; rewrite ?Hp, ?lookup_total_insert_eq, ?pop_push,
    ?current_push; cbn; repeat split; try done;
    intros c' Hc'; by rewrite !lookup_total_insert_ne.
Qed.

(** While the provider is pushed the cell holds the pushed value. *)
Lemma pushProvider_installs
    (cfg : Config) (providerFiber : Fiber) (changedBits : Z) (s : State) :
  let ctx := contexts (pushProvider cfg providerFiber changedBits s)
               !!! type_context providerFiber in
  currentValue cfg ctx = pendingProps_value providerFiber /\
  currentChangedBits cfg ctx = changedBits.
Proof.
  unfold pushProvider, currentValue, currentChangedBits.
  destruct (isPrimaryRenderer cfg) eqn:Hp; cbn [contexts];
    rewrite lookup_total_insert_eq; cbn; by rewrite ?Hp.
Qed.

Lemma SFeqb_finite s1 m1 e1 s2 m2 e2 :
  SFeqb (S754_finite s1 m1 e1) (S754_finite s2 m2 e2)
  = bool_decide (S754_finite s1 m1 e1 = S754_finite s2 m2 e2).
Proof.
  unfold SFeqb, SFcompare.
  destruct s1, s2; try (by rewrite bool_decide_eq_false_2 by congruence).
  - destruct (Z.compare_spec e1 e2) as [He|He|He].
    + subst. change (Pos.compare_cont Eq m1 m2) with (Pos.compare m1 m2).
      destruct (Pos.compare_spec m1 m2) as [Hm|Hm|Hm]; cbn.
      * subst. by rewrite bool_decide_eq_true_2.
      * rewrite bool_decide_eq_false_2; [done | intros [= ->]; lia].
      * rewrite bool_decide_eq_false_2; [done | intros [= ->]; lia].
    + rewrite bool_decide_eq_false_2; [done | intros [= ? ->]; lia].
    + rewrite bool_decide_eq_false_2; [done | intros [= ? ->]; lia].
  - destruct (Z.compare_spec e1 e2) as [He|He|He].
    + subst. change (Pos.compare_cont Eq m1 m2) with (Pos.compare m1 m2).
      destruct (Pos.compare_spec m1 m2) as [Hm|Hm|Hm]; cbn.
      * subst. by rewrite bool_decide_eq_true_2.
      * rewrite bool_decide_eq_false_2; [done | intros [= ->]; lia].
      * rewrite bool_decide_eq_false_2; [done | intros [= ->]; lia].
    + rewrite bool_decide_eq_false_2; [done | intros [= ? ->]; lia].
    + rewrite bool_decide_eq_false_2; [done | intros [= ? ->]; lia].
Qed.

Definition isNumber (v : JS.value) : bool :=
  match v with JS.Number _ => true | _ => false end.

Lemma strictEquals_other (a b : JS.value) :
  isNumber a = false -> JS.strictEquals a b = bool_decide (a = b).
Proof. by destruct a. Qed.

Lemma strictEquals_other_r (a b : JS.value) :
  isNumber b = false -> JS.strictEquals a b = bool_decide (a = b).
Proof. destruct a, b; try done. Qed.

Lemma SFeqb_refl (x : spec_float) :
  SFeqb x x = negb (bool_decide (x = S754_nan)).
Proof.
  destruct x as [s|s| |s m e].
  - by destruct s.
  - by destruct s.
  - done.
  - rewrite SFeqb_finite. by rewrite bool_decide_eq_true_2.
Qed.

(** The inlined polyfill on two numbers. *)
Lemma objectIs_number `{JS.Coercions} (x y : spec_float) :
  objectIs (JS.Number x) (JS.Number y) = bool_decide (x = y).
Proof.
  unfold objectIs. cbn [JS.strictEquals JS.divide JS.ToNumber].
  destruct x as [sx|sx| |sx mx ex], y as [sy|sy| |sy my ey];
    try (rewrite (bool_decide_eq_false_2 (_ = _)) by congruence);
    try (by destruct sx); try (by destruct sy);
    try (by destruct sx, sy).
  - done.
  - change (SFeqb S754_nan (S754_finite sy my ey)) with false.
    change (SFeqb S754_nan S754_nan) with false.
    rewrite (SFeqb_refl (S754_finite sy my ey)).
    by rewrite bool_decide_eq_false_2 by done.
  - rewrite (SFeqb_refl (S754_finite sx mx ex)).
    rewrite bool_decide_eq_false_2 by done. destruct sx; reflexivity.
  - rewrite (SFeqb_refl (S754_finite sx mx ex)).
    rewrite bool_decide_eq_false_2 by done. destruct sx, sy; reflexivity.
  - rewrite (SFeqb_refl (S754_finite sx mx ex)).
    rewrite bool_decide_eq_false_2 by done. destruct sx; reflexivity.
  - rewrite !SFeqb_finite.
    rewrite (bool_decide_eq_true_2 (S754_finite sx mx ex = S754_finite sx mx ex)) by done.
    rewrite (bool_decide_eq_true_2 (S754_finite sy my ey = S754_finite sy my ey)) by done.
    replace (SFeqb (S754_finite sx mx ex) JS.posZero) with false
      by (by destruct sx).
    cbn [negb andb orb]. by rewrite orb_false_r, andb_true_r.
Qed.

(** The inlined polyfill computes [Object.is]. *)
Lemma objectIs_sameValue `{JS.Coercions} (oldValue newValue : JS.value) :
  objectIs oldValue newValue = JS.sameValue oldValue newValue.
Proof.
  unfold JS.sameValue.
  destruct (isNumber oldValue) eqn:Ho.
  - destruct oldValue as [| | |x| |]; try done.
    destruct (isNumber newValue) eqn:Hn.
    + destruct newValue as [| | |y| |]; try done.
      rewrite objectIs_number. apply bool_decide_ext. split; congruence.
    + unfold objectIs.
      rewrite (strictEquals_other_r _ newValue Hn).
      rewrite (strictEquals_other newValue newValue Hn).
      rewrite (bool_decide_eq_true_2 (newValue = newValue)) by done.
      rewrite andb_false_r, orb_false_r.
      rewrite !(bool_decide_eq_false_2 (JS.Number x = newValue))
        by (intros <-; done).
      done.
  - unfold objectIs.
    rewrite !(strictEquals_other oldValue _ Ho).
    rewrite (bool_decide_eq_true_2 (oldValue = oldValue)) by done.
    rewrite (bool_decide_eq_false_2 (oldValue = JS.Number _))
      by (intros ->; done).
    cbn [negb andb orb]. by rewrite andb_true_r, orb_false_r.
Qed.

Lemma int32_MAX : JS.int32 MAX_SIGNED_31_BIT_INT = 1073741823.
Proof. reflexivity. Qed.

(** [calculateChangedBits] in terms of [Object.is]. *)
Lemma calculateChangedBits_sameValue `{JS.Coercions} (ctx : ReactContext)
    (newValue oldValue : JS.value) :
  calculateChangedBits ctx newValue oldValue =
    if JS.sameValue oldValue newValue then 0
    else match _calculateChangedBits ctx with
         | Some f => JS.ToInt32 (f oldValue newValue)
         | None => 1073741823
         end.
Proof.
  unfold calculateChangedBits. rewrite objectIs_sameValue.
  destruct (JS.sameValue oldValue newValue); [done|].
  destruct (_calculateChangedBits ctx); [done|]. apply int32_MAX.
Qed.

(** C4 (as amended). [calculateChangedBits] returns 0 whenever the two
    values are [Object.is]-equal; when they are not it returns the
    result of the comparator of the context, cut to 32 bits, which may
    be 0, and [MAX_SIGNED_31_BIT_INT] when the context has no
    comparator. So [NaN] against [NaN] gives 0 for every context, and
    for a context without a comparator the result is 0 exactly when
    the values are [Object.is]-equal, [0] against [-0] giving
    [MAX_SIGNED_31_BIT_INT]. *)
Theorem calculateChangedBits_spec `{JS.Coercions} (ctx : ReactContext)
    (newValue oldValue : JS.value) :
  calculateChangedBits ctx newValue oldValue =
    (if JS.sameValue oldValue newValue then 0
     else match _calculateChangedBits ctx with
          | Some f => JS.ToInt32 (f oldValue newValue)
          | None => MAX_SIGNED_31_BIT_INT
          end) /\
  calculateChangedBits ctx (JS.Number JS.NaN) (JS.Number JS.NaN) = 0 /\
  (_calculateChangedBits ctx = None ->
   (calculateChangedBits ctx newValue oldValue = 0 <->
    JS.sameValue oldValue newValue = true) /\
   calculateChangedBits ctx (JS.Number JS.posZero) (JS.Number JS.negZero)
   = MAX_SIGNED_31_BIT_INT).
Proof.
  rewrite !calculateChangedBits_sameValue. split; [done|]. split; [done|].
  intros ->. split; [|done].
  destruct (JS.sameValue oldValue newValue); by split.
Qed.

(** A context whose comparator reports no changed bits, whatever the
    two values are. *)
Definition neverChanged : ReactContext :=
  mkReactContext (Some (fun _ _ => JS.posZero))
                 JS.Undefined JS.Undefined 0 0 None None.

(** A host whose coercions of strings and objects give [NaN]. *)
Definition nanCoercions : JS.Coercions :=
  {| JS.ToNumber_string := fun _ => JS.NaN;
     JS.ToNumber_object := fun _ => JS.NaN |}.

(** C4, counterexample. With a comparator that returns 0 the result is 0
    for [0] and [-0], which are not [Object.is]-equal. *)
Lemma calculateChangedBits_zero_for_distinct :
  @calculateChangedBits nanCoercions neverChanged
     (JS.Number JS.posZero) (JS.Number JS.negZero) = 0 /\
  JS.sameValue (JS.Number JS.negZero) (JS.Number JS.posZero) = false.
Proof. split; reflexivity. Qed.

(** A context created without a comparator. *)
Definition plainContext : ReactContext :=
  mkReactContext None (JS.String "light") (JS.String "light")
                 0 0 None None.

Lemma calculateChangedBits_spec_witness :
  (@calculateChangedBits nanCoercions plainContext
     (JS.String "dark") (JS.String "light") = 0 <->
   JS.sameValue (JS.String "light") (JS.String "dark") = true) /\
  @calculateChangedBits nanCoercions plainContext
     (JS.Number JS.posZero) (JS.Number JS.negZero)
  = MAX_SIGNED_31_BIT_INT.
Proof.
  apply (@calculateChangedBits_spec nanCoercions plainContext
           (JS.String "dark") (JS.String "light")).
  reflexivity.
Defined.

(** *** [readContext] *)

Definition throws {S A} (c : JS.completion S A) : bool :=
  match c with
  | JS.Throw _ _ => true
  | JS.Normal _ _ => false
  end.

(** The states the exported functions of the module can reach from the
    initial one. *)
Inductive reachable (cfg : Config) : State -> Prop :=
| reach_initial cs fs : reachable cfg (initialState cs fs)
| reach_reset s :
    reachable cfg s -> reachable cfg (resetContextDependences s)
| reach_prepare s workInProgress renderExpirationTime :
    reachable cfg s ->
    reachable cfg
      (fst (prepareToReadContext cfg workInProgress renderExpirationTime s))
| reach_push s providerFiber changedBits :
    reachable cfg s ->
    reachable cfg (pushProvider cfg providerFiber changedBits s)
| reach_pop s providerFiber :
    reachable cfg s -> reachable cfg (popProvider cfg providerFiber s)
| reach_read_normal s ctx observedBits s' v :
    reachable cfg s ->
    readContext cfg ctx observedBits s = JS.Normal s' v ->
    reachable cfg s'
| reach_read_throw s ctx observedBits s' err :
    reachable cfg s ->
    readContext cfg ctx observedBits s = JS.Throw s' err ->
    reachable cfg s'.

(** A last dependency record exists only while a fiber is rendering. *)
Lemma reachable_lastContextDependency (cfg : Config) (s : State) :
  reachable cfg s ->
  currentlyRenderingFiber s = None -> lastContextDependency s = None.
Proof.
  induction 1 as [cs fs|s Hs IH|s w r Hs IH|s f b Hs IH|s f Hs IH
                 |s ctx bits s' v Hs IH Hr|s ctx bits s' err Hs IH Hr];
    try done.
  - unfold prepareToReadContext.
    destruct (firstContextDependency _); done.
  - unfold pushProvider. destruct (isPrimaryRenderer cfg); exact IH.
  - unfold readContext in Hr.
    destruct (bool_decide _); [by injection Hr as <- _|].
    destruct (observesNothing bits); [by injection Hr as <- _|].
    destruct (observesAll bits);
      cbn [lastContextDependency with_lastContextWithAllBitsObserved
           currentlyRenderingFiber] in Hr;
      destruct (lastContextDependency s) eqn:Hl;
      destruct (currentlyRenderingFiber s) eqn:Hc;
      try discriminate; injection Hr as <- _; cbn; intros Hn;
      rewrite ?Hc in *; try done; by specialize (IH eq_refl).
  - unfold readContext in Hr.
    destruct (bool_decide _); [done|].
    destruct (observesNothing bits); [done|].
    destruct (observesAll bits);
      cbn [lastContextDependency with_lastContextWithAllBitsObserved
           currentlyRenderingFiber] in Hr;
      destruct (lastContextDependency s) eqn:Hl;
      destruct (currentlyRenderingFiber s) eqn:Hc;
      try discriminate; injection Hr as <- _; cbn; done.
Qed.

Definition primaryConfig : Config := mkConfig true true 0%nat.

(** C5, counterexample. With no fiber rendering, a read that observes
    nothing returns instead of throwing. *)
Lemma readContext_outside_render_returns :
  let theme :=
    mkReactContext None (JS.String "light") (JS.String "light")
                   0 0 None None in
  let s := resetContextDependences (initialState {[ 0%nat := theme ]} ∅) in
  currentlyRenderingFiber s = None /\
  readContext primaryConfig 0%nat (ObservedNumber 0) s
  = JS.Normal s (JS.String "light").
Proof. split; reflexivity. Qed.

(** C5 (as amended). In the state left by [resetContextDependences],
    where no fiber is rendering, [readContext] signals the invariant
    violation for every context and every [observedBits] other than
    [false] and [0], for which it returns the current value; the public
    [readContext] signals it for every argument when no dispatcher is
    installed. *)
Theorem readContext_outside_render
    (cfg : Config) (ctx : nat) (observedBits : ObservedBits) (s : State) :
  let s0 := resetContextDependences s in
  currentlyRenderingFiber s0 = None /\
  readContext cfg ctx observedBits s0 =
    (if observesNothing observedBits
     then JS.Normal s0 (currentValue cfg (contexts s0 !!! ctx))
     else JS.Throw
            (if observesAll observedBits
             then with_lastContextWithAllBitsObserved (Some ctx) s0
             else s0)
            (JS.invariantError readContext_message)) /\
  ReactContext.readContext None ctx observedBits s
  = JS.Throw s (JS.invariantError readContext_message).
Proof.
  intros s0. split; [done|]. split; [|done].
  unfold readContext. subst s0.
  cbn [lastContextWithAllBitsObserved resetContextDependences].
  rewrite bool_decide_eq_false_2 by done.
  destruct (observesNothing observedBits); [done|].
  by destruct (observesAll observedBits).
Qed.

(** C9. A read with [observedBits] equal to [false] or [0] returns the
    current value of the context and leaves the state as it is: no
    dependency record is appended, and no invariant violation is
    signalled, whether or not a fiber is rendering. [readContext] throws
    exactly when it is about to record the first dependency and no
    fiber is rendering. *)
Theorem readContext_observing_nothing
    (cfg : Config) (ctx : nat) (s : State) :
  readContext cfg ctx (ObservedBoolean false) s
  = JS.Normal s (currentValue cfg (contexts s !!! ctx)) /\
  readContext cfg ctx (ObservedNumber 0) s
  = JS.Normal s (currentValue cfg (contexts s !!! ctx)) /\
  (forall observedBits,
     throws (readContext cfg ctx observedBits s) =
       negb (bool_decide (lastContextWithAllBitsObserved s = Some ctx)) &&
       negb (observesNothing observedBits) &&
       bool_decide (lastContextDependency s = None) &&
       bool_decide (currentlyRenderingFiber s = None)).
Proof.
  unfold readContext. repeat split.
  - by destruct (bool_decide _).
  - by destruct (bool_decide _).
  - intros observedBits.
    destruct (bool_decide (lastContextWithAllBitsObserved s = Some ctx));
      [done|].
    destruct (observesNothing observedBits); [done|].
    destruct (observesAll observedBits);
      cbn [lastContextDependency with_lastContextWithAllBitsObserved
           currentlyRenderingFiber];
      destruct (lastContextDependency s), (currentlyRenderingFiber s);
      done.
Qed.

End NewContextFacts.

(** ** The propagation walk *)

Module PropagationFacts.
Import ReactFiber ReactFiberNewContext.

(** *** Reading the store after a write *)

Lemma lookup_write_expirationTime h p t x :
  write_expirationTime p t h !!! x =
    if decide (p = x) then set_expirationTime t (h !!! p) else h !!! x.
Proof. unfold write_expirationTime. by rewrite lookup_total_insert. Qed.

Lemma lookup_write_childExpirationTime h p t x :
  write_childExpirationTime p t h !!! x =
    if decide (p = x) then set_childExpirationTime t (h !!! p)
    else h !!! x.
Proof. unfold write_childExpirationTime. by rewrite lookup_total_insert. Qed.

Lemma lookup_write_return h p r x :
  write_return p r h !!! x =
    if decide (p = x) then set_return r (h !!! p) else h !!! x.
Proof. unfold write_return. by rewrite lookup_total_insert. Qed.

(** The part of a fiber that the walk never writes. *)
Definition shape (f : Fiber) : Fiber :=
  set_return None (set_expirationTime 0 (set_childExpirationTime 0 f)).

Section Walk.
Variables (workInProgress : ptr) (ctx : nat).
Variables (changedBits renderExpirationTime : Z).

Local Abbreviation render := renderExpirationTime.

(** The value an expiration time has after the guarded write. *)
Definition raised (t : Z) : Z := if lessUrgent t render then render else t.

Lemma raised_idem t : raised (raised t) = raised t.
Proof.
  unfold raised. destruct (lessUrgent t render) eqn:Ht; [|by rewrite Ht].
  by destruct (lessUrgent render render).
Qed.

(** [evolves FE FC FR h h']: from [h] to [h'] the shape of every fiber
    is kept, an expiration time is kept or raised, and the fibers
    whose expiration time, child expiration time and return pointer
    changed lie in [FE], [FC] and [FR]. *)
Definition evolves (FE FC FR : ptr -> Prop) (h h' : gmap ptr Fiber)
    : Prop :=
  forall x,
    shape (h' !!! x) = shape (h !!! x) /\
    (return_ (h' !!! x) = return_ (h !!! x) \/ FR x) /\
    (expirationTime (h' !!! x) = expirationTime (h !!! x) \/
     FE x /\ expirationTime (h' !!! x) = raised (expirationTime (h !!! x)))
    /\
    (childExpirationTime (h' !!! x) = childExpirationTime (h !!! x) \/
     FC x /\
     childExpirationTime (h' !!! x)
     = raised (childExpirationTime (h !!! x))).

Lemma evolves_refl FE FC FR h : evolves FE FC FR h h.
Proof. intros x. by repeat split; left. Qed.

Lemma evolves_weaken (FE FC FR FE' FC' FR' : ptr -> Prop) h h' :
  (forall x, FE x -> FE' x) -> (forall x, FC x -> FC' x) ->
  (forall x, FR x -> FR' x) ->
  evolves FE FC FR h h' -> evolves FE' FC' FR' h h'.
Proof.
  intros HE HC HR Hev x. destruct (Hev x) as (Hs & Hr & He & Hc).
  split; [done|]. split; [|split].
  - destruct Hr; auto.
  - destruct He as [?|[? ?]]; auto.
  - destruct Hc as [?|[? ?]]; auto.
Qed.

Lemma evolves_trans FE FC FR h1 h2 h3 :
  evolves FE FC FR h1 h2 -> evolves FE FC FR h2 h3 ->
  evolves FE FC FR h1 h3.
Proof.
  intros H12 H23 x.
  destruct (H12 x) as (Hs & Hr & He & Hc).
  destruct (H23 x) as (Hs' & Hr' & He' & Hc').
  split; [congruence|]. split; [|split].
  - destruct Hr, Hr'; auto. left. congruence.
  - destruct He as [He|[Hf He]], He' as [He'|[Hf' He']].
    + left. congruence.
    + right. split; [done|]. congruence.
    + right. split; [done|]. congruence.
    + right. split; [done|]. rewrite He', He. apply raised_idem.
  - destruct Hc as [Hc|[Hf Hc]], Hc' as [Hc'|[Hf' Hc']].
    + left. congruence.
    + right. split; [done|]. congruence.
    + right. split; [done|]. congruence.
    + right. split; [done|]. rewrite Hc', Hc. apply raised_idem.
Qed.

Lemma evolves_shape FE FC FR h h' x :
  evolves FE FC FR h h' -> shape (h' !!! x) = shape (h !!! x).
Proof. intros Hev. apply Hev. Qed.

Lemma shape_child f g : shape f = shape g -> child f = child g.
Proof. intros Hs. apply (f_equal child) in Hs. exact Hs. Qed.

Lemma shape_sibling f g : shape f = shape g -> sibling f = sibling g.
Proof. intros Hs. apply (f_equal sibling) in Hs. exact Hs. Qed.

Lemma shape_alternate f g : shape f = shape g -> alternate f = alternate g.
Proof. intros Hs. apply (f_equal alternate) in Hs. exact Hs. Qed.

Lemma shape_tag f g : shape f = shape g -> tag f = tag g.
Proof. intros Hs. apply (f_equal tag) in Hs. exact Hs. Qed.

Lemma shape_type f g : shape f = shape g -> type f = type g.
Proof. intros Hs. apply (f_equal type) in Hs. exact Hs. Qed.

Lemma shape_dependencies f g :
  shape f = shape g ->
  firstContextDependency f = firstContextDependency g.
Proof. intros Hs. apply (f_equal firstContextDependency) in Hs. exact Hs. Qed.

(** The three writes of the walk. *)
Lemma evolves_write_expirationTime h p :
  lessUrgent (expirationTime (h !!! p)) render = true ->
  evolves (eq p) (fun _ => False) (fun _ => False)
          h (write_expirationTime p render h).
Proof.
  intros Hlu x. rewrite lookup_write_expirationTime.
  destruct (decide (p = x)) as [->|Hne]; [|by repeat split; left].
  split; [done|]. split; [by left|]. split; [|by left].
  right. split; [done|]. cbn. unfold raised. by rewrite Hlu.
Qed.

Lemma evolves_write_childExpirationTime h p :
  lessUrgent (childExpirationTime (h !!! p)) render = true ->
  evolves (fun _ => False) (eq p) (fun _ => False)
          h (write_childExpirationTime p render h).
Proof.
  intros Hlu x. rewrite lookup_write_childExpirationTime.
  destruct (decide (p = x)) as [->|Hne]; [|by repeat split; left].
  split; [done|]. split; [by left|]. split; [by left|].
  right. split; [done|]. cbn. unfold raised. by rewrite Hlu.
Qed.

Lemma evolves_write_return h p r :
  evolves (fun _ => False) (fun _ => False) (eq p)
          h (write_return p r h).
Proof.
  intros x. rewrite lookup_write_return.
  destruct (decide (p = x)) as [->|Hne]; [|by repeat split; left].
  split; [done|]. split; [by right|]. by split; left.
Qed.


(** *** More fuel does not change a result *)

Lemma scheduleAncestors_mono n m h node h' :
  scheduleAncestors n render h node = Some h' -> (n <= m)%nat ->
  scheduleAncestors m render h node = Some h'.
Proof.
  revert m h node. induction n as [|n IH]; intros m h node Hrun Hle.
  - destruct node; [done|]. by destruct m.
  - destruct node as [x|]; [|by destruct m].
    destruct m as [|m]; [lia|]. cbn in Hrun |- *.
    destruct (lessUrgent (childExpirationTime (h !!! x)) render).
    + apply IH; [done|lia].
    + destruct (alternate (h !!! x)) as [a|]; [|done].
      destruct (lessUrgent (childExpirationTime (h !!! a)) render);
        [|done].
      apply IH; [done|lia].
Qed.

Lemma scheduleFiber_mono n m h fiber h' :
  scheduleFiber n render h fiber = Some h' -> (n <= m)%nat ->
  scheduleFiber m render h fiber = Some h'.
Proof. unfold scheduleFiber. apply scheduleAncestors_mono. Qed.

Lemma visitDependencies_mono n m fiber deps h h' :
  visitDependencies n ctx changedBits render fiber deps h = Some h' ->
  (n <= m)%nat ->
  visitDependencies m ctx changedBits render fiber deps h = Some h'.
Proof.
  revert h. induction deps as [|d deps IH]; intros h Hrun Hle; [done|].
  cbn in Hrun |- *.
  destruct (dependencyMatches ctx changedBits d).
  - destruct (scheduleFiber n render h fiber) as [h1|] eqn:H1; [|done].
    rewrite (scheduleFiber_mono _ _ _ _ _ H1 Hle). cbn in Hrun |- *. auto.
  - cbn in Hrun |- *. auto.
Qed.

Lemma visitFiber_mono n m h fiber res :
  visitFiber n workInProgress ctx changedBits render h fiber = Some res ->
  (n <= m)%nat ->
  visitFiber m workInProgress ctx changedBits render h fiber = Some res.
Proof.
  unfold visitFiber. intros Hrun Hle.
  destruct (firstContextDependency (h !!! fiber)) as [|d deps]; [done|].
  destruct (visitDependencies n _ _ _ _ _ _) as [h1|] eqn:H1; [|done].
  by rewrite (visitDependencies_mono _ _ _ _ _ _ H1 Hle).
Qed.

Lemma nextSibling_mono n m h nextFiber res :
  nextSibling n workInProgress h nextFiber = Some res -> (n <= m)%nat ->
  nextSibling m workInProgress h nextFiber = Some res.
Proof.
  revert m nextFiber. induction n as [|n IH]; intros m nf Hrun Hle.
  - destruct nf; [done|]. by destruct m.
  - destruct nf as [x|]; [|by destruct m].
    destruct m as [|m]; [lia|]. cbn in Hrun |- *.
    destruct (x =? workInProgress)%nat; [done|].
    destruct (sibling (h !!! x)); [done|]. apply IH; [done|lia].
Qed.

Lemma walk_mono n m h fiber h' :
  walk n workInProgress ctx changedBits render h fiber = Some h' ->
  (n <= m)%nat ->
  walk m workInProgress ctx changedBits render h fiber = Some h'.
Proof.
  revert m h fiber. induction n as [|n IH]; intros m h fiber Hrun Hle.
  - destruct fiber; [done|]. by destruct m.
  - destruct fiber as [f|]; [|by destruct m].
    destruct m as [|m]; [lia|]. cbn in Hrun |- *.
    destruct (visitFiber n _ _ _ _ _ _) as [[h1 nf]|] eqn:H1; [|done].
    rewrite (visitFiber_mono _ m _ _ _ H1) by lia.
    cbn in Hrun |- *.
    destruct nf as [c|].
    + cbn in Hrun |- *. apply IH; [done|lia].
    + destruct (nextSibling n _ _ _) as [[h2 nf']|] eqn:H2; [|done].
      rewrite (nextSibling_mono _ m _ _ _ H2) by lia.
      cbn in Hrun |- *. apply IH; [done|lia].
Qed.

(** *** The walk as a recursion over the tree *)

(** The fibers under [workInProgress] in first-child/next-sibling
    form: [Node p kids sibs] is the fiber [p] with the forest [kids]
    of its children and the forest [sibs] of its later siblings. *)
Inductive forest :=
| Leaf
| Node (p : ptr) (kids sibs : forest).

Fixpoint nodes (t : forest) : list ptr :=
  match t with
  | Leaf => []
  | Node p kids sibs => p :: nodes kids ++ nodes sibs
  end.

Lemma elem_of_nodes_head p kids sibs : p ∈ nodes (Node p kids sibs).
Proof. cbn [nodes]. apply elem_of_cons. by left. Qed.

Lemma elem_of_nodes_kids x p kids sibs :
  x ∈ nodes kids -> x ∈ nodes (Node p kids sibs).
Proof.
  intros Hx. cbn [nodes]. apply elem_of_cons. right.
  apply elem_of_app. by left.
Qed.

Lemma elem_of_nodes_sibs x p kids sibs :
  x ∈ nodes sibs -> x ∈ nodes (Node p kids sibs).
Proof.
  intros Hx. cbn [nodes]. apply elem_of_cons. right.
  apply elem_of_app. by right.
Qed.

Definition first (t : forest) : option ptr :=
  match t with
  | Leaf => None
  | Node p _ _ => Some p
  end.

(** The [child] and [sibling] pointers of the store draw the forest. *)
Fixpoint lay (h : gmap ptr Fiber) (t : forest) : Prop :=
  match t with
  | Leaf => True
  | Node p kids sibs =>
    child (h !!! p) = first kids /\ sibling (h !!! p) = first sibs /\
    lay h kids /\ lay h sibs
  end.

(** The walk does not go below [x]: a provider of the type of
    [workInProgress] that carries no dependency list. *)
Definition stops (h : gmap ptr Fiber) (x : ptr) : bool :=
  match firstContextDependency (h !!! x) with
  | [] =>
    bool_decide (tag (h !!! x) = ContextProvider) &&
    (type (h !!! x) =? type (h !!! workInProgress))%nat
  | _ :: _ => false
  end.

(** What visiting [p] does to the store. *)
Definition visitStore (fuel : nat) (h : gmap ptr Fiber) (p : ptr)
    : option (gmap ptr Fiber) :=
  visitDependencies fuel ctx changedBits render p
                    (firstContextDependency (h !!! p)) h.

Fixpoint walkForest (fuel : nat) (t : forest) (h : gmap ptr Fiber)
    : option (gmap ptr Fiber) :=
  match t with
  | Leaf => Some h
  | Node p kids sibs =>
    h1 ← visitStore fuel h p;
    h2 ← (if stops h p then Some h1
          else match kids with
               | Node c _ _ =>
                 walkForest fuel kids (write_return c (Some p) h1)
               | Leaf => Some h1
               end);
    match sibs with
    | Node s _ _ =>
      walkForest fuel sibs (write_return s (return_ (h2 !!! p)) h2)
    | Leaf => Some h2
    end
  end.

Definition anywhere : ptr -> Prop := fun _ => True.
Definition nowhere : ptr -> Prop := fun _ => False.

Lemma lay_evolves FE FC FR h h' t :
  evolves FE FC FR h h' -> lay h t -> lay h' t.
Proof.
  intros Hev. induction t as [|p kids IHk sibs IHs]; [done|].
  intros (Hc & Hs & Hk & Hsb). cbn.
  rewrite (shape_child _ _ (evolves_shape _ _ _ _ _ p Hev)).
  rewrite (shape_sibling _ _ (evolves_shape _ _ _ _ _ p Hev)). auto.
Qed.

Lemma stops_evolves FE FC FR h h' x :
  evolves FE FC FR h h' -> stops h' x = stops h x.
Proof.
  intros Hev. unfold stops.
  rewrite (shape_dependencies _ _ (evolves_shape _ _ _ _ _ x Hev)).
  rewrite (shape_tag _ _ (evolves_shape _ _ _ _ _ x Hev)).
  rewrite (shape_type _ _ (evolves_shape _ _ _ _ _ x Hev)).
  by rewrite (shape_type _ _ (evolves_shape _ _ _ _ _ workInProgress Hev)).
Qed.

(** **** What the walk keeps, whatever the store *)

Lemma raise_childExpirationTime_keeps h a :
  evolves anywhere anywhere nowhere h
    (if lessUrgent (childExpirationTime (h !!! a)) render
     then write_childExpirationTime a render h else h).
Proof.
  destruct (lessUrgent _ render) eqn:Ha; [|apply evolves_refl].
  eapply evolves_weaken;
    [| | |apply (evolves_write_childExpirationTime _ a Ha)]; done.
Qed.

Lemma raise_expirationTime_keeps h a :
  evolves anywhere anywhere nowhere h
    (if lessUrgent (expirationTime (h !!! a)) render
     then write_expirationTime a render h else h).
Proof.
  destruct (lessUrgent _ render) eqn:Ha; [|apply evolves_refl].
  eapply evolves_weaken;
    [| | |apply (evolves_write_expirationTime _ a Ha)]; done.
Qed.

Lemma scheduleAncestors_keeps n h node h' :
  scheduleAncestors n render h node = Some h' ->
  evolves anywhere anywhere nowhere h h'.
Proof.
  revert h node. induction n as [|n IH]; intros h node Hrun.
  - destruct node; [done|]. injection Hrun as <-. apply evolves_refl.
  - destruct node as [x|]; [|injection Hrun as <-; apply evolves_refl].
    cbn in Hrun.
    destruct (lessUrgent (childExpirationTime (h !!! x)) render) eqn:Hx.
    + eapply evolves_trans; [|eapply IH, Hrun].
      eapply evolves_trans; [apply (raise_childExpirationTime_keeps h x)|].
      rewrite Hx.
      destruct (alternate (h !!! x)) as [a|]; [|apply evolves_refl].
      apply raise_childExpirationTime_keeps.
    + destruct (alternate (h !!! x)) as [a|];
        [|injection Hrun as <-; apply evolves_refl].
      destruct (lessUrgent (childExpirationTime (h !!! a)) render) eqn:Ha;
        [|injection Hrun as <-; apply evolves_refl].
      eapply evolves_trans; [|eapply IH, Hrun].
      pose proof (raise_childExpirationTime_keeps h a) as Hk.
      by rewrite Ha in Hk.
Qed.

Lemma scheduleFiber_keeps n h fiber h' :
  scheduleFiber n render h fiber = Some h' ->
  evolves anywhere anywhere nowhere h h'.
Proof.
  unfold scheduleFiber. intros Hrun.
  eapply evolves_trans; [|eapply scheduleAncestors_keeps, Hrun].
  eapply evolves_trans; [apply (raise_expirationTime_keeps h fiber)|].
  destruct (alternate _) as [a|]; [|apply evolves_refl].
  apply raise_expirationTime_keeps.
Qed.

Lemma visitDependencies_keeps n fiber deps h h' :
  visitDependencies n ctx changedBits render fiber deps h = Some h' ->
  evolves anywhere anywhere nowhere h h'.
Proof.
  revert h. induction deps as [|d deps IH]; intros h Hrun.
  - injection Hrun as <-. apply evolves_refl.
  - cbn in Hrun. destruct (dependencyMatches ctx changedBits d).
    + destruct (scheduleFiber n render h fiber) as [h1|] eqn:H1; [|done].
      cbn in Hrun. eapply evolves_trans;
        [eapply scheduleFiber_keeps, H1|by apply IH].
    + cbn in Hrun. by apply IH.
Qed.

Lemma visitFiber_visitStore n h p :
  visitFiber n workInProgress ctx changedBits render h p =
    h1 ← visitStore n h p;
    Some (h1, if stops h p then None else child (h1 !!! p)).
Proof.
  unfold visitFiber, visitStore, stops.
  destruct (firstContextDependency (h !!! p)) as [|d deps]; [|done].
  cbn. destruct (decide (tag (h !!! p) = ContextProvider)) as [Ht|Ht].
  - rewrite bool_decide_eq_true_2 by done. cbn.
    by destruct (type (h !!! p) =? type (h !!! workInProgress))%nat.
  - by rewrite bool_decide_eq_false_2 by done.
Qed.

Lemma walkForest_keeps n t h h' :
  walkForest n t h = Some h' ->
  evolves anywhere anywhere (fun x => x ∈ nodes t) h h'.
Proof.
  revert h h'. induction t as [|p kids IHk sibs IHs]; intros h h' Hrun.
  - injection Hrun as <-. apply evolves_refl.
  - cbn [walkForest] in Hrun.
    destruct (visitStore n h p) as [h1|] eqn:H1; [|done].
    cbn in Hrun.
    assert (Hev1 : evolves anywhere anywhere
                           (fun x => x ∈ nodes (Node p kids sibs)) h h1).
    { eapply evolves_weaken;
        [| | |eapply visitDependencies_keeps, H1]; done. }
    set (mid := if stops h p then Some h1 else _) in Hrun.
    destruct mid as [h2|] eqn:H2; [|done]. cbn in Hrun.
    assert (Hev2 : evolves anywhere anywhere
                           (fun x => x ∈ nodes (Node p kids sibs)) h1 h2).
    { subst mid. destruct (stops h p);
        [injection H2 as <-; apply evolves_refl|].
      destruct kids as [|c ck cs];
        [injection H2 as <-; apply evolves_refl|].
      eapply evolves_trans.
      - eapply evolves_weaken;
          [| | |apply (evolves_write_return h1 c (Some p))]; try done.
        intros x <-. apply elem_of_nodes_kids, elem_of_nodes_head.
      - eapply evolves_weaken; [| | |eapply IHk, H2]; try done.
        intros x Hx. by apply elem_of_nodes_kids. }
    eapply evolves_trans; [exact Hev1|].
    eapply evolves_trans; [exact Hev2|].
    destruct sibs as [|s sk ss]; [injection Hrun as <-; apply evolves_refl|].
    eapply evolves_trans.
    + eapply evolves_weaken;
        [| | |apply (evolves_write_return h2 s (return_ (h2 !!! p)))];
        try done.
      intros x <-. apply elem_of_nodes_sibs, elem_of_nodes_head.
    + eapply evolves_weaken; [| | |eapply IHs, Hrun]; try done.
      intros x Hx. by apply elem_of_nodes_sibs.
Qed.

(** **** The loop follows the recursion *)

(** What the loop does once the subtree of [x] is finished: the inner
    loop starts at [x], then the outer loop goes on. *)
Definition resume (n : nat) (h : gmap ptr Fiber) (x : ptr)
    : option (gmap ptr Fiber) :=
  '(h2, nextFiber) ← nextSibling n workInProgress h (Some x);
  walk n workInProgress ctx changedBits render h2 nextFiber.

Lemma resume_sibling n h x s res :
  x <> workInProgress -> sibling (h !!! x) = Some s ->
  walk n workInProgress ctx changedBits render
       (write_return s (return_ (h !!! x)) h) (Some s) = Some res ->
  resume (S n) h x = Some res.
Proof.
  intros Hx Hs Hwalk. unfold resume. cbn [nextSibling].
  rewrite (proj2 (Nat.eqb_neq _ _) Hx), Hs. cbn -[walk].
  eapply walk_mono; [exact Hwalk|lia].
Qed.

Lemma resume_return n h x parent res :
  x <> workInProgress -> sibling (h !!! x) = None ->
  return_ (h !!! x) = Some parent ->
  resume n h parent = Some res ->
  resume (S n) h x = Some res.
Proof.
  intros Hx Hs Hr Hres. unfold resume in *. cbn [nextSibling].
  rewrite (proj2 (Nat.eqb_neq _ _) Hx), Hs, Hr.
  destruct (nextSibling n workInProgress h (Some parent))
    as [[h2 nf]|]; [|done].
  cbn -[walk] in Hres |- *. eapply walk_mono; [exact Hres|lia].
Qed.

Lemma walk_visit n h p h1 res :
  visitStore n h p = Some h1 ->
  (if stops h p then None else child (h1 !!! p)) = None ->
  resume n h1 p = Some res ->
  walk (S n) workInProgress ctx changedBits render h (Some p) = Some res.
Proof.
  intros Hv Hnext Hres. cbn [walk].
  rewrite visitFiber_visitStore, Hv. cbn. by rewrite Hnext.
Qed.

Lemma walk_descend n h p h1 c res :
  visitStore n h p = Some h1 ->
  (if stops h p then None else child (h1 !!! p)) = Some c ->
  walk n workInProgress ctx changedBits render
       (write_return c (Some p) h1) (Some c) = Some res ->
  walk (S n) workInProgress ctx changedBits render h (Some p) = Some res.
Proof.
  intros Hv Hnext Hres. cbn [walk].
  rewrite visitFiber_visitStore, Hv. cbn. by rewrite Hnext.
Qed.

Lemma walk_walkForest t :
  forall F h p parent h' res,
    first t = Some p -> lay h t -> NoDup (nodes t) ->
    workInProgress ∉ nodes t ->
    return_ (h !!! p) = Some parent ->
    walkForest F t h = Some h' ->
    (exists n, resume n h' parent = Some res) ->
    exists m,
      walk m workInProgress ctx changedBits render h (Some p) = Some res.
Proof.
  induction t as [|q kids IHk sibs IHs];
    intros F h p parent h' res Hfirst Hlay Hnd Hwip Hret Hrun Hres;
    [done|].
  injection Hfirst as ->.
  destruct Hlay as (Hchild & Hsib & Hlk & Hls).
  cbn [nodes] in Hnd, Hwip.
  apply NoDup_cons in Hnd as [Hpn Hnd].
  apply NoDup_app in Hnd as (Hndk & Hdisj & Hnds).
  rewrite not_elem_of_cons, not_elem_of_app in Hwip.
  destruct Hwip as (Hwp & Hwk & Hws).
  rewrite not_elem_of_app in Hpn. destruct Hpn as [Hpk Hps].
  cbn [walkForest] in Hrun.
  destruct (visitStore F h p) as [h1|] eqn:H1; [|done].
  cbn in Hrun.
  pose proof (visitDependencies_keeps _ _ _ _ _ H1) as Hev1.
  set (mid := if stops h p then Some h1 else _) in Hrun.
  destruct mid as [h2|] eqn:H2; [|done]. cbn in Hrun.
  (* the store after the children keeps the links of [p] *)
  assert (Hev2 : evolves anywhere anywhere (fun x => x ∈ nodes kids) h1 h2).
  { subst mid. destruct (stops h p);
      [injection H2 as <-; apply evolves_refl|].
    destruct kids as [|c ck cs];
      [injection H2 as <-; apply evolves_refl|].
    eapply evolves_trans; [|eapply walkForest_keeps, H2].
    eapply evolves_weaken;
      [| | |apply (evolves_write_return h1 c (Some p))]; try done.
    intros x <-. apply elem_of_nodes_head. }
  assert (Hret2 : return_ (h2 !!! p) = Some parent).
  { destruct (Hev2 p) as (_ & [Hr|Hr] & _); [|done].
    destruct (Hev1 p) as (_ & [Hr1|[]] & _). congruence. }
  assert (Hsib2 : sibling (h2 !!! p) = first sibs).
  { rewrite (shape_sibling _ _ (evolves_shape _ _ _ _ _ p Hev2)).
    by rewrite (shape_sibling _ _ (evolves_shape _ _ _ _ _ p Hev1)). }
  assert (HresP : exists n, resume n h2 p = Some res).
  { destruct sibs as [|s sk ss].
    - injection Hrun as <-. destruct Hres as [n Hn].
      exists (S n). by eapply resume_return.
    - rewrite Hret2 in Hrun.
      destruct (IHs F (write_return s (Some parent) h2) s parent h' res)
        as [m Hm]; try done.
      + eapply lay_evolves; [apply evolves_write_return|].
        eapply lay_evolves; [exact Hev2|].
        eapply lay_evolves; [exact Hev1|done].
      + rewrite lookup_write_return. by rewrite decide_True.
      + exists (S m). eapply resume_sibling; [done|done|].
        by rewrite Hret2. }
  destruct HresP as [n Hn].
  assert (Hchild1 : child (h1 !!! p) = first kids).
  { by rewrite (shape_child _ _ (evolves_shape _ _ _ _ _ p Hev1)). }
  destruct (if stops h p then None else child (h1 !!! p)) as [c|] eqn:Hnext.
  - (* down to the first child *)
    destruct (stops h p) eqn:Hstop; [done|].
    rewrite Hchild1 in Hnext. destruct kids as [|c' ck cs]; [done|].
    injection Hnext as ->. subst mid.
    destruct (IHk F (write_return c (Some p) h1) c p h2 res)
      as [m Hm]; try done.
    + eapply lay_evolves; [apply evolves_write_return|].
      eapply lay_evolves; [exact Hev1|done].
    + rewrite lookup_write_return. by rewrite decide_True.
    + by exists n.
    + exists (S (F `max` m)).
      eapply walk_descend.
      * eapply visitDependencies_mono; [exact H1|lia].
      * by rewrite Hstop, Hchild1.
      * eapply walk_mono; [exact Hm|lia].
  - (* no child to go to *)
    assert (h2 = h1) as ->.
    { subst mid. destruct (stops h p); [by injection H2|].
      rewrite Hchild1 in Hnext. destruct kids; [by injection H2|done]. }
    exists (S (F `max` n)).
    eapply walk_visit.
    + eapply visitDependencies_mono; [exact H1|lia].
    + exact Hnext.
    + unfold resume in Hn |- *.
      destruct (nextSibling n _ _ _) as [[h3 nf]|] eqn:Hns; [|done].
      rewrite (nextSibling_mono _ (F `max` n) _ _ _ Hns) by lia.
      cbn -[walk] in Hn |- *. eapply walk_mono; [exact Hn|lia].
Qed.

(** The loop of [propagateContextChange] ends, with the store of the
    recursion over the tree, whenever that recursion has a result. *)
Lemma propagateContextChange_walkForest t F h h' :
  child (h !!! workInProgress) = first t -> lay h t ->
  NoDup (nodes t) -> workInProgress ∉ nodes t ->
  walkForest F t
    (match first t with
     | Some c => write_return c (Some workInProgress) h
     | None => h
     end) = Some h' ->
  exists fuel,
    propagateContextChange fuel h workInProgress ctx changedBits render
    = Some h'.
Proof.
  intros Hchild Hlay Hnd Hwip Hrun. unfold propagateContextChange.
  rewrite Hchild. destruct t as [|c ck cs].
  - exists 0%nat. by injection Hrun as <-.
  - cbn [first] in *.
    apply (walk_walkForest (Node c ck cs) F
             (write_return c (Some workInProgress) h)
             c workInProgress h' h' eq_refl); try done.
    + eapply lay_evolves; [apply evolves_write_return|done].
    + rewrite lookup_write_return. by rewrite decide_True.
    + exists 1%nat. unfold resume. cbn [nextSibling].
      by rewrite Nat.eqb_refl.
Qed.

(** *** The walk on a well-formed tree *)

(** The [return] pointers lead from [node] through [path], nearest
    ancestor first, to the root. *)
Fixpoint chain (h : gmap ptr Fiber) (node : option ptr)
    (path : list ptr) : Prop :=
  match path with
  | [] => node = None
  | y :: rest => node = Some y /\ chain h (return_ (h !!! y)) rest
  end.

(** The child expiration time of [x] is at least as urgent as the
    render: it is not [NoWork] and not larger. *)
Definition urgentAt (h : gmap ptr Fiber) (x : ptr) : Prop :=
  lessUrgent (childExpirationTime (h !!! x)) render = false.

(** Along [path], once a fiber is urgent the one above it is. *)
Fixpoint upward (h : gmap ptr Fiber) (path : list ptr) : Prop :=
  match path with
  | [] => True
  | x :: rest =>
    (forall y, head rest = Some y -> urgentAt h x -> urgentAt h y) /\
    upward h rest
  end.

(** [x] is in [l] or is the alternate of a fiber of [l]. *)
Definition onOrAlt (h : gmap ptr Fiber) (l : list ptr) (x : ptr) : Prop :=
  x ∈ l \/ exists y, y ∈ l /\ alternate (h !!! y) = Some x.

(** No fiber of [l] has its alternate in [l]. *)
Definition alternatesOutside (h : gmap ptr Fiber) (l : list ptr) : Prop :=
  forall x a, x ∈ l -> alternate (h !!! x) = Some a -> a ∉ l.

Lemma onOrAlt_evolves FE FC FR h h' l x :
  evolves FE FC FR h h' -> onOrAlt h' l x -> onOrAlt h l x.
Proof.
  intros Hev [Hx|(y & Hy & Ha)]; [by left|]. right. exists y.
  split; [done|].
  by rewrite <- (shape_alternate _ _ (evolves_shape _ _ _ _ _ y Hev)).
Qed.

Lemma onOrAlt_mono h l l' x :
  (forall y, y ∈ l -> y ∈ l') -> onOrAlt h l x -> onOrAlt h l' x.
Proof.
  intros Hsub [Hx|(y & Hy & Ha)]; [left; auto|].
  right. exists y. auto.
Qed.

Lemma alternatesOutside_evolves FE FC FR h h' l :
  evolves FE FC FR h h' -> alternatesOutside h l ->
  alternatesOutside h' l.
Proof.
  intros Hev Halt x a Hx Ha. apply (Halt x a Hx).
  by rewrite <- (shape_alternate _ _ (evolves_shape _ _ _ _ _ x Hev)).
Qed.

Lemma alternatesOutside_mono h l l' :
  (forall y, y ∈ l' -> y ∈ l) -> alternatesOutside h l ->
  alternatesOutside h l'.
Proof.
  intros Hsub Halt x a Hx Ha Hin.
  exact (Halt x a (Hsub x Hx) Ha (Hsub a Hin)).
Qed.

Lemma chain_evolves FE FC FR h h' node path :
  evolves FE FC FR h h' -> (forall x, x ∈ path -> ~ FR x) ->
  chain h node path -> chain h' node path.
Proof.
  intros Hev. revert node.
  induction path as [|y rest IH]; intros node Hfr Hch; [done|].
  destruct Hch as [-> Hch]. split; [done|].
  destruct (Hev y) as (_ & [Hr|Hr] & _).
  - rewrite Hr. apply IH; [|done].
    intros x Hx. apply Hfr. apply elem_of_cons. by right.
  - destruct (Hfr y); [apply elem_of_cons; by left|done].
Qed.

Lemma urgentAt_evolves FE FC FR h h' x :
  evolves FE FC FR h h' -> urgentAt h x -> urgentAt h' x.
Proof.
  unfold urgentAt. intros Hev Hu.
  destruct (Hev x) as (_ & _ & _ & [Hc|[_ Hc]]); rewrite Hc; [done|].
  unfold raised. by rewrite Hu.
Qed.

Lemma urgentAt_kept FE FC FR h h' x :
  evolves FE FC FR h h' -> ~ FC x -> urgentAt h' x -> urgentAt h x.
Proof.
  unfold urgentAt. intros Hev Hx Hu.
  destruct (Hev x) as (_ & _ & _ & [Hc|[Hf _]]); [|done].
  by rewrite <- Hc.
Qed.

Lemma upward_all h x rest :
  upward h (x :: rest) -> urgentAt h x -> Forall (urgentAt h) (x :: rest).
Proof.
  revert x. induction rest as [|y rest IH]; intros x [Hstep Hup] Hx.
  - by constructor.
  - constructor; [done|]. apply IH; [done|]. by apply Hstep.
Qed.

Lemma all_upward h path : Forall (urgentAt h) path -> upward h path.
Proof.
  induction 1 as [|x rest Hx Hrest IH]; [done|]. split; [|done].
  intros y Hy _. destruct rest as [|z rest]; [done|].
  injection Hy as <-. by inversion Hrest.
Qed.

Lemma upward_evolves FE FC FR h h' path :
  evolves FE FC FR h h' -> (forall x, x ∈ path -> ~ FC x) ->
  upward h path -> upward h' path.
Proof.
  intros Hev. induction path as [|x rest IH]; intros Hfc Hup; [done|].
  destruct Hup as [Hstep Hup]. split.
  - intros y Hy Hx. eapply urgentAt_evolves; [exact Hev|].
    apply Hstep; [done|]. eapply urgentAt_kept; [exact Hev| |done].
    apply Hfc. apply elem_of_cons. by left.
  - apply IH; [|done]. intros z Hz. apply Hfc. apply elem_of_cons.
    by right.
Qed.

Lemma raised_render : render <> NoWork -> raised render = render.
Proof. unfold raised. by destruct (lessUrgent render render). Qed.

Lemma lessUrgent_render :
  render <> NoWork -> lessUrgent render render = false.
Proof.
  intros Hr. unfold lessUrgent.
  rewrite (proj2 (Z.eqb_neq _ _) Hr), Z.ltb_irrefl. done.
Qed.

(** One conditional write of a child expiration time. *)
Lemma raise_childExpirationTime_at h a :
  evolves nowhere (eq a) nowhere h
    (if lessUrgent (childExpirationTime (h !!! a)) render
     then write_childExpirationTime a render h else h).
Proof.
  destruct (lessUrgent _ render) eqn:Ha; [|apply evolves_refl].
  apply (evolves_write_childExpirationTime _ a Ha).
Qed.

Lemma raise_expirationTime_at h a :
  evolves (eq a) nowhere nowhere h
    (if lessUrgent (expirationTime (h !!! a)) render
     then write_expirationTime a render h else h).
Proof.
  destruct (lessUrgent _ render) eqn:Ha; [|apply evolves_refl].
  apply (evolves_write_expirationTime _ a Ha).
Qed.

Lemma raise_expirationTime_value h a :
  expirationTime
    ((if lessUrgent (expirationTime (h !!! a)) render
      then write_expirationTime a render h else h) !!! a)
  = raised (expirationTime (h !!! a)).
Proof.
  unfold raised. destruct (lessUrgent _ render) eqn:Ha; [|done].
  rewrite lookup_write_expirationTime. by rewrite decide_True.
Qed.

(** The first step of the loop over the ancestors, at [y]: the store
    [h2] with which the loop goes on to [return_ y], or the break. *)
Lemma scheduleAncestors_step fuel h y :
  exists h2,
    evolves nowhere (onOrAlt h [y]) nowhere h h2 /\
    (scheduleAncestors (S fuel) render h (Some y)
     = scheduleAncestors fuel render h2 (return_ (h2 !!! y)) \/
     scheduleAncestors (S fuel) render h (Some y) = Some h /\ h2 = h /\
     urgentAt h y) /\
    (render <> NoWork -> urgentAt h2 y).
Proof.
  cbn [scheduleAncestors].
  destruct (lessUrgent (childExpirationTime (h !!! y)) render) eqn:Hy.
  - assert (Hev1 : evolves nowhere (onOrAlt h [y]) nowhere
                           h (write_childExpirationTime y render h)).
    { eapply evolves_weaken;
        [| | |apply (evolves_write_childExpirationTime h y Hy)];
        try done.
      intros x <-. left. by apply list_elem_of_singleton. }
    assert (Hev2 : evolves nowhere (onOrAlt h [y]) nowhere
              (write_childExpirationTime y render h)
              match alternate (h !!! y) with
              | Some a =>
                if lessUrgent
                     (childExpirationTime
                        (write_childExpirationTime y render h !!! a))
                     render
                then write_childExpirationTime a render
                       (write_childExpirationTime y render h)
                else write_childExpirationTime y render h
              | None => write_childExpirationTime y render h
              end).
    { destruct (alternate (h !!! y)) as [a|] eqn:Ha;
        [|apply evolves_refl].
      eapply evolves_weaken;
        [| | |apply raise_childExpirationTime_at]; try done.
      intros x <-. right. exists y.
      split; [by apply list_elem_of_singleton|done]. }
    eexists. split; [eapply evolves_trans; [exact Hev1|exact Hev2]|].
    split; [by left|].
    intros Hr. eapply urgentAt_evolves; [exact Hev2|].
    unfold urgentAt. rewrite lookup_write_childExpirationTime.
    rewrite decide_True by done. cbn. by apply lessUrgent_render.
  - destruct (alternate (h !!! y)) as [a|] eqn:Ha.
    + destruct (lessUrgent (childExpirationTime (h !!! a)) render) eqn:Hla.
      * assert (Hev : evolves nowhere (onOrAlt h [y]) nowhere
                              h (write_childExpirationTime a render h)).
        { eapply evolves_weaken;
            [| | |apply (evolves_write_childExpirationTime h a Hla)];
            try done.
          intros x <-. right. exists y.
          split; [by apply list_elem_of_singleton|done]. }
        eexists. split; [exact Hev|]. split; [by left|].
        intros _. by eapply urgentAt_evolves; [exact Hev|].
      * exists h. split; [apply evolves_refl|]. split; [by right|done].
    + exists h. split; [apply evolves_refl|]. split; [by right|done].
Qed.

Lemma scheduleAncestors_chain path :
  forall h node fuel,
    chain h node path -> (List.length path <= fuel)%nat ->
    exists h',
      scheduleAncestors fuel render h node = Some h' /\
      evolves nowhere (onOrAlt h path) nowhere h h' /\
      (render <> NoWork -> upward h path -> NoDup path ->
       alternatesOutside h path -> Forall (urgentAt h') path).
Proof.
  induction path as [|y rest IH]; intros h node fuel Hch Hlen.
  - cbn in Hch. subst node. exists h.
    split; [by destruct fuel|]. split; [apply evolves_refl|done].
  - destruct Hch as [-> Hch].
    destruct fuel as [|fuel]; [cbn in Hlen; lia|].
    cbn [List.length] in Hlen.
    destruct (scheduleAncestors_step fuel h y)
      as (h2 & Hev & [Heq|(Heq & -> & Hu)] & Hurg).
    + rewrite Heq.
      assert (Hret : return_ (h2 !!! y) = return_ (h !!! y)).
      { by destruct (Hev y) as (_ & [Hr|[]] & _). }
      rewrite Hret.
      destruct (IH h2 (return_ (h !!! y)) fuel) as (h' & Hrun & Hev' & Hup');
        [eapply chain_evolves; [exact Hev|by intros x _ []|done]|lia|].
      exists h'. split; [done|]. split.
      * eapply evolves_trans.
        -- eapply evolves_weaken; [| | |exact Hev]; try done.
           intros x. apply onOrAlt_mono. intros z Hz.
           apply list_elem_of_singleton in Hz as ->.
           apply elem_of_cons. by left.
        -- eapply evolves_weaken; [| | |exact Hev']; try done.
           intros x Hx. eapply onOrAlt_evolves in Hx; [|exact Hev].
           revert Hx. apply onOrAlt_mono. intros z Hz.
           apply elem_of_cons. by right.
      * intros Hr Hupw Hnd Halt.
        apply NoDup_cons in Hnd as [Hy Hnd].
        constructor.
        -- eapply urgentAt_evolves; [exact Hev'|]. by apply Hurg.
        -- apply Hup'; try done.
           ++ eapply upward_evolves; [exact Hev| |apply Hupw].
              intros x Hx [Hin|(z & Hz & Ha)].
              ** apply list_elem_of_singleton in Hin as ->. done.
              ** apply list_elem_of_singleton in Hz as ->.
                 apply (Halt y x); [apply elem_of_cons; by left|done|].
                 apply elem_of_cons. by right.
           ++ eapply alternatesOutside_evolves; [exact Hev|].
              eapply alternatesOutside_mono; [|exact Halt].
              intros z Hz. apply elem_of_cons. by right.
    + exists h. split; [done|]. split; [apply evolves_refl|].
      intros _ Hupw _ _. by apply upward_all.
Qed.

(** Once raised, an expiration time stays as it is. *)
Lemma raised_kept FE FC FR (h h1 h2 : gmap ptr Fiber) x :
  expirationTime (h1 !!! x) = raised (expirationTime (h !!! x)) ->
  evolves FE FC FR h1 h2 ->
  expirationTime (h2 !!! x) = raised (expirationTime (h !!! x)).
Proof.
  intros H1 Hev. destruct (Hev x) as (_ & _ & [He|[_ He]] & _).
  - congruence.
  - rewrite He, H1. apply raised_idem.
Qed.

Lemma raised_after FE FC FR (h h1 h2 : gmap ptr Fiber) x :
  evolves FE FC FR h h1 ->
  expirationTime (h2 !!! x) = raised (expirationTime (h1 !!! x)) ->
  expirationTime (h2 !!! x) = raised (expirationTime (h !!! x)).
Proof.
  intros Hev H2. destruct (Hev x) as (_ & _ & [He|[_ He]] & _).
  - congruence.
  - rewrite H2, He. apply raised_idem.
Qed.

(** "Schedule an update on this fiber", on a fiber whose ancestors
    are [path]. *)
Lemma scheduleFiber_chain h fiber path fuel :
  chain h (return_ (h !!! fiber)) path ->
  (List.length path <= fuel)%nat ->
  exists h',
    scheduleFiber fuel render h fiber = Some h' /\
    evolves (onOrAlt h [fiber]) (onOrAlt h path) nowhere h h' /\
    expirationTime (h' !!! fiber)
    = raised (expirationTime (h !!! fiber)) /\
    (forall a, alternate (h !!! fiber) = Some a ->
               expirationTime (h' !!! a)
               = raised (expirationTime (h !!! a))) /\
    (render <> NoWork -> upward h path -> NoDup path ->
     alternatesOutside h path -> Forall (urgentAt h') path).
Proof.
  intros Hch Hlen. unfold scheduleFiber.
  set (h1 := if lessUrgent (expirationTime (h !!! fiber)) render
             then write_expirationTime fiber render h else h).
  assert (Hev1 : evolves (onOrAlt h [fiber]) nowhere nowhere h h1).
  { eapply evolves_weaken; [| | |apply raise_expirationTime_at]; try done.
    intros x <-. left. by apply list_elem_of_singleton. }
  assert (Halt1 : alternate (h1 !!! fiber) = alternate (h !!! fiber)).
  { apply shape_alternate, (evolves_shape _ _ _ _ _ fiber Hev1). }
  rewrite Halt1.
  set (h2 := match alternate (h !!! fiber) with
             | Some a => if lessUrgent (expirationTime (h1 !!! a)) render
                         then write_expirationTime a render h1 else h1
             | None => h1
             end).
  assert (Hev2 : evolves (onOrAlt h [fiber]) nowhere nowhere h1 h2).
  { subst h2. destruct (alternate (h !!! fiber)) as [a|] eqn:Ha;
      [|apply evolves_refl].
    eapply evolves_weaken; [| | |apply raise_expirationTime_at]; try done.
    intros x <-. right. exists fiber.
    split; [by apply list_elem_of_singleton|done]. }
  pose proof (evolves_trans _ _ _ _ _ _ Hev1 Hev2) as Hev12.
  assert (Hret : return_ (h2 !!! fiber) = return_ (h !!! fiber)).
  { by destruct (Hev12 fiber) as (_ & [Hr|[]] & _). }
  rewrite Hret.
  destruct (scheduleAncestors_chain path h2 (return_ (h !!! fiber)) fuel)
    as (h' & Hrun & Hev3 & Hup); [|done|].
  { eapply chain_evolves; [exact Hev12| |done]. by intros x _ []. }
  assert (Hev3' : evolves (onOrAlt h [fiber]) (onOrAlt h path) nowhere h2 h').
  { eapply evolves_weaken; [| | |exact Hev3]; try done.
    intros x Hx. by eapply onOrAlt_evolves in Hx; [|exact Hev12]. }
  exists h'. split; [done|]. split; [|split; [|split]].
  - eapply evolves_trans; [|exact Hev3'].
    eapply evolves_weaken; [| | |exact Hev12]; done.
  - eapply raised_kept; [|exact Hev3'].
    eapply raised_kept; [|exact Hev2].
    apply raise_expirationTime_value.
  - intros a Ha. eapply raised_kept; [|exact Hev3'].
    eapply raised_after; [exact Hev1|].
    subst h2. rewrite Ha. apply raise_expirationTime_value.
  - intros Hr Hupw Hnd Haltout. apply Hup; try done.
    + eapply upward_evolves; [exact Hev12| |done].
      by intros x Hx [].
    + eapply alternatesOutside_evolves; [exact Hev12|done].
Qed.

(** [p] has a dependency on the context with a changed bit. *)
Definition matched (h : gmap ptr Fiber) (p : ptr) : bool :=
  existsb (dependencyMatches ctx changedBits)
          (firstContextDependency (h !!! p)).

Lemma visitDependencies_chain deps :
  forall h p path fuel,
    chain h (return_ (h !!! p)) path ->
    (List.length path <= fuel)%nat ->
    exists h',
      visitDependencies fuel ctx changedBits render p deps h = Some h' /\
      (existsb (dependencyMatches ctx changedBits) deps = false ->
       h' = h) /\
      evolves (onOrAlt h [p]) (onOrAlt h path) nowhere h h' /\
      (existsb (dependencyMatches ctx changedBits) deps = true ->
       expirationTime (h' !!! p) = raised (expirationTime (h !!! p)) /\
       (forall a, alternate (h !!! p) = Some a ->
                  expirationTime (h' !!! a)
                  = raised (expirationTime (h !!! a))) /\
       (render <> NoWork -> upward h path -> NoDup path ->
        alternatesOutside h path -> Forall (urgentAt h') path)).
Proof.
  induction deps as [|d deps IH]; intros h p path fuel Hch Hlen.
  - exists h. split; [done|]. split; [done|].
    split; [apply evolves_refl|done].
  - cbn [visitDependencies existsb].
    destruct (dependencyMatches ctx changedBits d) eqn:Hd.
    + destruct (scheduleFiber_chain h p path fuel Hch Hlen)
        as (h1 & Hrun1 & Hev1 & He1 & Ha1 & Hu1).
      rewrite Hrun1. cbn [mbind option_bind].
      assert (Hret : return_ (h1 !!! p) = return_ (h !!! p)).
      { by destruct (Hev1 p) as (_ & [Hr|[]] & _). }
      destruct (IH h1 p path fuel) as (h' & Hrun & _ & Hev & _);
        [|done|].
      { rewrite Hret. eapply chain_evolves; [exact Hev1| |done].
        by intros x _ []. }
      assert (Hev' : evolves (onOrAlt h [p]) (onOrAlt h path) nowhere h1 h').
      { eapply evolves_weaken; [| | |exact Hev]; try done;
          intros x Hx; by eapply onOrAlt_evolves in Hx; [|exact Hev1]. }
      exists h'. split; [done|]. split; [done|].
      split; [eapply evolves_trans; [exact Hev1|exact Hev']|].
      intros _. split; [|split].
      * eapply raised_kept; [exact He1|exact Hev'].
      * intros a Ha. eapply raised_kept; [by apply Ha1|exact Hev'].
      * intros Hr Hupw Hnd Halt.
        eapply Forall_impl; [by apply Hu1|].
        intros x Hx. eapply urgentAt_evolves; [exact Hev'|done].
    + cbn [mbind option_bind orb]. by apply IH.
Qed.

Lemma visitStore_chain h p path fuel :
  chain h (return_ (h !!! p)) path ->
  (List.length path <= fuel)%nat ->
  exists h',
    visitStore fuel h p = Some h' /\
    (matched h p = false -> h' = h) /\
    evolves (onOrAlt h [p]) (onOrAlt h path) nowhere h h' /\
    (matched h p = true ->
     expirationTime (h' !!! p) = raised (expirationTime (h !!! p)) /\
     (forall a, alternate (h !!! p) = Some a ->
                expirationTime (h' !!! a)
                = raised (expirationTime (h !!! a))) /\
     (render <> NoWork -> upward h path -> NoDup path ->
      alternatesOutside h path -> Forall (urgentAt h') path)).
Proof. apply visitDependencies_chain. Qed.

(** The fibers that the walk visits, each with its ancestors, nearest
    first; [path] holds the ancestors of the roots of the forest. *)
Fixpoint reached (h : gmap ptr Fiber) (t : forest) (path : list ptr)
    : list (ptr * list ptr) :=
  match t with
  | Leaf => []
  | Node p kids sibs =>
    (p, path)
      :: (if stops h p then [] else reached h kids (p :: path))
      ++ reached h sibs path
  end.

(** The fibers below the roots of the forest. *)
Definition inner (t : forest) : list ptr :=
  match t with
  | Leaf => []
  | Node _ kids sibs => nodes kids ++ nodes sibs
  end.

(** [x] is a visited fiber with a matching dependency, or the
    alternate of one. *)
Definition scheduled (h : gmap ptr Fiber) (t : forest) (path : list ptr)
    (x : ptr) : Prop :=
  exists v pa,
    (v, pa) ∈ reached h t path /\ matched h v = true /\
    (x = v \/ alternate (h !!! v) = Some x).

Lemma reached_nodes h t :
  forall path v pa, (v, pa) ∈ reached h t path ->
    v ∈ nodes t /\ forall x, x ∈ pa -> x ∈ nodes t \/ x ∈ path.
Proof.
  induction t as [|p kids IHk sibs IHs]; intros path v pa Hin;
    [by apply elem_of_nil in Hin|].
  cbn [reached] in Hin.
  apply elem_of_cons in Hin as [[= -> ->]|Hin].
  { split; [apply elem_of_nodes_head|auto]. }
  apply elem_of_app in Hin as [Hin|Hin].
  - destruct (stops h p); [by apply elem_of_nil in Hin|].
    destruct (IHk _ _ _ Hin) as [Hv Hpa].
    split; [by apply elem_of_nodes_kids|].
    intros x Hx. destruct (Hpa x Hx) as [Hk|Hp].
    + left. by apply elem_of_nodes_kids.
    + apply elem_of_cons in Hp as [->|Hp];
        [left; apply elem_of_nodes_head|by right].
  - destruct (IHs _ _ _ Hin) as [Hv Hpa].
    split; [by apply elem_of_nodes_sibs|].
    intros x Hx. destruct (Hpa x Hx) as [Hk|Hp]; [|by right].
    left. by apply elem_of_nodes_sibs.
Qed.

Lemma reached_evolves FE FC FR h h' t :
  evolves FE FC FR h h' ->
  forall path, reached h' t path = reached h t path.
Proof.
  intros Hev. induction t as [|p kids IHk sibs IHs]; intros path; [done|].
  cbn [reached]. rewrite (stops_evolves _ _ _ _ _ p Hev).
  by rewrite IHk, IHs.
Qed.

Lemma matched_evolves FE FC FR h h' x :
  evolves FE FC FR h h' -> matched h' x = matched h x.
Proof.
  intros Hev. unfold matched.
  by rewrite (shape_dependencies _ _ (evolves_shape _ _ _ _ _ x Hev)).
Qed.

Lemma NoDup_node p kids sibs path :
  NoDup (nodes (Node p kids sibs) ++ path) ->
  NoDup (nodes kids ++ p :: path) /\ NoDup (nodes sibs ++ path) /\
  (p ∉ nodes kids) /\ (p ∉ nodes sibs) /\ (p ∉ path) /\
  (forall x, x ∈ nodes kids -> x ∉ nodes sibs) /\
  (forall x, x ∈ nodes kids -> x ∉ path) /\
  (forall x, x ∈ nodes sibs -> x ∉ path).
Proof.
  cbn [nodes]. rewrite <- app_comm_cons. intros Hnd.
  apply NoDup_cons in Hnd as [Hp Hnd].
  rewrite !not_elem_of_app in Hp. destruct Hp as [[Hpk Hps] Hpp].
  apply NoDup_app in Hnd as (Hks & Hksp & Hpath).
  apply NoDup_app in Hks as (Hk & Hkns & Hs).
  assert (Hkp : forall x, x ∈ nodes kids -> x ∉ path).
  { intros x Hx. apply Hksp, elem_of_app. by left. }
  assert (Hsp : forall x, x ∈ nodes sibs -> x ∉ path).
  { intros x Hx. apply Hksp, elem_of_app. by right. }
  repeat split; try done.
  - apply NoDup_app. split; [done|]. split.
    + intros x Hx. apply not_elem_of_cons. split; [|by apply Hkp].
      by intros ->.
    + by apply NoDup_cons.
  - apply NoDup_app. by repeat split.
Qed.

(** The hypotheses under which the ancestors of every scheduled fiber
    end up urgent: the render time is a real one, alternates lie in
    the other tree, and before the walk an urgent child expiration
    time on a fiber implies one on its parent. *)
Definition summarized (h : gmap ptr Fiber) (t : forest)
    (path : list ptr) : Prop :=
  render <> NoWork /\
  alternatesOutside h (nodes t ++ path) /\
  upward h path /\
  (forall v pa q, (v, pa) ∈ reached h t path -> head pa = Some q ->
                  urgentAt h v -> urgentAt h q).

(** What the recursion over a forest gives when it starts in [h1], a
    store reached from [h], with the effects stated against [h];
    [P] stands for the summary hypothesis of the whole tree. *)
Definition walkedFrom (P : Prop) (h h1 : gmap ptr Fiber) (t : forest)
    (path : list ptr) (h' : gmap ptr Fiber) : Prop :=
  evolves (scheduled h t path) (onOrAlt h (nodes t ++ path))
          (fun x => x ∈ inner t) h1 h' /\
  (forall v pa, (v, pa) ∈ reached h t path ->
     chain h' (return_ (h' !!! v)) pa /\
     (matched h v = true ->
      expirationTime (h' !!! v) = raised (expirationTime (h !!! v)) /\
      (forall a, alternate (h !!! v) = Some a ->
                 expirationTime (h' !!! a)
                 = raised (expirationTime (h !!! a))))) /\
  (P ->
   upward h' path /\
   (forall v pa, (v, pa) ∈ reached h t path -> matched h v = true ->
                 Forall (urgentAt h') pa)).

Definition walked (h : gmap ptr Fiber) (t : forest) (path : list ptr)
    (h' : gmap ptr Fiber) : Prop :=
  walkedFrom (summarized h t path) h h t path h'.

(** Results about the store [h1] move back to an earlier store [h]
    that differs from it outside the forest. *)
Lemma walkedFrom_intro (P : Prop) FE FC FR h h1 t path h' :
  evolves FE FC FR h h1 ->
  (P -> summarized h t path) ->
  (P -> forall x, x ∈ nodes t -> ~ FC x) ->
  (P -> upward h1 path) ->
  walked h1 t path h' -> walkedFrom P h h1 t path h'.
Proof.
  intros Hev HP Hfresh Hupw (Hev' & Hreach & Hsum).
  rewrite (reached_evolves _ _ _ _ _ t Hev path) in Hreach, Hsum.
  split; [|split].
  - eapply evolves_weaken; [| | |exact Hev']; try done.
    + intros x (v & pa & Hin & Hm & Hx).
      rewrite (reached_evolves _ _ _ _ _ t Hev path) in Hin.
      rewrite (matched_evolves _ _ _ _ _ v Hev) in Hm.
      rewrite (shape_alternate _ _ (evolves_shape _ _ _ _ _ v Hev))
        in Hx.
      by exists v, pa.
    + intros x Hx. by eapply onOrAlt_evolves in Hx; [|exact Hev].
  - intros v pa Hin. destruct (Hreach v pa Hin) as [Hch Hm].
    split; [done|]. rewrite (matched_evolves _ _ _ _ _ v Hev) in Hm.
    intros Hmv. destruct (Hm Hmv) as [He Ha]. split.
    + eapply raised_after; [exact Hev|exact He].
    + intros a Haa. eapply raised_after; [exact Hev|]. apply Ha.
      by rewrite (shape_alternate _ _ (evolves_shape _ _ _ _ _ v Hev)).
  - intros HPp. pose proof (Hupw HPp) as Hup1.
    pose proof (Hfresh HPp) as Hfr.
    destruct (HP HPp) as (Hr & Halt & Hup & Hedge).
    destruct Hsum as [Hup' Hurg].
    { split; [done|]. split; [|split].
      - eapply alternatesOutside_evolves; [exact Hev|done].
      - done.
      - intros v pa q Hin Hq Hv.
        rewrite (reached_evolves _ _ _ _ _ t Hev path) in Hin.
        destruct (reached_nodes _ _ _ _ _ Hin) as [Hvn _].
        eapply urgentAt_evolves; [exact Hev|].
        apply (Hedge v pa q Hin Hq).
        eapply urgentAt_kept; [exact Hev| |exact Hv].
        by apply Hfr. }
    split; [done|]. intros v pa Hin Hm. apply (Hurg v pa Hin).
    by rewrite (matched_evolves _ _ _ _ _ v Hev).
Qed.

Lemma summarized_kids h p kids sibs path :
  stops h p = false ->
  summarized h (Node p kids sibs) path ->
  summarized h kids (p :: path).
Proof.
  intros Hstop (Hr & Halt & Hup & Hedge). split; [done|].
  split; [|split].
  - eapply alternatesOutside_mono; [|exact Halt].
    intros y Hy. apply elem_of_app in Hy as [Hy|Hy].
    + apply elem_of_app. left. by apply elem_of_nodes_kids.
    + apply elem_of_cons in Hy as [->|Hy]; apply elem_of_app;
        [left; apply elem_of_nodes_head|by right].
  - split; [|done]. intros y Hy. apply (Hedge p path y); [|done].
    cbn [reached]. apply elem_of_cons. by left.
  - intros v pa q Hin. apply Hedge. cbn [reached]. rewrite Hstop.
    apply elem_of_cons. right. apply elem_of_app. by left.
Qed.

Lemma summarized_sibs h p kids sibs path :
  summarized h (Node p kids sibs) path -> summarized h sibs path.
Proof.
  intros (Hr & Halt & Hup & Hedge). split; [done|].
  split; [|split; [done|]].
  - eapply alternatesOutside_mono; [|exact Halt].
    intros y Hy. apply elem_of_app in Hy as [Hy|Hy]; apply elem_of_app;
      [left; by apply elem_of_nodes_sibs|by right].
  - intros v pa q Hin. apply Hedge. cbn [reached].
    apply elem_of_cons. right. apply elem_of_app. by right.
Qed.

Lemma scheduled_head h p kids sibs path x :
  matched h p = true -> onOrAlt h [p] x ->
  scheduled h (Node p kids sibs) path x.
Proof.
  intros Hm Hx. exists p, path.
  split; [cbn [reached]; apply elem_of_cons; by left|]. split; [done|].
  destruct Hx as [Hx|(y & Hy & Ha)].
  - left. by apply list_elem_of_singleton.
  - right. by apply list_elem_of_singleton in Hy as ->.
Qed.

Lemma scheduled_kids h p kids sibs path x :
  stops h p = false -> scheduled h kids (p :: path) x ->
  scheduled h (Node p kids sibs) path x.
Proof.
  intros Hstop (v & pa & Hin & Hm & Hx). exists v, pa.
  split; [|done]. cbn [reached]. rewrite Hstop.
  apply elem_of_cons. right. apply elem_of_app. by left.
Qed.

Lemma scheduled_sibs h p kids sibs path x :
  scheduled h sibs path x -> scheduled h (Node p kids sibs) path x.
Proof.
  intros (v & pa & Hin & Hm & Hx). exists v, pa.
  split; [|done]. cbn [reached].
  apply elem_of_cons. right. apply elem_of_app. by right.
Qed.

Lemma inner_nodes t x : x ∈ inner t -> x ∈ nodes t.
Proof.
  destruct t as [|p kids sibs]; [done|]. cbn [inner nodes].
  intros Hx. apply elem_of_cons. by right.
Qed.

(** The visit of [p], against the whole forest. *)
Lemma visitStore_walked h p kids sibs path fuel :
  chain h (return_ (h !!! p)) path -> NoDup path ->
  (List.length path <= fuel)%nat ->
  exists h1,
    visitStore fuel h p = Some h1 /\
    evolves (scheduled h (Node p kids sibs) path) (onOrAlt h path)
            nowhere h h1 /\
    (matched h p = true ->
     expirationTime (h1 !!! p) = raised (expirationTime (h !!! p)) /\
     (forall a, alternate (h !!! p) = Some a ->
                expirationTime (h1 !!! a)
                = raised (expirationTime (h !!! a)))) /\
    (render <> NoWork -> upward h path -> alternatesOutside h path ->
     upward h1 path /\
     (matched h p = true -> Forall (urgentAt h1) path)).
Proof.
  intros Hch Hnd Hlen.
  destruct (visitStore_chain h p path fuel Hch Hlen)
    as (h1 & Hrun & Hsame & Hev & Hm).
  exists h1. split; [done|].
  destruct (matched h p) eqn:Hmp.
  - destruct (Hm eq_refl) as (He & Ha & Hu). split; [|split; [done|]].
    + eapply evolves_weaken; [| | |exact Hev]; try done.
      intros x Hx. by apply scheduled_head.
    + intros Hr Hup Halt. split; [apply all_upward|]; auto.
  - rewrite (Hsame eq_refl). split; [apply evolves_refl|].
    split; [done|]. intros _ Hup _. by split.
Qed.

Lemma length_nodes p kids sibs :
  List.length (nodes (Node p kids sibs))
  = S (List.length (nodes kids) + List.length (nodes sibs)).
Proof. cbn [nodes List.length]. by rewrite length_app. Qed.

(** The statement proved by induction on the forest: on a forest laid
    out in [h], below the ancestors [path], the recursion has a
    result when the fuel covers the depth. *)
Definition walks (t : forest) : Prop :=
  forall h path F,
    lay h t -> NoDup (nodes t ++ path) ->
    (forall p, first t = Some p -> chain h (return_ (h !!! p)) path) ->
    (List.length path + List.length (nodes t) <= F)%nat ->
    exists h', walkForest F t h = Some h' /\ walked h t path h'.

(** The facts about the reached fibers [K] of a part of the forest. *)
Definition reachedFacts (P : Prop) (h h' : gmap ptr Fiber)
    (K : list (ptr * list ptr)) (path : list ptr) : Prop :=
  (forall v pa, (v, pa) ∈ K ->
     chain h' (return_ (h' !!! v)) pa /\
     (matched h v = true ->
      expirationTime (h' !!! v) = raised (expirationTime (h !!! v)) /\
      (forall a, alternate (h !!! v) = Some a ->
                 expirationTime (h' !!! a)
                 = raised (expirationTime (h !!! a))))) /\
  (P ->
   upward h' path /\
   (forall v pa, (v, pa) ∈ K -> matched h v = true ->
                 Forall (urgentAt h') pa)).

Lemma reachedFacts_nil (P : Prop) h h' path :
  (P -> upward h' path) -> reachedFacts P h h' [] path.
Proof.
  intros Hup. split.
  - intros v pa Hin. by apply elem_of_nil in Hin.
  - intros HP. split; [auto|]. intros v pa Hin.
    by apply elem_of_nil in Hin.
Qed.

(** The children of [p], from the store [h1] left by its visit. *)
Lemma walk_kids h h1 p kids sibs path F :
  walks kids ->
  lay h (Node p kids sibs) ->
  NoDup (nodes (Node p kids sibs) ++ path) ->
  chain h (return_ (h !!! p)) path ->
  (List.length path + List.length (nodes (Node p kids sibs)) <= F)%nat ->
  evolves (scheduled h (Node p kids sibs) path) (onOrAlt h path)
          nowhere h h1 ->
  (summarized h (Node p kids sibs) path -> upward h1 path) ->
  exists h2,
    (if stops h p then Some h1
     else match kids with
          | Node c _ _ =>
            walkForest F kids (write_return c (Some p) h1)
          | Leaf => Some h1
          end) = Some h2 /\
    evolves (scheduled h (Node p kids sibs) path)
            (onOrAlt h (nodes kids ++ p :: path))
            (fun x => x ∈ nodes kids) h1 h2 /\
    reachedFacts (summarized h (Node p kids sibs) path) h h2
      (if stops h p then [] else reached h kids (p :: path)) path.
Proof.
  intros IHk Hlay Hnd Hch Hfuel Hev1 Hup1.
  destruct Hlay as (Hchild & Hsib & Hlk & Hls).
  destruct (NoDup_node _ _ _ _ Hnd)
    as (Hndk & Hnds & Hpk & Hps & Hpp & Hks & Hkp & Hsp).
  destruct (stops h p) eqn:Hstop.
  { exists h1. split; [done|]. split; [apply evolves_refl|].
    by apply reachedFacts_nil. }
  destruct kids as [|c ck cs].
  { exists h1. split; [done|]. split; [apply evolves_refl|].
    by apply reachedFacts_nil. }
  set (kids := Node c ck cs) in *.
  set (h1' := write_return c (Some p) h1).
  assert (Hc : c ∈ nodes kids) by apply elem_of_nodes_head.
  assert (Hev1' : evolves (scheduled h (Node p kids sibs) path)
                          (onOrAlt h path) (eq c) h h1').
  { eapply evolves_trans.
    - eapply evolves_weaken; [| | |exact Hev1]; done.
    - eapply evolves_weaken; [| | |apply evolves_write_return]; done. }
  assert (Hretp : return_ (h1' !!! p) = return_ (h !!! p)).
  { destruct (Hev1' p) as (_ & [Hr|Hr] & _); [done|]. by subst c. }
  destruct (IHk h1' (p :: path) F) as (h2 & Hrun2 & Hw2).
  { eapply lay_evolves; [exact Hev1'|done]. }
  { done. }
  { intros c' [= <-]. split.
    - subst h1'. rewrite lookup_write_return. by rewrite decide_True.
    - rewrite Hretp. eapply chain_evolves; [exact Hev1'| |done].
      intros x Hx <-. by apply (Hkp c). }
  { rewrite length_nodes in Hfuel. cbn [List.length]. lia. }
  eapply (walkedFrom_intro (summarized h (Node p kids sibs) path))
    in Hw2; [|exact Hev1'|by apply summarized_kids| |].
  2:{ intros (_ & Halt & _) x Hx [Hin|(y & Hy & Ha)].
      - by apply (Hkp x).
      - apply (Halt y x); [apply elem_of_app; by right|done|].
        apply elem_of_app. left. by apply elem_of_nodes_kids. }
  2:{ intros HS. pose proof (Hup1 HS) as Hup.
      destruct HS as (Hr & Halt & _ & Hedge). split.
      - intros y Hy Hp. eapply urgentAt_evolves; [exact Hev1'|].
        apply (Hedge p path y); [cbn [reached]; apply elem_of_cons;
                                 by left|done|].
        eapply urgentAt_kept; [exact Hev1'| |exact Hp].
        intros [Hin|(z & Hz & Ha)]; [done|].
        apply (Halt z p); [apply elem_of_app; by right|done|].
        apply elem_of_app. left. apply elem_of_nodes_head.
      - eapply upward_evolves; [apply evolves_write_return| |exact Hup].
        by intros x _ []. }
  destruct Hw2 as (Hev2 & Hreach2 & Hsum2).
  exists h2. split; [done|]. split; [|split].
  - eapply evolves_trans.
    + eapply evolves_weaken; [| | |apply (evolves_write_return h1 c)];
        try done.
      by intros x <-.
    + eapply evolves_weaken; [| | |exact Hev2]; try done.
      * intros x. by apply scheduled_kids.
      * intros x. apply inner_nodes.
  - done.
  - intros HS. destruct (Hsum2 HS) as [[_ Hup2] Hurg2]. by split.
Qed.

(** The later siblings of [p], from the store [h2] left by its
    subtree. *)
Lemma walk_sibs h h2 p kids sibs path F :
  walks sibs ->
  lay h (Node p kids sibs) ->
  NoDup (nodes (Node p kids sibs) ++ path) ->
  chain h (return_ (h !!! p)) path ->
  (List.length path + List.length (nodes (Node p kids sibs)) <= F)%nat ->
  evolves (scheduled h (Node p kids sibs) path)
          (onOrAlt h (nodes kids ++ p :: path))
          (fun x => x ∈ nodes kids) h h2 ->
  (summarized h (Node p kids sibs) path -> upward h2 path) ->
  exists h',
    match sibs with
    | Node s _ _ =>
      walkForest F sibs (write_return s (return_ (h2 !!! p)) h2)
    | Leaf => Some h2
    end = Some h' /\
    evolves (scheduled h (Node p kids sibs) path)
            (onOrAlt h (nodes sibs ++ path))
            (fun x => x ∈ nodes sibs) h2 h' /\
    reachedFacts (summarized h (Node p kids sibs) path) h h'
                 (reached h sibs path) path.
Proof.
  intros IHs Hlay Hnd Hch Hfuel Hev2 Hup2.
  destruct Hlay as (Hchild & Hsib & Hlk & Hls).
  destruct (NoDup_node _ _ _ _ Hnd)
    as (Hndk & Hnds & Hpk & Hps & Hpp & Hks & Hkp & Hsp).
  destruct sibs as [|s sk ss].
  { exists h2. split; [done|]. split; [apply evolves_refl|].
    by apply reachedFacts_nil. }
  set (sibs := Node s sk ss) in *.
  assert (Hs : s ∈ nodes sibs) by apply elem_of_nodes_head.
  assert (Hretp : return_ (h2 !!! p) = return_ (h !!! p)).
  { by destruct (Hev2 p) as (_ & [Hr|Hr] & _). }
  rewrite Hretp.
  set (h3 := write_return s (return_ (h !!! p)) h2).
  assert (Hev3 : evolves (scheduled h (Node p kids sibs) path)
                         (onOrAlt h (nodes kids ++ p :: path))
                         (fun x => x ∈ nodes kids \/ x = s) h h3).
  { eapply evolves_trans.
    - eapply evolves_weaken; [| | |exact Hev2]; try done.
      intros x Hx. by left.
    - eapply evolves_weaken; [| | |apply evolves_write_return];
        try done.
      intros x <-. by right. }
  destruct (IHs h3 path F) as (h' & Hrun & Hw).
  { eapply lay_evolves; [exact Hev3|done]. }
  { done. }
  { intros s' [= <-]. subst h3. rewrite lookup_write_return.
    rewrite decide_True by done. cbn.
    eapply chain_evolves; [exact Hev3| |done].
    intros x Hx [Hk| ->]; [by apply (Hkp x)|by apply (Hsp s)]. }
  { rewrite length_nodes in Hfuel. lia. }
  eapply (walkedFrom_intro (summarized h (Node p kids sibs) path))
    in Hw; [|exact Hev3|by apply summarized_sibs| |].
  2:{ intros (_ & Halt & _) x Hx [Hin|(y & Hy & Ha)].
      - apply elem_of_app in Hin as [Hin|Hin]; [by apply (Hks x)|].
        apply elem_of_cons in Hin as [->|Hin]; [done|by apply (Hsp x)].
      - apply (Halt y x); [|done|].
        + apply elem_of_app in Hy as [Hy|Hy].
          * apply elem_of_app. left. by apply elem_of_nodes_kids.
          * apply elem_of_cons in Hy as [->|Hy]; apply elem_of_app;
              [left; apply elem_of_nodes_head|by right].
        + apply elem_of_app. left. by apply elem_of_nodes_sibs. }
  2:{ intros HS.
      eapply upward_evolves; [apply evolves_write_return| |by apply Hup2].
      by intros x _ []. }
  destruct Hw as (Hev' & Hreach & Hsum).
  exists h'. split; [done|]. split; [|by split].
  eapply evolves_trans.
  - eapply evolves_weaken; [| | |apply (evolves_write_return h2 s)];
      try done.
    by intros x <-.
  - eapply evolves_weaken; [| | |exact Hev']; try done.
    + intros x. by apply scheduled_sibs.
    + intros x. apply inner_nodes.
Qed.

Lemma walkForest_walks t : walks t.
Proof.
  induction t as [|p kids IHk sibs IHs];
    intros h path F Hlay Hnd Hch Hfuel.
  { exists h. split; [done|]. split; [apply evolves_refl|].
    split.
    - intros v pa Hin. by apply elem_of_nil in Hin.
    - intros (_ & _ & Hup & _). split; [done|].
      intros v pa Hin. by apply elem_of_nil in Hin. }
  specialize (Hch p eq_refl).
  destruct (NoDup_node _ _ _ _ Hnd)
    as (Hndk & Hnds & Hpk & Hps & Hpp & Hks & Hkp & Hsp).
  assert (Hndp : NoDup path).
  { apply NoDup_app in Hnds. tauto. }
  (* the visit of [p] *)
  destruct (visitStore_walked h p kids sibs path F Hch Hndp)
    as (h1 & Hrun1 & Hev1 & Hm1 & Hu1);
    [rewrite length_nodes in Hfuel; lia|].
  assert (Haltp : summarized h (Node p kids sibs) path ->
                  alternatesOutside h path).
  { intros (_ & Halt & _). eapply alternatesOutside_mono; [|exact Halt].
    intros y Hy. apply elem_of_app. by right. }
  assert (Hup1 : summarized h (Node p kids sibs) path -> upward h1 path).
  { intros HS. pose proof (Haltp HS) as Halt.
    destruct HS as (Hr & _ & Hup & _). by apply Hu1. }
  (* its children *)
  destruct (walk_kids h h1 p kids sibs path F IHk Hlay Hnd Hch Hfuel
                      Hev1 Hup1)
    as (h2 & Hrun2 & Hev2 & Hreach2 & Hsum2).
  assert (Hev12 : evolves (scheduled h (Node p kids sibs) path)
                          (onOrAlt h (nodes kids ++ p :: path))
                          (fun x => x ∈ nodes kids) h h2).
  { eapply evolves_trans; [|exact Hev2].
    eapply evolves_weaken; [| | |exact Hev1]; try done.
    intros x. apply onOrAlt_mono. intros y Hy.
    apply elem_of_app. right. apply elem_of_cons. by right. }
  (* its later siblings *)
  destruct (walk_sibs h h2 p kids sibs path F IHs Hlay Hnd Hch Hfuel
                      Hev12 (fun HS => proj1 (Hsum2 HS)))
    as (h' & Hrun3 & Hev3 & Hreach3 & Hsum3).
  exists h'. split.
  { cbn [walkForest]. rewrite Hrun1. cbn [mbind option_bind].
    rewrite Hrun2. cbn [mbind option_bind]. exact Hrun3. }
  assert (Hev23 : evolves (scheduled h (Node p kids sibs) path)
                          (onOrAlt h (nodes (Node p kids sibs) ++ path))
                          (fun x => x ∈ inner (Node p kids sibs)) h2 h').
  { eapply evolves_weaken; [| | |exact Hev3]; try done.
    - intros x. apply onOrAlt_mono. intros y Hy.
      apply elem_of_app in Hy as [Hy|Hy]; apply elem_of_app;
        [left; by apply elem_of_nodes_sibs|by right].
    - intros x Hx. cbn [inner]. apply elem_of_app. by right. }
  assert (Hev13 : evolves (scheduled h (Node p kids sibs) path)
                          (onOrAlt h (nodes (Node p kids sibs) ++ path))
                          (fun x => x ∈ inner (Node p kids sibs)) h1 h').
  { eapply evolves_trans; [|exact Hev23].
    eapply evolves_weaken; [| | |exact Hev2]; try done.
    - intros x. apply onOrAlt_mono. intros y Hy.
      apply elem_of_app in Hy as [Hy|Hy].
      + apply elem_of_app. left. by apply elem_of_nodes_kids.
      + apply elem_of_cons in Hy as [->|Hy]; apply elem_of_app;
          [left; apply elem_of_nodes_head|by right].
    - intros x Hx. cbn [inner]. apply elem_of_app. by left. }
  assert (Hev03 : evolves (scheduled h (Node p kids sibs) path)
                          (onOrAlt h (nodes (Node p kids sibs) ++ path))
                          (fun x => x ∈ inner (Node p kids sibs)) h h').
  { eapply evolves_trans; [|exact Hev13].
    eapply evolves_weaken; [| | |exact Hev1]; try done.
    intros x. apply onOrAlt_mono. intros y Hy.
    apply elem_of_app. by right. }
  split; [exact Hev03|]. split.
  - (* the reached fibers *)
    intros v pa Hin. cbn [reached] in Hin.
    apply elem_of_cons in Hin as [[= -> ->]|Hin];
      [|apply elem_of_app in Hin as [Hin|Hin]].
    + split.
      * assert (Hret : return_ (h' !!! p) = return_ (h !!! p)).
        { destruct (Hev03 p) as (_ & [Hr|Hr] & _); [done|].
          cbn [inner] in Hr. apply elem_of_app in Hr as [Hr|Hr]; done. }
        rewrite Hret. eapply chain_evolves; [exact Hev03| |done].
        intros x Hx Hi. cbn [inner] in Hi.
        apply elem_of_app in Hi as [Hi|Hi];
          [by apply (Hkp x)|by apply (Hsp x)].
      * intros Hmp. destruct (Hm1 Hmp) as [He Ha]. split.
        -- eapply raised_kept; [exact He|exact Hev13].
        -- intros a Haa. eapply raised_kept; [by apply Ha|exact Hev13].
    + destruct (Hreach2 v pa Hin) as [Hch2 Hm2].
      assert (Hv : v ∈ nodes kids /\
                   forall x, x ∈ pa -> x ∈ nodes kids \/ x ∈ p :: path).
      { destruct (stops h p); [by apply elem_of_nil in Hin|].
        by apply (reached_nodes h kids (p :: path)). }
      destruct Hv as [Hvk Hpa]. split.
      * assert (Hret : return_ (h' !!! v) = return_ (h2 !!! v)).
        { destruct (Hev3 v) as (_ & [Hr|Hr] & _); [done|].
          by destruct (Hks v). }
        rewrite Hret. eapply chain_evolves; [exact Hev3| |done].
        intros x Hx Hxs. destruct (Hpa x Hx) as [Hk|Hp].
        -- by apply (Hks x).
        -- apply elem_of_cons in Hp as [->|Hp];
             [done|by apply (Hsp x)].
      * intros Hmv. destruct (Hm2 Hmv) as [He Ha]. split.
        -- eapply raised_kept; [exact He|exact Hev23].
        -- intros a Haa. eapply raised_kept; [by apply Ha|exact Hev23].
    + by apply Hreach3.
  - (* the ancestors of the scheduled fibers *)
    intros HS. pose proof (Haltp HS) as Halt.
    destruct (Hsum3 HS) as [Hup3 Hurg3].
    destruct (Hsum2 HS) as [_ Hurg2].
    split; [done|].
    intros v pa Hin Hmv. cbn [reached] in Hin.
    apply elem_of_cons in Hin as [[= -> ->]|Hin];
      [|apply elem_of_app in Hin as [Hin|Hin]].
    + destruct HS as (Hr & _ & Hup & _).
      eapply Forall_impl; [by apply Hu1|].
      intros x Hx. eapply urgentAt_evolves; [exact Hev13|done].
    + eapply Forall_impl; [by apply (Hurg2 v pa)|].
      intros x Hx. eapply urgentAt_evolves; [exact Hev23|done].
    + by apply (Hurg3 v pa).
Qed.

(** *** The walk of [propagateContextChange] *)

(** The fibers strictly below a fiber at which the walk stops. *)
Fixpoint hidden (h : gmap ptr Fiber) (t : forest) : list ptr :=
  match t with
  | Leaf => []
  | Node p kids sibs =>
    (if stops h p then nodes kids else hidden h kids) ++ hidden h sibs
  end.

(** [x] is a provider of the type of [workInProgress]:
    [fiber.tag === ContextProvider] and
    [fiber.type === workInProgress.type]. *)
Definition nestedProvider (h : gmap ptr Fiber) (x : ptr) : bool :=
  bool_decide (tag (h !!! x) = ContextProvider) &&
  (type (h !!! x) =? type (h !!! workInProgress))%nat.

(** The fibers strictly below a nested provider of the type of
    [workInProgress]. *)
Fixpoint belowNestedProvider (h : gmap ptr Fiber) (t : forest)
    : list ptr :=
  match t with
  | Leaf => []
  | Node p kids sibs =>
    (if nestedProvider h p then nodes kids
     else belowNestedProvider h kids)
    ++ belowNestedProvider h sibs
  end.

(** The provider fibers of [l] carry no dependency list. A list is
    written by [readContext] alone, onto the fiber that
    [prepareToReadContext] was called for, and a provider fiber is
    rendered without reads of a context. *)
Definition providersPlain (h : gmap ptr Fiber) (l : list ptr) : Prop :=
  forall x, x ∈ l -> tag (h !!! x) = ContextProvider ->
            firstContextDependency (h !!! x) = [].

Lemma stops_nestedProvider h x :
  (tag (h !!! x) = ContextProvider ->
   firstContextDependency (h !!! x) = []) ->
  stops h x = nestedProvider h x.
Proof.
  intros Hplain. unfold stops, nestedProvider.
  destruct (firstContextDependency (h !!! x)) as [|d deps]; [done|].
  destruct (decide (tag (h !!! x) = ContextProvider)) as [Ht|Ht].
  - by specialize (Hplain Ht).
  - by rewrite bool_decide_eq_false_2.
Qed.

Lemma belowNestedProvider_hidden h t :
  providersPlain h (nodes t) -> belowNestedProvider h t = hidden h t.
Proof.
  induction t as [|p kids IHk sibs IHs]; intros Hplain; [done|].
  cbn [belowNestedProvider hidden].
  rewrite stops_nestedProvider
    by (apply Hplain, elem_of_nodes_head).
  rewrite IHk, IHs; [done| |].
  - intros x Hx. apply Hplain. by apply elem_of_nodes_sibs.
  - intros x Hx. apply Hplain. by apply elem_of_nodes_kids.
Qed.

Lemma hidden_nodes h t x : x ∈ hidden h t -> x ∈ nodes t.
Proof.
  induction t as [|p kids IHk sibs IHs]; [done|]. cbn [hidden].
  intros Hx. apply elem_of_app in Hx as [Hx|Hx].
  - apply elem_of_nodes_kids. destruct (stops h p); auto.
  - apply elem_of_nodes_sibs. auto.
Qed.

Lemma hidden_not_reached h t :
  forall path x pa,
    NoDup (nodes t) -> x ∈ hidden h t -> (x, pa) ∉ reached h t path.
Proof.
  induction t as [|p kids IHk sibs IHs]; intros path x pa Hnd Hx Hin;
    [by apply elem_of_nil in Hin|].
  cbn [nodes] in Hnd. apply NoDup_cons in Hnd as [Hp Hnd].
  apply not_elem_of_app in Hp as [Hpk Hps].
  apply NoDup_app in Hnd as (Hndk & Hks & Hnds).
  cbn [reached] in Hin. cbn [hidden] in Hx.
  apply elem_of_app in Hx as [Hx|Hx].
  - assert (Hxk : x ∈ nodes kids).
    { destruct (stops h p); [done|by apply (hidden_nodes h)]. }
    apply elem_of_cons in Hin as [[= -> ->]|Hin]; [done|].
    apply elem_of_app in Hin as [Hin|Hin].
    + destruct (stops h p); [by apply elem_of_nil in Hin|].
      by apply (IHk (p :: path) x pa).
    + apply (reached_nodes h sibs path) in Hin as [Hin _].
      by apply (Hks x).
  - assert (Hxs : x ∈ nodes sibs) by by apply (hidden_nodes h).
    apply elem_of_cons in Hin as [[= -> ->]|Hin]; [done|].
    apply elem_of_app in Hin as [Hin|Hin].
    + destruct (stops h p); [by apply elem_of_nil in Hin|].
      apply (reached_nodes h kids (p :: path)) in Hin as [Hin _].
      by apply (Hks x).
    + by apply (IHs path x pa).
Qed.

(** The fibers under [workInProgress] form the forest [t], and the
    [return] pointers lead from [workInProgress] through [ancestors]
    to the root. *)
Record wellFormed (h : gmap ptr Fiber) (t : forest)
    (ancestors : list ptr) : Prop := {
  wf_child : child (h !!! workInProgress) = first t;
  wf_lay : lay h t;
  wf_nodup : NoDup (nodes t ++ workInProgress :: ancestors);
  wf_chain : chain h (return_ (h !!! workInProgress)) ancestors;
}.

(** On a well-formed tree the loop ends, with a store that is the
    result of the recursion. *)
Lemma propagateContextChange_walked h t ancestors :
  wellFormed h t ancestors ->
  exists fuel h',
    propagateContextChange fuel h workInProgress ctx changedBits render
    = Some h' /\
    evolves (scheduled h t (workInProgress :: ancestors))
            (onOrAlt h (nodes t ++ workInProgress :: ancestors))
            (fun x => x ∈ nodes t) h h' /\
    reachedFacts (summarized h t (workInProgress :: ancestors)) h h'
      (reached h t (workInProgress :: ancestors))
      (workInProgress :: ancestors).
Proof.
  intros [Hchild Hlay Hnd Hch].
  set (path := workInProgress :: ancestors) in *.
  set (h0 := match first t with
             | Some c => write_return c (Some workInProgress) h
             | None => h
             end).
  assert (Hev0 : evolves nowhere nowhere
                         (fun x => first t = Some x) h h0).
  { subst h0. destruct (first t) as [c|]; [|apply evolves_refl].
    eapply evolves_weaken; [| | |apply evolves_write_return]; try done.
    by intros x <-. }
  assert (Hfirst : forall c, first t = Some c -> c ∈ nodes t).
  { intros c Hc. destruct t; [done|]. injection Hc as <-.
    apply elem_of_nodes_head. }
  assert (Hndt : NoDup (nodes t) /\ forall x, x ∈ nodes t -> x ∉ path).
  { apply NoDup_app in Hnd. tauto. }
  destruct Hndt as [Hndt Hdisj].
  destruct (walkForest_walks t h0 path
              (List.length path + List.length (nodes t))%nat)
    as (h' & Hrun & Hw); [| | |done|].
  { eapply lay_evolves; [exact Hev0|done]. }
  { done. }
  { intros c Hc. split.
    - subst h0. rewrite Hc, lookup_write_return.
      by rewrite decide_True.
    - assert (Hret : return_ (h0 !!! workInProgress)
                     = return_ (h !!! workInProgress)).
      { destruct (Hev0 workInProgress) as (_ & [Hr|Hr] & _); [done|].
        destruct (Hdisj workInProgress (Hfirst _ Hr)).
        apply elem_of_cons. by left. }
      rewrite Hret. eapply chain_evolves; [exact Hev0| |done].
      intros x Hx Hc'. apply (Hdisj x (Hfirst _ Hc')).
      apply elem_of_cons. by right. }
  eapply (walkedFrom_intro (summarized h t path)) in Hw;
    [|exact Hev0|done|by intros _ x _ []|].
  2:{ intros (_ & _ & Hup & _).
      eapply upward_evolves; [exact Hev0|by intros x _ []|done]. }
  destruct Hw as (Hev & Hreach & Hsum).
  destruct (propagateContextChange_walkForest
              t (List.length path + List.length (nodes t))%nat h h'
              Hchild Hlay Hndt)
    as [fuel Hfuel]; [|exact Hrun|].
  { intros Hw0. apply (Hdisj _ Hw0). apply elem_of_cons. by left. }
  exists fuel, h'. split; [done|]. split; [|by split].
  eapply evolves_trans.
  - eapply evolves_weaken; [| | |exact Hev0]; done.
  - eapply evolves_weaken; [| | |exact Hev]; try done.
    intros x. apply inner_nodes.
Qed.

Lemma propagateContextChange_mono n m h h' :
  propagateContextChange n h workInProgress ctx changedBits render
  = Some h' ->
  (n <= m)%nat ->
  propagateContextChange m h workInProgress ctx changedBits render
  = Some h'.
Proof. unfold propagateContextChange. apply walk_mono. Qed.

(** Two runs that end give the same store. *)
Lemma propagateContextChange_fuel n m h h1 h2 :
  propagateContextChange n h workInProgress ctx changedBits render
  = Some h1 ->
  propagateContextChange m h workInProgress ctx changedBits render
  = Some h2 ->
  h1 = h2.
Proof.
  intros H1 H2.
  apply (propagateContextChange_mono _ (n `max` m)) in H1; [|lia].
  apply (propagateContextChange_mono _ (n `max` m)) in H2; [|lia].
  congruence.
Qed.

(** On a well-formed tree under [workInProgress], whose fibers have
    their alternates outside the tree, [propagateContextChange]
    returns, and it leaves the expiration time of every fiber strictly
    below a fiber at which the walk stops as it was. *)
Lemma propagateContextChange_skips_hidden h t ancestors x :
  wellFormed h t ancestors ->
  alternatesOutside h (nodes t) ->
  x ∈ hidden h t ->
  (exists fuel h',
     propagateContextChange fuel h workInProgress ctx changedBits render
     = Some h') /\
  (forall fuel h',
     propagateContextChange fuel h workInProgress ctx changedBits render
     = Some h' ->
     expirationTime (h' !!! x) = expirationTime (h !!! x)).
Proof.
  intros Hwf Halt Hx.
  destruct (propagateContextChange_walked h t ancestors Hwf)
    as (fuel & h' & Hrun & Hev & _).
  split; [by exists fuel, h'|].
  intros fuel2 h2 Hrun2.
  rewrite (propagateContextChange_fuel _ _ _ _ _ Hrun2 Hrun).
  destruct (Hev x) as (_ & _ & [He|[Hs _]] & _); [done|].
  destruct Hs as (v & pa & Hin & _ & [->|Ha]).
  - destruct (hidden_not_reached h t (workInProgress :: ancestors) v pa);
      [|done|done].
    destruct Hwf as [_ _ Hnd _]. apply NoDup_app in Hnd. tauto.
  - apply (reached_nodes h t (workInProgress :: ancestors)) in Hin
      as [Hv _].
    destruct (Halt v x Hv Ha). by apply (hidden_nodes h).
Qed.

(** C1. On a fiber tree under the provider fiber [workInProgress] (the
    child and sibling pointers draw a tree, the alternates of its
    fibers are outside it, and its provider fibers carry no dependency
    list), [propagateContextChange] returns, and it never changes the
    expiration time of a fiber strictly below a nested provider of the
    type of [workInProgress]: the walk does not go below the nested
    provider. *)
Theorem propagateContextChange_stops_at_nested_provider
    h t ancestors x :
  wellFormed h t ancestors ->
  alternatesOutside h (nodes t) ->
  providersPlain h (nodes t) ->
  x ∈ belowNestedProvider h t ->
  (exists fuel h',
     propagateContextChange fuel h workInProgress ctx changedBits render
     = Some h') /\
  (forall fuel h',
     propagateContextChange fuel h workInProgress ctx changedBits render
     = Some h' ->
     expirationTime (h' !!! x) = expirationTime (h !!! x)).
Proof.
  intros Hwf Halt Hplain Hx.
  rewrite (belowNestedProvider_hidden h t Hplain) in Hx.
  destruct (propagateContextChange_skips_hidden h t ancestors x
              Hwf Halt Hx) as [Hruns Hkept].
  split; [exact Hruns|]. intros fuel h' Hrun. by apply (Hkept fuel h').
Qed.

(** C2 (as amended). On a well-formed tree [propagateContextChange]
    returns, and every fiber that the walk reaches and that has a
    dependency on the context with a changed bit has its expiration
    time, and that of its alternate, raised to the render time when it
    was [NoWork] or later than it; its return pointers lead through
    its ancestors. When the child expiration times are summarized
    before the walk, the child expiration time of each of these
    ancestors is at least as urgent as the render time. *)
Theorem propagateContextChange_schedules h t ancestors :
  wellFormed h t ancestors ->
  (exists fuel h',
     propagateContextChange fuel h workInProgress ctx changedBits render
     = Some h') /\
  (forall fuel h',
     propagateContextChange fuel h workInProgress ctx changedBits render
     = Some h' ->
     forall v pa,
       (v, pa) ∈ reached h t (workInProgress :: ancestors) ->
       matched h v = true ->
       expirationTime (h' !!! v) = raised (expirationTime (h !!! v)) /\
       (forall a, alternate (h !!! v) = Some a ->
                  expirationTime (h' !!! a)
                  = raised (expirationTime (h !!! a))) /\
       chain h' (return_ (h' !!! v)) pa /\
       (summarized h t (workInProgress :: ancestors) ->
        Forall (urgentAt h') pa)).
Proof.
  intros Hwf.
  destruct (propagateContextChange_walked h t ancestors Hwf)
    as (fuel & h' & Hrun & Hev & Hreach & Hurg).
  split; [by exists fuel, h'|].
  intros fuel2 h2 Hrun2 v pa Hin Hm.
  rewrite (propagateContextChange_fuel _ _ _ _ _ Hrun2 Hrun).
  destruct (Hreach v pa Hin) as [Hch Hraised].
  destruct (Hraised Hm) as [He Ha].
  repeat split; try done.
  intros Hsum. destruct (Hurg Hsum) as [_ Hall]. by apply (Hall v pa).
Qed.

End Walk.

(** *** A tree to run the walk on *)

Local Open Scope nat_scope.

(** A provider [0] of type [7] under the root [10], rendering a
    consumer [1], a nested provider [2] of the same type above a
    consumer [3], and a host component [4] above a class component [5];
    [1] and [5] have alternates [21] and [25]. The fibers [1], [3] and
    [5] depend on context [5]. The root already has urgent work below
    it. *)
Definition node (tg : TypeOfWork) (ty : nat) (ret ch sib alt : option ptr)
    (deps : list ContextDependency) : Fiber :=
  mkFiber tg ty ret ch sib alt NoWork NoWork deps JS.Undefined.

Definition page : gmap ptr Fiber :=
  list_to_map
    [ (10, set_childExpirationTime 2%Z
                 (node HostRoot 0 None (Some 0) None None []));
      (0, node ContextProvider 7 (Some 10) (Some 1) None None []);
      (1, node ContextConsumer 1 None None (Some 2) (Some 21)
                   [mkContextDependency 5 1%Z]);
      (2, node ContextProvider 7 None (Some 3) (Some 4) None []);
      (3, node ContextConsumer 1 None None None None
                   [mkContextDependency 5 3%Z]);
      (4, node HostComponent 2 None (Some 5) None None []);
      (5, node ClassComponent 3 None None None (Some 25)
                   [mkContextDependency 8 1%Z; mkContextDependency 5 1%Z]);
      (21, node ContextConsumer 1 None None None (Some 1) []);
      (25, node ClassComponent 3 None None None (Some 5) []) ].

Definition pageTree : forest :=
  Node 1 Leaf (Node 2 (Node 3 Leaf Leaf) (Node 4 (Node 5 Leaf Leaf) Leaf)).

Ltac decide_it := apply (bool_decide_unpack _); vm_compute; exact I.

Ltac each_member H :=
  repeat (apply elem_of_cons in H as [H|H]);
  [..|by apply elem_of_nil in H].

Lemma page_wellFormed : wellFormed 0 page pageTree [10].
Proof.
  split.
  - reflexivity.
  - repeat split; reflexivity.
  - decide_it.
  - split; reflexivity.
Qed.

Lemma page_hidden : hidden 0 page pageTree = [3].
Proof. reflexivity. Qed.

Lemma page_reached :
  reached 0 page pageTree [0; 10]
  = [ (1, [0; 10]); (2, [0; 10]);
      (4, [0; 10]); (5, [4; 0; 10]) ].
Proof. reflexivity. Qed.

Lemma page_alternatesOutside :
  alternatesOutside page (nodes pageTree ++ [0; 10]).
Proof.
  intros x a Hx Ha. cbn in Hx. each_member Hx; subst x;
    vm_compute in Ha; try discriminate; injection Ha as <-; decide_it.
Qed.

Lemma page_summarized :
  summarized 0 3%Z page pageTree [0; 10].
Proof.
  split; [done|]. split; [apply page_alternatesOutside|]. split.
  - split; [|split; [|done]].
    + intros y [= <-] _. reflexivity.
    + intros y [=].
  - intros v pa q Hin Hq Hu. rewrite page_reached in Hin.
    each_member Hin; injection Hin as -> ->; vm_compute in Hu;
      discriminate.
Qed.

(** The walk on the page, for a change of bit [1] of context [5] at
    render time [3]: the consumer [1], the class component [5] and
    their alternates are scheduled, the consumer [3] below the nested
    provider is not, and the ancestors [4] and [0] of the scheduled
    fibers are raised; the root was urgent already. *)
Example page_walk :
  (h' ← propagateContextChange 20 page 0 5 1%Z 3%Z;
   Some ((fun x => expirationTime (h' !!! x)) <$> [1; 21; 3; 5; 25],
         (fun x => childExpirationTime (h' !!! x)) <$> [10; 0; 2; 4]))
  = Some ([3; 3; 0; 3; 3], [2; 3; 0; 3])%Z.
Proof. vm_compute. reflexivity. Qed.

(** The bits of a record and of a change are compared after both are
    wrapped to 32 bits: a bit beyond them matches no change. *)
Example dependencyMatches_wraps :
  dependencyMatches 5 (-1) (mkContextDependency 5 (2 ^ 32)%Z) = false /\
  dependencyMatches 5 (-1) (mkContextDependency 5 (2 ^ 32 + 4)%Z) = true.
Proof. split; reflexivity. Qed.

Lemma page_providersPlain : providersPlain page (nodes pageTree).
Proof.
  intros x Hx Htag. cbn in Hx. each_member Hx; subst x;
    vm_compute in Htag |- *; done.
Qed.

Lemma page_belowNestedProvider : belowNestedProvider 0 page pageTree = [3].
Proof. reflexivity. Qed.

Lemma propagateContextChange_stops_at_nested_provider_witness :
  (exists fuel h',
     propagateContextChange fuel page 0 5 1%Z 3%Z = Some h') /\
  (forall fuel h',
     propagateContextChange fuel page 0 5 1%Z 3%Z = Some h' ->
     expirationTime (h' !!! 3) = expirationTime (page !!! 3)).
Proof.
  apply (propagateContextChange_stops_at_nested_provider
           0 5 1%Z 3%Z page pageTree [10] 3).
  - apply page_wellFormed.
  - eapply alternatesOutside_mono; [|apply page_alternatesOutside].
    intros y Hy. apply elem_of_app. by left.
  - apply page_providersPlain.
  - rewrite page_belowNestedProvider. by apply list_elem_of_singleton.
Defined.

Lemma propagateContextChange_schedules_witness :
  (exists fuel h',
     propagateContextChange fuel page 0 5 1%Z 3%Z = Some h') /\
  (forall fuel h',
     propagateContextChange fuel page 0 5 1%Z 3%Z = Some h' ->
     forall v pa,
       (v, pa) ∈ reached 0 page pageTree [0; 10] ->
       matched 5 1%Z page v = true ->
       expirationTime (h' !!! v)
       = raised 3%Z (expirationTime (page !!! v)) /\
       (forall a, alternate (page !!! v) = Some a ->
                  expirationTime (h' !!! a)
                  = raised 3%Z (expirationTime (page !!! a))) /\
       chain h' (return_ (h' !!! v)) pa /\
       Forall (urgentAt 3%Z h') pa).
Proof.
  destruct (propagateContextChange_schedules
              0 5 1%Z 3%Z page pageTree [10] page_wellFormed)
    as [Hruns Hafter].
  split; [exact Hruns|].
  intros fuel h' Hrun v pa Hin Hm.
  destruct (Hafter fuel h' Hrun v pa Hin Hm) as (He & Ha & Hch & Hurg).
  repeat split; [exact He|exact Ha|exact Hch|].
  apply Hurg, page_summarized.
Defined.

(** The tree of the spec, [Provider > Provider > Consumer], once as it
    is and once with a dependency list on the nested provider. *)
Definition nested (deps : list ContextDependency) : gmap ptr Fiber :=
  list_to_map
    [ (0, node ContextProvider 7 None (Some 1) None None []);
      (1, node ContextProvider 7 None (Some 2) None None deps);
      (2, node ContextConsumer 1 None None None None
               [mkContextDependency 5 1%Z]) ].

(** The walk tests the dependency list of a fiber before its tag. On
    a store that no render builds, where the nested provider [1]
    carries a dependency list, it goes below [1] and schedules the
    consumer [2]: this is where [providersPlain] is used. *)
Example nested_provider_with_dependencies_descends :
  let h := nested [mkContextDependency 9 1%Z] in
  tag (h !!! 1) = ContextProvider /\
  type (h !!! 1) = type (h !!! 0) /\
  child (h !!! 1) = Some 2 /\
  expirationTime (h !!! 2) = NoWork /\
  (h' ← propagateContextChange 10 h 0 5 1%Z 3%Z;
   Some (expirationTime (h' !!! 2))) = Some 3%Z.
Proof. repeat split; vm_compute; reflexivity. Qed.

(** C2, counterexample. The consumer [2] has a dependency on the
    context with a changed bit and no work scheduled, and it is below
    the nested provider: after the walk it still has no work. *)
Lemma dependent_below_nested_provider_not_scheduled :
  let h := nested [] in
  matched 5 1%Z h 2 = true /\
  expirationTime (h !!! 2) = NoWork /\
  (h' ← propagateContextChange 10 h 0 5 1%Z 3%Z;
   Some (expirationTime (h' !!! 2))) = Some NoWork.
Proof. repeat split; vm_compute; reflexivity. Qed.

End PropagationFacts.

(** ** The devtools hook *)

Module DevToolsFacts.
Import ReactFiberDevToolsHook.

Section Wrappers.
Context {W : Type} (env : Env W) (hooks : Hooks W).

(** What a guarded call does to the state: it returns, the flag never
    goes back to [false], and at most one error is logged, none when
    the flag was already set. *)
Definition guarded (s : State W) (c : JS.completion (State W) unit)
    : Prop :=
  exists s', c = JS.Normal s' tt /\
    (logged s' = logged s /\ hasLoggedError s' = hasLoggedError s \/
     hasLoggedError s = false /\ hasLoggedError s' = true /\
     exists err, logged s' = err :: logged s).

Lemma guarded_tryCatch_dev (s : State W)
    (body : JS.completion (State W) unit) (dev : bool) :
  (forall s1, body = JS.Normal s1 tt \/ (exists e, body = JS.Throw s1 e) ->
              logged s1 = logged s /\
              hasLoggedError s1 = hasLoggedError s) ->
  guarded s
    (tryCatch body
       (fun err s' =>
          if dev then
            if negb (hasLoggedError s') then logError err s'
            else JS.Normal s' tt
          else JS.Normal s' tt)).
Proof.
  intros Hbody. destruct body as [s1 []|s1 e]; cbn.
  - exists s1. split; [done|]. left. apply Hbody. by left.
  - destruct (Hbody s1) as [Hl Hf]; [right; by exists e|].
    destruct dev; [|exists s1; by split; [|left]].
    destruct (hasLoggedError s1) eqn:Hs1; cbn.
    + exists s1. split; [done|]. left. split; congruence.
    + eexists. split; [done|]. right. cbn.
      repeat split; [congruence|]. exists e. by rewrite Hl.
Qed.

Lemma inWorld_Normal {A} (f : W -> JS.completion W A) s s1 a :
  inWorld f s = JS.Normal s1 a ->
  logged s1 = logged s /\ hasLoggedError s1 = hasLoggedError s.
Proof.
  unfold inWorld. destruct (f (world s)); [|done]. by intros [= <- _].
Qed.

Lemma inWorld_Throw {A} (f : W -> JS.completion W A) s s1 e :
  inWorld f s = JS.Throw s1 e ->
  logged s1 = logged s /\ hasLoggedError s1 = hasLoggedError s.
Proof.
  unfold inWorld. destruct (f (world s)); [done|]. by intros [= <- _].
Qed.

Lemma inWorld_frame {A} (f : W -> JS.completion W A) (s s1 : State W) :
  (exists a, inWorld f s = JS.Normal s1 a) \/
  (exists e, inWorld f s = JS.Throw s1 e) ->
  logged s1 = logged s /\ hasLoggedError s1 = hasLoggedError s.
Proof.
  intros [[a Ha]|[e He]];
    [by eapply inWorld_Normal | by eapply inWorld_Throw].
Qed.

Lemma onScheduleRoot_guarded root children s :
  guarded s (onScheduleRoot env hooks root children s).
Proof.
  unfold onScheduleRoot.
  destruct (__DEV__ env) eqn:Hdev; [|exists s; by split; [|left]].
  destruct (onScheduleFiberRoot hooks) as [f|];
    [|exists s; by split; [|left]].
  cbn [andb].
  apply (guarded_tryCatch_dev s _ true).
  intros s1 [Heq|[e Heq]]; eapply inWorld_frame; eauto.
Qed.

Lemma onCommitUnmount_guarded fiber s :
  guarded s (onCommitUnmount env hooks fiber s).
Proof.
  unfold onCommitUnmount.
  destruct (onCommitFiberUnmount hooks) as [f|];
    [|exists s; by split; [|left]].
  apply guarded_tryCatch_dev.
  intros s1 [Heq|[e Heq]]; eapply inWorld_frame; eauto.
Qed.

Lemma onCommitRoot_guarded root expirationTime s :
  guarded s (onCommitRoot env hooks root expirationTime s).
Proof.
  unfold onCommitRoot.
  destruct (onCommitFiberRoot hooks) as [f|];
    [|exists s; by split; [|left]].
  apply guarded_tryCatch_dev.
  intros s3. destruct (enableProfilerTimer env).
  - destruct (inWorld (getCurrentTime env) s) as [s1 t|s1 e1] eqn:H1.
    + apply inWorld_Normal in H1 as [Ha Hb].
      destruct (inWorld _ s1) as [s2 p|s2 e2] eqn:H2.
      * apply inWorld_Normal in H2 as [Hc Hd].
        intros [Heq|[e Heq]];
          [apply inWorld_Normal in Heq as [He Hf]
          |apply inWorld_Throw in Heq as [He Hf]];
          split; congruence.
      * apply inWorld_Throw in H2 as [Hc Hd].
        intros [Heq|[e Heq]]; [done|]. injection Heq as <- _.
        split; congruence.
    + apply inWorld_Throw in H1 as [Ha Hb].
      intros [Heq|[e Heq]]; [done|]. by injection Heq as <- _.
  - intros Heq. eapply inWorld_frame.
    destruct Heq as [Heq|[e Heq]]; eauto.
Qed.

Lemma call_guarded c s : guarded s (call env hooks c s).
Proof.
  destruct c; [apply onScheduleRoot_guarded | apply onCommitRoot_guarded
              | apply onCommitUnmount_guarded].
Qed.

(** A session returns, and logs at most one error if none was logged
    before, none otherwise. *)
Lemma session_guarded cs s :
  exists s', session env hooks cs s = JS.Normal s' tt /\
    (hasLoggedError s = true -> hasLoggedError s' = true) /\
    (List.length (logged s') <=
       List.length (logged s)
       + (if hasLoggedError s then 0 else 1))%nat.
Proof.
  revert s. induction cs as [|c cs IH]; intros s; cbn [session].
  - exists s. repeat split; [done|lia].
  - destruct (call_guarded c s) as (s1 & -> & Hs1).
    destruct (IH s1) as (s' & -> & Hflag & Hlen).
    exists s'. split; [done|].
    destruct Hs1 as [[Hl Hf]|(Hf & Hf1 & err & Hl)].
    + rewrite Hf, Hl in *. by split.
    + rewrite Hf1, Hl in *. rewrite Hf. split; [done|].
      cbn [List.length] in Hlen. lia.
Qed.

(** C7. Each of [onScheduleRoot], [onCommitRoot] and [onCommitUnmount]
    returns normally whatever the hook callback does, and over a whole
    session, started with [hasLoggedError] unset, these wrappers log
    at most one error. *)
Theorem instrumentation_errors_contained :
  (forall c s, exists s', call env hooks c s = JS.Normal s' tt) /\
  (forall cs w, exists s',
     session env hooks cs (mkState false w []) = JS.Normal s' tt /\
     (List.length (logged s') <= 1)%nat).
Proof.
  split.
  - intros c s. destruct (call_guarded c s) as (s' & Hs' & _). eauto.
  - intros cs w.
    destruct (session_guarded cs (mkState false w [])) as (s' & Hs' & _ & Hlen).
    exists s'. split; [done|]. cbn in Hlen. lia.
Qed.

End Wrappers.

(** A development build whose commit callback always throws: two
    commits and an unmount leave one logged error. *)
Definition devEnv : Env unit :=
  mkEnv unit true false 64
        (fun w => JS.Normal w 0)
        (fun _ _ w => JS.Normal w 0).

Definition throwingHooks : Hooks unit :=
  mkHooks unit None (JS.Number JS.one)
          (Some (fun _ _ _ _ w => JS.Throw w (JS.String "commit")))
          (Some (fun _ _ w => JS.Throw w (JS.String "unmount"))).

Example throwing_hooks_logged_once :
  let root := mkFiberRoot 0 0 in
  session devEnv throwingHooks
          [CommitRoot root 3; CommitUnmount 4; CommitRoot root 5]
          (mkState false tt [])
  = JS.Normal (mkState true tt [JS.String "commit"]) tt.
Proof. reflexivity. Qed.

End DevToolsFacts.

Module InstallHookFacts.
Import DevToolsHook.





End InstallHookFacts.

(** ** The commit bracket of the DOM renderer *)

Module ReactDOMFiberFacts.
Import ReactDOMFiber.

(** C8. [prepareForCommit] records whether event dispatch is enabled,
    disables it and captures the selection; after any change of the
    selection by the commit, [resetAfterCommit] puts the captured
    selection back, gives the enabled flag its recorded value and
    clears both slots. *)
Theorem commit_bracket_roundtrip
    (s : State) (moved : SelectionInformation) :
  let s1 := prepareForCommit s in
  let s2 := resetAfterCommit (mutateSelection moved s1) in
  (eventsEnabled s1 = Some (emitterEnabled s) /\
   emitterEnabled s1 = false /\
   selectionInformation s1 = Some (documentSelection s) /\
   documentSelection s1 = documentSelection s) /\
  (documentSelection s2 = documentSelection s /\
   emitterEnabled s2 = emitterEnabled s /\
   eventsEnabled s2 = None /\
   selectionInformation s2 = None).
Proof. done. Qed.

(** With both slots empty before the commit, as [resetAfterCommit]
    leaves them, the bracket gives back the state it started from. *)
Lemma commit_bracket_identity (s : State) (moved : SelectionInformation) :
  eventsEnabled s = None -> selectionInformation s = None ->
  resetAfterCommit (mutateSelection moved (prepareForCommit s)) = s.
Proof. destruct s as [e si en sel]. cbn. by intros -> ->. Qed.

End ReactDOMFiberFacts.

(** ** The scroll state of the profiler view *)

Module VerticalScrollViewFacts.
Import VerticalScrollView.

Section View.
Context {number : Type} `{ScrollStateUtils number}.

(** The state that [_setScrollState] compares with the current one. *)
Definition clamped (proposedState : ScrollState number)
    (v : View number) : ScrollState number :=
  clampState proposedState (contentView_frame_height v)
             (contentView_frame_height v) (frame_height v).

(** Whether the clamped state is the current one is decided by
    [areScrollStatesEqual]. *)
Lemma decide_rel_clamped
    (Hequal : forall a b : ScrollState number,
        areScrollStatesEqual a b = true <-> a = b)
    (v : View number) (p : ScrollState number) :
  clamped p v = _scrollState v \/ clamped p v <> _scrollState v.
Proof.
  destruct (areScrollStatesEqual (clamped p v) (_scrollState v)) eqn:He.
  - left. by apply Hequal.
  - right. intros Hc. apply Hequal in Hc. congruence.
Qed.

(** C10 (as amended). [_setScrollState] clamps the proposed state
    against the content and container heights. If the clamped state
    equals the current one, it returns [false] and the view is
    unchanged: same scroll state, no call of the callback. Otherwise
    it returns [true], the scroll state is the clamped state, and the
    registered callback, if any, is called once with the clamped
    state and the container height. So [scrollBy] returns [true]
    exactly when the scroll state, its offset or its length, actually
    changed. [areScrollStatesEqual] is taken to compare the two
    fields of its arguments. *)
Theorem setScrollState_spec
    (Hequal : forall a b : ScrollState number,
        areScrollStatesEqual a b = true <-> a = b)
    (proposedState : ScrollState number) (deltaY : number)
    (v : View number) :
  let c := clamped proposedState v in
  let v' := fst (_setScrollState proposedState v) in
  let changed := snd (_setScrollState proposedState v) in
  (c = _scrollState v ->
   changed = false /\ v' = v) /\
  (c <> _scrollState v ->
   changed = true /\
   _scrollState v' = c /\
   onChangeCalls v' =
     match _onChangeCallback v with
     | Some callback => (callback, c, frame_height v) :: onChangeCalls v
     | None => onChangeCalls v
     end) /\
  (snd (scrollBy deltaY v) = true <->
   _scrollState (fst (scrollBy deltaY v)) <> _scrollState v).
Proof.
  assert (Hset : forall p,
             (clamped p v = _scrollState v ->
              _setScrollState p v = (v, false)) /\
             (clamped p v <> _scrollState v ->
              snd (_setScrollState p v) = true /\
              _scrollState (fst (_setScrollState p v)) = clamped p v /\
              onChangeCalls (fst (_setScrollState p v)) =
                match _onChangeCallback v with
                | Some callback =>
                  (callback, clamped p v, frame_height v)
                    :: onChangeCalls v
                | None => onChangeCalls v
                end)).
  { intros p. unfold _setScrollState. fold (clamped p v).
    destruct (areScrollStatesEqual (clamped p v) (_scrollState v)) eqn:He.
    - apply Hequal in He. by split.
    - split.
      + intros Hc. apply Hequal in Hc. congruence.
      + intros _. cbn. split; [done|]. split; [|done].
        by destruct (clamped p v). }
  cbv zeta. split; [|split].
  - intros Hc. by rewrite (proj1 (Hset proposedState) Hc).
  - intros Hc. apply (proj2 (Hset proposedState) Hc).
  - unfold scrollBy.
    set (p := translateState _ _ _).
    destruct (decide_rel_clamped Hequal v p) as [Hc|Hc].
    + rewrite (proj1 (Hset p) Hc). cbn. split; [done|]. by intros [].
    + destruct (proj2 (Hset p) Hc) as (-> & -> & _). by split.
Qed.

End View.

Import Reference.

(** A view whose content (100) is taller than its container (50) and
    whose scroll state was not validated yet. *)
Definition freshView : View Z :=
  mkView 100 50 (mkScrollState 0 0) (Some 7%nat) false [].

(** C10, counterexample. [scrollBy] returns [true] although the offset
    is the same before and after: the length changed. *)
Lemma scrollBy_true_same_offset :
  snd (scrollBy 0 freshView) = true /\
  offset (_scrollState (fst (scrollBy 0 freshView)))
  = offset (_scrollState freshView).
Proof. split; reflexivity. Qed.

Lemma reference_equal (a b : ScrollState Z) :
  areScrollStatesEqual a b = true <-> a = b.
Proof.
  destruct a as [oa la], b as [ob lb]. cbn. rewrite andb_true_iff.
  rewrite !Z.eqb_eq. split; [by intros [-> ->]|by intros [= -> ->]].
Qed.

Lemma setScrollState_spec_witness :
  let p := mkScrollState (-10) 100 in
  snd (_setScrollState p freshView) = true /\
  _scrollState (fst (_setScrollState p freshView)) = p /\
  onChangeCalls (fst (_setScrollState p freshView)) = [(7%nat, p, 50)].
Proof.
  intros p.
  apply (proj1 (proj2 (setScrollState_spec reference_equal p 0 freshView))).
  vm_compute. discriminate.
Defined.

End VerticalScrollViewFacts.

(** ** What the propagation walk leaves alone *)

Module PropagationBounds.
Import ReactFiber ReactFiberNewContext PropagationFacts.

Section Walk.
Variables (workInProgress : ptr) (ctx : nat).
Variables (changedBits renderExpirationTime : Z).

Local Abbreviation render := renderExpirationTime.
Local Abbreviation changes := (evolves renderExpirationTime).

Lemma visitFiber_keeps n h p h' next :
  visitFiber n workInProgress ctx changedBits render h p = Some (h', next) ->
  changes anywhere anywhere nowhere h h'.
Proof.
  unfold visitFiber. intros Hrun.
  destruct (firstContextDependency (h !!! p)) as [|d deps].
  - destruct (decide _); injection Hrun as <- _; apply evolves_refl.
  - destruct (visitDependencies _ _ _ _ _ _ _) as [h1|] eqn:H1; [|done].
    injection Hrun as <- _. by eapply visitDependencies_keeps.
Qed.

Lemma nextSibling_keeps n h node h' next :
  nextSibling n workInProgress h node = Some (h', next) ->
  changes nowhere nowhere anywhere h h'.
Proof.
  revert node. induction n as [|n IH]; intros node Hrun.
  - destruct node; [done|]. injection Hrun as <- _. apply evolves_refl.
  - destruct node as [x|]; [|injection Hrun as <- _; apply evolves_refl].
    cbn in Hrun. destruct (x =? workInProgress)%nat;
      [injection Hrun as <- _; apply evolves_refl|].
    destruct (sibling (h !!! x)) as [s|]; [|by eapply IH].
    injection Hrun as <- _.
    eapply evolves_weaken; [| | |apply evolves_write_return]; done.
Qed.

Lemma walk_keeps n h fiber h' :
  walk n workInProgress ctx changedBits render h fiber = Some h' ->
  changes anywhere anywhere anywhere h h'.
Proof.
  revert h fiber. induction n as [|n IH]; intros h fiber Hrun.
  - destruct fiber; [done|]. injection Hrun as <-. apply evolves_refl.
  - destruct fiber as [f|]; [|injection Hrun as <-; apply evolves_refl].
    cbn -[visitFiber nextSibling] in Hrun.
    destruct (visitFiber _ _ _ _ _ _ _) as [[h1 next]|] eqn:H1; [|done].
    cbn -[nextSibling] in Hrun.
    apply visitFiber_keeps in H1.
    eapply evolves_trans;
      [eapply evolves_weaken; [| | |exact H1]; done|].
    destruct next as [c|].
    + cbn in Hrun. eapply evolves_trans; [|eapply IH, Hrun].
      eapply evolves_weaken; [| | |apply evolves_write_return]; done.
    + destruct (nextSibling _ _ _ _) as [[h2 next]|] eqn:H2; [|done].
      cbn in Hrun. apply nextSibling_keeps in H2.
      eapply evolves_trans; [|eapply IH, Hrun].
      eapply evolves_weaken; [| | |exact H2]; done.
Qed.

Lemma propagateContextChange_keeps n h h' :
  propagateContextChange n h workInProgress ctx changedBits render
  = Some h' ->
  changes anywhere anywhere anywhere h h'.
Proof.
  unfold propagateContextChange. intros Hrun.
  eapply evolves_trans; [|eapply walk_keeps, Hrun].
  destruct (child (h !!! workInProgress)) as [c|]; [|apply evolves_refl].
  eapply evolves_weaken; [| | |apply evolves_write_return]; done.
Qed.

(** Whatever the store, the walk writes three fields only: it leaves
    the tag, the type, the child, sibling and alternate pointers, the
    dependency list and the pending value of every fiber as they were,
    and an expiration time or a child expiration time that it changes
    was [NoWork] or later than the render time and becomes the render
    time. *)
Theorem propagateContextChange_only_raises n h h' x :
  propagateContextChange n h workInProgress ctx changedBits render
  = Some h' ->
  (tag (h' !!! x) = tag (h !!! x) /\
   type (h' !!! x) = type (h !!! x) /\
   child (h' !!! x) = child (h !!! x) /\
   sibling (h' !!! x) = sibling (h !!! x) /\
   alternate (h' !!! x) = alternate (h !!! x) /\
   firstContextDependency (h' !!! x) = firstContextDependency (h !!! x) /\
   pendingProps_value (h' !!! x) = pendingProps_value (h !!! x)) /\
  (expirationTime (h' !!! x) = expirationTime (h !!! x) \/
   lessUrgent (expirationTime (h !!! x)) render = true /\
   expirationTime (h' !!! x) = render) /\
  (childExpirationTime (h' !!! x) = childExpirationTime (h !!! x) \/
   lessUrgent (childExpirationTime (h !!! x)) render = true /\
   childExpirationTime (h' !!! x) = render).
Proof.
  intros Hrun. destruct (propagateContextChange_keeps n h h' Hrun x)
    as (Hs & _ & He & Hc).
  split; [|split].
  - repeat split.
    + by apply shape_tag.
    + by apply shape_type.
    + by apply shape_child.
    + by apply shape_sibling.
    + by apply shape_alternate.
    + by apply shape_dependencies.
    + by apply (f_equal pendingProps_value) in Hs.
  - destruct He as [He|[_ He]]; [by left|]. unfold raised in He.
    destruct (lessUrgent _ render); [by right|by left].
  - destruct Hc as [Hc|[_ Hc]]; [by left|]. unfold raised in Hc.
    destruct (lessUrgent _ render); [by right|by left].
Qed.

(** **** A change with no changed bit *)

Lemma dependencyMatches_no_bits d : dependencyMatches ctx 0 d = false.
Proof.
  unfold dependencyMatches, JS.bitAnd. change (JS.int32 0) with 0.
  rewrite Z.land_0_r. cbn. apply andb_false_r.
Qed.

Lemma visitDependencies_no_bits n fiber deps h :
  visitDependencies n ctx 0 render fiber deps h = Some h.
Proof.
  induction deps as [|d deps IH]; [done|]. cbn [visitDependencies].
  by rewrite dependencyMatches_no_bits.
Qed.

Lemma visitFiber_no_bits n h p h' next :
  visitFiber n workInProgress ctx 0 render h p = Some (h', next) ->
  h' = h.
Proof.
  unfold visitFiber.
  destruct (firstContextDependency (h !!! p));
    [destruct (decide _)|rewrite visitDependencies_no_bits];
    by intros [= <- _].
Qed.

Lemma walk_no_bits n h fiber h' :
  walk n workInProgress ctx 0 render h fiber = Some h' ->
  changes nowhere nowhere anywhere h h'.
Proof.
  revert h fiber. induction n as [|n IH]; intros h fiber Hrun.
  - destruct fiber; [done|]. injection Hrun as <-. apply evolves_refl.
  - destruct fiber as [f|]; [|injection Hrun as <-; apply evolves_refl].
    cbn -[visitFiber nextSibling] in Hrun.
    destruct (visitFiber _ _ _ _ _ _ _) as [[h1 next]|] eqn:H1; [|done].
    cbn -[nextSibling] in Hrun.
    apply visitFiber_no_bits in H1 as ->.
    destruct next as [c|].
    + cbn in Hrun. eapply evolves_trans; [|eapply IH, Hrun].
      eapply evolves_weaken; [| | |apply evolves_write_return]; done.
    + destruct (nextSibling _ _ _ _) as [[h2 next]|] eqn:H2; [|done].
      cbn in Hrun. apply nextSibling_keeps in H2.
      eapply evolves_trans; [exact H2|]. eapply IH, Hrun.
Qed.

(** A change with no changed bit schedules nothing: every expiration
    time and every child expiration time of the store is as before. *)
Theorem propagateContextChange_no_bits n h h' x :
  propagateContextChange n h workInProgress ctx 0 render = Some h' ->
  expirationTime (h' !!! x) = expirationTime (h !!! x) /\
  childExpirationTime (h' !!! x) = childExpirationTime (h !!! x).
Proof.
  unfold propagateContextChange. intros Hrun.
  assert (Hev : changes nowhere nowhere anywhere h h').
  { eapply evolves_trans; [|eapply walk_no_bits, Hrun].
    destruct (child (h !!! workInProgress)) as [c|]; [|apply evolves_refl].
    eapply evolves_weaken; [| | |apply evolves_write_return]; done. }
  destruct (Hev x) as (_ & _ & [He|[[] _]] & [Hc|[[] _]]). by split.
Qed.

(** **** Outside the subtree *)

Lemma fiber_eq (f g : Fiber) :
  shape f = shape g -> return_ f = return_ g ->
  expirationTime f = expirationTime g ->
  childExpirationTime f = childExpirationTime g -> f = g.
Proof.
  destruct f, g. cbn. intros [= -> -> -> -> -> -> ->] -> -> ->. done.
Qed.

(** On a well-formed tree the walk touches the fibers under
    [workInProgress], the path from [workInProgress] to the root and
    the alternates of these fibers: every other fiber of the store is
    as it was. *)
Theorem propagateContextChange_local n h h' t ancestors x :
  wellFormed workInProgress h t ancestors ->
  propagateContextChange n h workInProgress ctx changedBits render
  = Some h' ->
  x ∉ nodes t ++ workInProgress :: ancestors ->
  (forall y, y ∈ nodes t ++ workInProgress :: ancestors ->
             alternate (h !!! y) <> Some x) ->
  h' !!! x = h !!! x.
Proof.
  intros Hwf Hrun Hx Halt.
  destruct (propagateContextChange_walked workInProgress ctx changedBits
              render h t ancestors Hwf) as (m & h0 & Hrun0 & Hev & _).
  rewrite (propagateContextChange_fuel _ _ _ _ _ _ _ _ _ Hrun Hrun0).
  destruct (Hev x) as (Hs & Hr & He & Hc).
  apply fiber_eq; [done| | |].
  - destruct Hr as [Hr|Hr]; [done|]. destruct Hx.
    apply elem_of_app. by left.
  - destruct He as [He|[(v & pa & Hin & _ & Hv) _]]; [done|].
    apply reached_nodes in Hin as [Hin _].
    assert (Hv' : v ∈ nodes t ++ workInProgress :: ancestors)
      by (apply elem_of_app; by left).
    destruct Hv as [->|Hv]; [done|]. by destruct (Halt v Hv').
  - destruct Hc as [Hc|[[Hin|(y & Hy & Hya)] _]]; [done|done|].
    by destruct (Halt y Hy).
Qed.

End Walk.

Local Open Scope nat_scope.

(** The page with a consumer [12] of the same context that is not
    under the provider [0]. *)
Definition pageAndNeighbour : gmap ptr Fiber :=
  <[12 := node ContextConsumer 1 None None None None
               [mkContextDependency 5 1%Z]]> page.

Lemma pageAndNeighbour_wellFormed :
  wellFormed 0 pageAndNeighbour pageTree [10].
Proof.
  split.
  - reflexivity.
  - repeat split; reflexivity.
  - decide_it.
  - split; reflexivity.
Qed.

Lemma propagateContextChange_only_raises_witness :
  exists h',
    propagateContextChange 20 page 0 5 1%Z 3%Z = Some h' /\
    (tag (h' !!! 1) = tag (page !!! 1) /\
     type (h' !!! 1) = type (page !!! 1) /\
     child (h' !!! 1) = child (page !!! 1) /\
     sibling (h' !!! 1) = sibling (page !!! 1) /\
     alternate (h' !!! 1) = alternate (page !!! 1) /\
     firstContextDependency (h' !!! 1)
     = firstContextDependency (page !!! 1) /\
     pendingProps_value (h' !!! 1) = pendingProps_value (page !!! 1)) /\
    (expirationTime (h' !!! 1) = expirationTime (page !!! 1) \/
     lessUrgent (expirationTime (page !!! 1)) 3%Z = true /\
     expirationTime (h' !!! 1) = 3%Z) /\
    (childExpirationTime (h' !!! 1) = childExpirationTime (page !!! 1) \/
     lessUrgent (childExpirationTime (page !!! 1)) 3%Z = true /\
     childExpirationTime (h' !!! 1) = 3%Z).
Proof.
  eexists. split; [vm_compute; reflexivity|].
  apply (propagateContextChange_only_raises 0 5 1%Z 3%Z 20 page).
  vm_compute. reflexivity.
Defined.

Lemma propagateContextChange_no_bits_witness :
  exists h',
    propagateContextChange 20 page 0 5 0%Z 3%Z = Some h' /\
    expirationTime (h' !!! 1) = expirationTime (page !!! 1) /\
    childExpirationTime (h' !!! 1) = childExpirationTime (page !!! 1).
Proof.
  eexists. split; [vm_compute; reflexivity|].
  apply (propagateContextChange_no_bits 0 5 3%Z 20 page).
  vm_compute. reflexivity.
Defined.

Lemma propagateContextChange_local_witness :
  exists h',
    propagateContextChange 20 pageAndNeighbour 0 5 1%Z 3%Z = Some h' /\
    h' !!! 12 = pageAndNeighbour !!! 12.
Proof.
  eexists. split; [vm_compute; reflexivity|].
  apply (propagateContextChange_local
           0 5 1%Z 3%Z 20 pageAndNeighbour _ pageTree [10] 12).
  - apply pageAndNeighbour_wellFormed.
  - vm_compute. reflexivity.
  - decide_it.
  - intros y Hy. cbn in Hy. each_member Hy; subst y; vm_compute; done.
Defined.

End PropagationBounds.

(** ** The propagation walk, run again *)

Module PropagationTwice.
Import ReactFiber ReactFiberNewContext PropagationFacts.

Section Walk.
Variables (workInProgress : ptr) (ctx : nat).
Variables (changedBits renderExpirationTime : Z).
Hypothesis Hrender : renderExpirationTime <> NoWork.

Local Abbreviation render := renderExpirationTime.
Local Abbreviation changes := (evolves renderExpirationTime).
Local Abbreviation urgent := (urgentAt renderExpirationTime).
Local Abbreviation visits :=
  (reached workInProgress).
Local Abbreviation matches := (matched ctx changedBits).
Local Abbreviation walkOver :=
  (walkForest workInProgress ctx changedBits renderExpirationTime).
Local Abbreviation visitOf :=
  (visitStore ctx changedBits renderExpirationTime).

(** [x] is a fiber of the store. *)
Definition present (h : gmap ptr Fiber) (x : ptr) : Prop :=
  is_Some (h !! x).

(** Nothing is left to schedule for [v]: its expiration time and that
    of its alternate are at least as urgent as the render, and so are
    the child expiration times of the fiber it returns to and of the
    alternate of that fiber. *)
Definition settled (h : gmap ptr Fiber) (v : ptr) : Prop :=
  lessUrgent (expirationTime (h !!! v)) render = false /\
  (forall a, alternate (h !!! v) = Some a ->
             lessUrgent (expirationTime (h !!! a)) render = false) /\
  (forall p, return_ (h !!! v) = Some p ->
             urgent h p /\
             forall a, alternate (h !!! p) = Some a -> urgent h a).

(** The visited fibers [K] are in the store [g], return to their
    parents, and those with a matching dependency in [h] are
    settled. *)
Definition quiet (h g : gmap ptr Fiber) (K : list (ptr * list ptr))
    : Prop :=
  forall v pa, (v, pa) ∈ K ->
    present g v /\ return_ (g !!! v) = head pa /\
    (matches h v = true -> settled g v).

(** **** The store only grows *)

Lemma present_insert (h : gmap ptr Fiber) p f x :
  present h x -> present (<[p := f]> h) x.
Proof.
  unfold present. rewrite lookup_insert_is_Some.
  destruct (decide (p = x)); auto.
Qed.

Lemma scheduleAncestors_present n h node h' x :
  scheduleAncestors n render h node = Some h' ->
  present h x -> present h' x.
Proof.
  revert h node. induction n as [|n IH]; intros h node Hrun Hx.
  - destruct node; [done|]. by injection Hrun as <-.
  - destruct node as [y|]; [|by injection Hrun as <-].
    cbn in Hrun.
    destruct (lessUrgent (childExpirationTime (h !!! y)) render).
    + eapply IH; [exact Hrun|].
      destruct (alternate (h !!! y)) as [a|];
        [destruct (lessUrgent _ render)|]; repeat apply present_insert;
        done.
    + destruct (alternate (h !!! y)) as [a|];
        [|by injection Hrun as <-].
      destruct (lessUrgent _ render); [|by injection Hrun as <-].
      eapply IH; [exact Hrun|]. by apply present_insert.
Qed.

Lemma scheduleFiber_present n h fiber h' x :
  scheduleFiber n render h fiber = Some h' -> present h x -> present h' x.
Proof.
  unfold scheduleFiber. intros Hrun Hx.
  eapply scheduleAncestors_present; [exact Hrun|].
  destruct (alternate _) as [a|];
    repeat (destruct (lessUrgent _ render); try apply present_insert);
    done.
Qed.

Lemma visitDependencies_present n fiber deps h h' x :
  visitDependencies n ctx changedBits render fiber deps h = Some h' ->
  present h x -> present h' x.
Proof.
  revert h. induction deps as [|d deps IH]; intros h Hrun Hx.
  - by injection Hrun as <-.
  - cbn in Hrun. destruct (dependencyMatches ctx changedBits d).
    + destruct (scheduleFiber n render h fiber) as [h1|] eqn:H1; [|done].
      cbn in Hrun. eapply IH; [exact Hrun|].
      by eapply scheduleFiber_present.
    + cbn in Hrun. by eapply IH.
Qed.

Lemma walkForest_present n t :
  forall h h' x, walkOver n t h = Some h' -> present h x -> present h' x.
Proof.
  induction t as [|p kids IHk sibs IHs]; intros h h' x Hrun Hx.
  - by injection Hrun as <-.
  - cbn [walkForest] in Hrun.
    destruct (visitOf n h p) as [h1|] eqn:H1; [|done]. cbn in Hrun.
    apply (visitDependencies_present _ _ _ _ _ x) in H1; [|done].
    set (mid := if stops workInProgress h p then Some h1 else _) in Hrun.
    destruct mid as [h2|] eqn:H2; [|done]. cbn in Hrun.
    assert (Hx2 : present h2 x).
    { subst mid. destruct (stops workInProgress h p);
        [by injection H2 as <-|].
      destruct kids as [|c ck cs]; [by injection H2 as <-|].
      eapply IHk; [exact H2|]. by apply present_insert. }
    destruct sibs as [|s sk ss]; [by injection Hrun as <-|].
    eapply IHs; [exact Hrun|]. by apply present_insert.
Qed.

(** **** A scheduled fiber is settled *)

Lemma lessUrgent_raised t : lessUrgent (raised render t) render = false.
Proof.
  unfold raised. destruct (lessUrgent t render) eqn:Ht; [|done].
  by apply lessUrgent_render.
Qed.

Lemma lessUrgent_changes FE FC FR h h' x :
  changes FE FC FR h h' ->
  lessUrgent (expirationTime (h !!! x)) render = false ->
  lessUrgent (expirationTime (h' !!! x)) render = false.
Proof.
  intros Hev Hx. destruct (Hev x) as (_ & _ & [->|[_ ->]] & _); [done|].
  apply lessUrgent_raised.
Qed.

Lemma settled_changes FE FC FR h h' v :
  changes FE FC FR h h' -> ~ FR v -> settled h v -> settled h' v.
Proof.
  intros Hev Hv (He & Ha & Hp).
  pose proof (fun x => shape_alternate _ _ (evolves_shape _ _ _ _ _ _ x Hev))
    as Halt.
  split; [by eapply lessUrgent_changes|]. split.
  - intros a Hva. rewrite Halt in Hva.
    eapply lessUrgent_changes; [exact Hev|by apply Ha].
  - intros p Hvp.
    destruct (Hev v) as (_ & [Hr|Hr] & _); [|done].
    rewrite Hr in Hvp. destruct (Hp p Hvp) as [Hup Hua]. split.
    + by eapply urgentAt_evolves.
    + intros a Hpa. rewrite Halt in Hpa.
      eapply urgentAt_evolves; [exact Hev|by apply Hua].
Qed.

Lemma urgent_written h p x :
  urgent h x -> urgent (write_childExpirationTime p render h) x.
Proof.
  unfold urgentAt. rewrite lookup_write_childExpirationTime.
  destruct (decide (p = x)) as [->|Hne]; [|done].
  intros _. cbn. by apply lessUrgent_render.
Qed.

Lemma scheduleAncestors_settles n h p h' :
  scheduleAncestors n render h (Some p) = Some h' ->
  urgent h' p /\ forall a, alternate (h !!! p) = Some a -> urgent h' a.
Proof.
  destruct n as [|n]; [done|]. cbn [scheduleAncestors].
  assert (Hwritten : forall g x, urgent (write_childExpirationTime x render g) x).
  { intros g x. unfold urgentAt. rewrite lookup_write_childExpirationTime.
    rewrite decide_True by done. cbn. by apply lessUrgent_render. }
  destruct (lessUrgent (childExpirationTime (h !!! p)) render) eqn:Hp.
  - destruct (alternate (h !!! p)) as [a|] eqn:Ha.
    + destruct (lessUrgent
                  (childExpirationTime
                     (write_childExpirationTime p render h !!! a)) render)
        eqn:Hla; intros Hrun;
        pose proof (scheduleAncestors_keeps _ _ _ _ _ Hrun) as Hev.
      * split.
        -- eapply urgentAt_evolves; [exact Hev|]. apply urgent_written.
           apply Hwritten.
        -- intros a' [= <-]. eapply urgentAt_evolves; [exact Hev|].
           apply Hwritten.
      * split.
        -- eapply urgentAt_evolves; [exact Hev|]. apply Hwritten.
        -- intros a' [= <-]. eapply urgentAt_evolves; [exact Hev|].
           exact Hla.
    + intros Hrun.
      pose proof (scheduleAncestors_keeps _ _ _ _ _ Hrun) as Hev.
      split; [|done]. eapply urgentAt_evolves; [exact Hev|].
      apply Hwritten.
  - destruct (alternate (h !!! p)) as [a|] eqn:Ha.
    + destruct (lessUrgent (childExpirationTime (h !!! a)) render) eqn:Hla.
      * intros Hrun.
        pose proof (scheduleAncestors_keeps _ _ _ _ _ Hrun) as Hev.
        split.
        -- eapply urgentAt_evolves; [exact Hev|].
           by apply urgent_written.
        -- intros a' [= <-]. eapply urgentAt_evolves; [exact Hev|].
           apply Hwritten.
      * intros [= <-]. split; [done|]. by intros a' [= <-].
    + intros [= <-]. by split.
Qed.

Lemma scheduleFiber_settles n h v h' :
  scheduleFiber n render h v = Some h' -> settled h' v.
Proof.
  unfold scheduleFiber.
  set (h1 := if lessUrgent (expirationTime (h !!! v)) render then _ else h).
  set (h2 := match alternate (h1 !!! v) with Some a => _ | None => h1 end).
  intros Hrun.
  pose proof (scheduleAncestors_keeps _ _ _ _ _ Hrun) as Hev.
  assert (Hev1 : changes anywhere anywhere nowhere h h1)
    by apply raise_expirationTime_keeps.
  assert (Hev2 : changes anywhere anywhere nowhere h1 h2).
  { subst h2. destruct (alternate (h1 !!! v)) as [a|];
      [apply raise_expirationTime_keeps|apply evolves_refl]. }
  assert (He1 : lessUrgent (expirationTime (h1 !!! v)) render = false).
  { subst h1. rewrite raise_expirationTime_value.
    apply lessUrgent_raised. }
  split; [|split].
  - eapply lessUrgent_changes; [exact Hev|].
    eapply lessUrgent_changes; [exact Hev2|done].
  - intros a Ha.
    rewrite (shape_alternate _ _ (evolves_shape _ _ _ _ _ _ v Hev)) in Ha.
    rewrite (shape_alternate _ _ (evolves_shape _ _ _ _ _ _ v Hev2)) in Ha.
    eapply lessUrgent_changes; [exact Hev|].
    subst h2. rewrite Ha. rewrite raise_expirationTime_value.
    apply lessUrgent_raised.
  - intros p Hp.
    destruct (Hev v) as (_ & [Hr|[]] & _). rewrite Hr in Hp.
    rewrite Hp in Hrun.
    destruct (scheduleAncestors_settles _ _ _ _ Hrun) as [Hup Hua].
    split; [done|]. intros a Ha. apply Hua.
    by rewrite <- (shape_alternate _ _ (evolves_shape _ _ _ _ _ _ p Hev)).
Qed.

Lemma visitDependencies_settles n v deps :
  forall h h',
    visitDependencies n ctx changedBits render v deps h = Some h' ->
    existsb (dependencyMatches ctx changedBits) deps = true ->
    settled h' v.
Proof.
  induction deps as [|d deps IH]; intros h h' Hrun Hm; [done|].
  cbn in Hrun, Hm. destruct (dependencyMatches ctx changedBits d).
  - destruct (scheduleFiber n render h v) as [h1|] eqn:H1; [|done].
    cbn in Hrun.
    eapply settled_changes;
      [eapply visitDependencies_keeps, Hrun|by intros []|].
    by eapply scheduleFiber_settles.
  - cbn in Hrun, Hm. by eapply IH.
Qed.

(** **** After the walk every visited fiber is settled *)

Lemma quiet_changes FE FC FR h g g' K :
  changes FE FC FR g g' ->
  (forall x, present g x -> present g' x) ->
  (forall v pa, (v, pa) ∈ K -> ~ FR v) ->
  quiet h g K -> quiet h g' K.
Proof.
  intros Hev Hpres Hfr Hq v pa Hin.
  destruct (Hq v pa Hin) as (Hp & Hr & Hs).
  split; [by apply Hpres|]. split.
  - destruct (Hev v) as (_ & [->|Hv] & _); [done|].
    by destruct (Hfr v pa Hin).
  - intros Hm. eapply settled_changes; [exact Hev|by eapply Hfr|auto].
Qed.

Lemma quiet_source FE FC FR h h0 g K :
  changes FE FC FR h h0 -> quiet h0 g K -> quiet h g K.
Proof.
  intros Hev Hq v pa Hin. destruct (Hq v pa Hin) as (Hp & Hr & Hs).
  split; [done|]. split; [done|]. intros Hm. apply Hs.
  by rewrite (matched_evolves _ _ _ _ _ _ _ _ _ Hev).
Qed.

Lemma walkForest_settles t :
  forall n h path h',
    lay h t -> NoDup (nodes t ++ path) ->
    (forall p, first t = Some p ->
               present h p /\ return_ (h !!! p) = head path) ->
    walkOver n t h = Some h' ->
    quiet h h' (visits h t path).
Proof.
  induction t as [|p kids IHk sibs IHs];
    intros n h path h' Hlay Hnd Hroot Hrun.
  { intros v pa Hin. by apply elem_of_nil in Hin. }
  destruct Hlay as (Hchild & Hsib & Hlk & Hls).
  destruct (NoDup_node _ _ _ _ Hnd)
    as (Hndk & Hnds & Hpk & Hps & Hpp & Hks & Hkp & Hsp).
  destruct (Hroot p eq_refl) as [Hpres Hret].
  cbn [walkForest] in Hrun.
  destruct (visitOf n h p) as [h1|] eqn:H1; [|done]. cbn in Hrun.
  pose proof (visitDependencies_keeps _ _ _ _ _ _ _ _ H1) as Hev1.
  set (mid := if stops workInProgress h p then Some h1 else _) in Hrun.
  destruct mid as [h2|] eqn:H2; [|done]. cbn in Hrun.
  (* the visit of [p] *)
  assert (Hq1 : quiet h h1 [(p, path)]).
  { intros v pa Hin. apply list_elem_of_singleton in Hin as [= -> ->].
    split; [by eapply visitDependencies_present|]. split.
    - destruct (Hev1 p) as (_ & [->|[]] & _). done.
    - intros Hm. by eapply visitDependencies_settles. }
  (* the children *)
  assert (Hkids : changes anywhere anywhere (fun x => x ∈ nodes kids) h1 h2
                  /\ (forall x, present h1 x -> present h2 x) /\
                  quiet h h2
                    (if stops workInProgress h p then []
                     else visits h kids (p :: path))).
  { subst mid. destruct (stops workInProgress h p).
    { injection H2 as <-. split; [apply evolves_refl|].
      split; [done|]. intros v pa Hin. by apply elem_of_nil in Hin. }
    destruct kids as [|c ck cs].
    { injection H2 as <-. split; [apply evolves_refl|].
      split; [done|]. intros v pa Hin. by apply elem_of_nil in Hin. }
    assert (Hevc : changes anywhere anywhere
                           (fun x => x ∈ nodes (Node c ck cs))
                           h1 (write_return c (Some p) h1)).
    { eapply evolves_weaken; [| | |apply evolves_write_return];
        try done. intros x <-. apply elem_of_nodes_head. }
    assert (Hevhc : changes anywhere anywhere
                            (fun x => x ∈ nodes (Node c ck cs))
                            h (write_return c (Some p) h1)).
    { eapply evolves_trans; [|exact Hevc].
      eapply evolves_weaken; [| | |exact Hev1]; done. }
    split; [|split].
    - eapply evolves_trans; [exact Hevc|].
      by eapply walkForest_keeps.
    - intros x Hx. eapply walkForest_present; [exact H2|].
      by apply present_insert.
    - eapply quiet_source; [exact Hevhc|].
      rewrite <- (reached_evolves _ _ _ _ _ _ _ _ Hevhc).
      eapply IHk; [| |  |exact H2].
      + eapply lay_evolves; [exact Hevhc|done].
      + done.
      + intros c' [= <-]. split.
        * unfold present, write_return. rewrite lookup_insert_eq. eauto.
        * rewrite lookup_write_return. by rewrite decide_True. }
  destruct Hkids as (Hev2 & Hpres2 & Hq2).
  assert (Hq12 : quiet h h2 [(p, path)]).
  { eapply quiet_changes; [exact Hev2|exact Hpres2| |exact Hq1].
    intros v pa Hin. by apply list_elem_of_singleton in Hin as [= -> ->]. }
  (* the siblings *)
  assert (Hsibs : changes anywhere anywhere (fun x => x ∈ nodes sibs) h2 h'
                  /\ (forall x, present h2 x -> present h' x) /\
                  quiet h h' (visits h sibs path)).
  { destruct sibs as [|s sk ss].
    { injection Hrun as <-. split; [apply evolves_refl|].
      split; [done|]. intros v pa Hin. by apply elem_of_nil in Hin. }
    set (h2' := write_return s (return_ (h2 !!! p)) h2) in *.
    assert (Hevs : changes anywhere anywhere
                           (fun x => x ∈ nodes (Node s sk ss)) h2 h2').
    { eapply evolves_weaken; [| | |apply evolves_write_return];
        try done. intros x <-. apply elem_of_nodes_head. }
    assert (Hevhs : changes anywhere anywhere anywhere h h2').
    { eapply evolves_trans;
        [eapply evolves_weaken; [| | |exact Hev1]; done|].
      eapply evolves_trans;
        [eapply evolves_weaken; [| | |exact Hev2]; done|].
      eapply evolves_weaken; [| | |exact Hevs]; done. }
    split; [|split].
    - eapply evolves_trans; [exact Hevs|]. by eapply walkForest_keeps.
    - intros x Hx. eapply walkForest_present; [exact Hrun|].
      by apply present_insert.
    - eapply quiet_source; [exact Hevhs|].
      rewrite <- (reached_evolves _ _ _ _ _ _ _ _ Hevhs).
      eapply IHs; [| | |exact Hrun].
      + eapply lay_evolves; [exact Hevhs|done].
      + done.
      + intros s' [= <-]. split.
        * unfold present, h2', write_return. rewrite lookup_insert_eq.
          eauto.
        * unfold h2'. rewrite lookup_write_return.
          rewrite decide_True by done. cbn.
          destruct (Hq12 p path) as (_ & -> & _); [|done].
          by apply list_elem_of_singleton. }
  destruct Hsibs as (Hev3 & Hpres3 & Hq3).
  intros v pa Hin. cbn [reached] in Hin.
  apply elem_of_cons in Hin as [[= -> ->]|Hin].
  - eapply (quiet_changes _ _ _ _ _ _ [(p, path)]);
      [exact Hev3|exact Hpres3| |exact Hq12|by apply list_elem_of_singleton].
    intros v pa Hin. by apply list_elem_of_singleton in Hin as [= -> ->].
  - apply elem_of_app in Hin as [Hin|Hin]; [|by apply Hq3].
    eapply (quiet_changes _ _ _ _ _ _ _ Hev3 Hpres3); [|exact Hq2|exact Hin].
    intros v' pa' Hin'. destruct (stops workInProgress h p);
      [by apply elem_of_nil in Hin'|].
    apply reached_nodes in Hin' as [Hv' _]. by apply Hks.
Qed.

(** **** A walk over settled fibers writes nothing *)

Lemma write_return_same (g : gmap ptr Fiber) c r :
  present g c -> return_ (g !!! c) = r -> write_return c r g = g.
Proof.
  intros [f Hf] Hr. unfold write_return.
  rewrite (lookup_total_correct _ _ _ Hf) in Hr |- *.
  apply insert_id. rewrite Hf. f_equal. destruct f. cbn in Hr.
  by subst r.
Qed.

Lemma scheduleFiber_quiet n g v :
  (1 <= n)%nat -> settled g v -> scheduleFiber n render g v = Some g.
Proof.
  intros Hn (He & Ha & Hp). unfold scheduleFiber. rewrite He.
  assert (Halt : match alternate (g !!! v) with
                 | Some a =>
                   if lessUrgent (expirationTime (g !!! a)) render
                   then write_expirationTime a render g else g
                 | None => g
                 end = g).
  { destruct (alternate (g !!! v)) as [a|]; [|done].
    by rewrite (Ha a eq_refl). }
  rewrite Halt.
  destruct (return_ (g !!! v)) as [p|] eqn:Hret;
    [|by destruct n].
  destruct n as [|n]; [lia|]. cbn [scheduleAncestors].
  destruct (Hp p eq_refl) as [Hup Hua]. unfold urgentAt in Hup.
  rewrite Hup.
  destruct (alternate (g !!! p)) as [a|]; [|done].
  specialize (Hua a eq_refl). unfold urgentAt in Hua. by rewrite Hua.
Qed.

Lemma visitDependencies_quiet n g v deps :
  (1 <= n)%nat ->
  (existsb (dependencyMatches ctx changedBits) deps = true -> settled g v) ->
  visitDependencies n ctx changedBits render v deps g = Some g.
Proof.
  intros Hn. induction deps as [|d deps IH]; intros Hs; [done|].
  cbn in Hs |- *. destruct (dependencyMatches ctx changedBits d).
  - rewrite scheduleFiber_quiet by auto. cbn. apply IH. auto.
  - cbn. apply IH. auto.
Qed.

Lemma walkForest_quiet n t :
  (1 <= n)%nat ->
  forall g path, quiet g g (visits g t path) -> walkOver n t g = Some g.
Proof.
  intros Hn. induction t as [|p kids IHk sibs IHs]; intros g path Hq;
    [done|].
  cbn [walkForest]. cbn [reached] in Hq.
  destruct (Hq p path) as (_ & Hret & Hs);
    [apply elem_of_cons; by left|].
  unfold visitStore. rewrite visitDependencies_quiet by done. cbn.
  assert (Hkids : (if stops workInProgress g p then Some g
                   else match kids with
                        | Node c _ _ =>
                          walkOver n kids (write_return c (Some p) g)
                        | Leaf => Some g
                        end) = Some g).
  { destruct (stops workInProgress g p) eqn:Hstop; [done|].
    destruct kids as [|c ck cs]; [done|].
    assert (Hsub : quiet g g (visits g (Node c ck cs) (p :: path))).
    { intros v pa Hin. apply Hq. apply elem_of_cons. right.
      apply elem_of_app. by left. }
    destruct (Hsub c (p :: path)) as (Hc & Hcr & _);
      [cbn [reached]; apply elem_of_cons; by left|].
    rewrite write_return_same by done. by apply (IHk _ (p :: path)). }
  rewrite Hkids. cbn.
  destruct sibs as [|s sk ss]; [done|].
  assert (Hsub : quiet g g (visits g (Node s sk ss) path)).
  { intros v pa Hin. apply Hq. apply elem_of_cons. right.
    apply elem_of_app. by right. }
  destruct (Hsub s path) as (Hc & Hcr & _);
    [cbn [reached]; apply elem_of_cons; by left|].
  rewrite write_return_same by congruence. by apply (IHs _ path).
Qed.

End Walk.

Local Open Scope nat_scope.

(** Propagating the same change twice is the same as propagating
    it once: on a well-formed tree, with a render time that is not
    [NoWork], a run of [propagateContextChange] on the store that a
    first run left returns, and leaves that store as it is. *)
Theorem propagateContextChange_twice
    (workInProgress : ptr) (ctx : nat)
    (changedBits renderExpirationTime : Z)
    (h : gmap ptr Fiber) (t : forest) (ancestors : list ptr)
    (fuel : nat) (h' : gmap ptr Fiber) :
  renderExpirationTime <> NoWork ->
  wellFormed workInProgress h t ancestors ->
  propagateContextChange fuel h workInProgress ctx changedBits
                         renderExpirationTime = Some h' ->
  (exists fuel',
     propagateContextChange fuel' h' workInProgress ctx changedBits
                            renderExpirationTime = Some h') /\
  (forall fuel' h'',
     propagateContextChange fuel' h' workInProgress ctx changedBits
                            renderExpirationTime = Some h'' ->
     h'' = h').
Proof.
  intros Hrender Hwf Hfirst.
  assert (Hagain : exists fuel',
             propagateContextChange fuel' h' workInProgress ctx
               changedBits renderExpirationTime = Some h').
  2:{ split; [done|]. destruct Hagain as [fuel' Hagain].
      intros fuel2 h2 Hrun2.
      by apply (propagateContextChange_fuel _ _ _ _ _ _ _ _ _
                  Hrun2 Hagain). }
  destruct Hwf as [Hchild Hlay Hnd Hch].
  set (path := workInProgress :: ancestors) in *.
  set (h0 := match first t with
             | Some c => write_return c (Some workInProgress) h
             | None => h
             end).
  assert (Hev0 : evolves renderExpirationTime nowhere nowhere
                         (fun x => first t = Some x) h h0).
  { subst h0. destruct (first t) as [c|]; [|apply evolves_refl].
    eapply evolves_weaken; [| | |apply evolves_write_return]; try done.
    by intros x <-. }
  assert (Hin : forall c, first t = Some c -> c ∈ nodes t).
  { intros c Hc. destruct t; [done|]. injection Hc as <-.
    apply elem_of_nodes_head. }
  assert (Hndt : NoDup (nodes t) /\ forall x, x ∈ nodes t -> x ∉ path).
  { apply NoDup_app in Hnd. tauto. }
  destruct Hndt as [Hndt Hdisj].
  assert (Hlay0 : lay h0 t) by (eapply lay_evolves; [exact Hev0|done]).
  destruct (walkForest_walks workInProgress ctx changedBits
              renderExpirationTime t h0 path
              (length path + length (nodes t)))
    as (h1 & Hrun & _); [done|done| |done|].
  { intros c Hc. split.
    - subst h0. rewrite Hc, lookup_write_return.
      by rewrite decide_True.
    - assert (Hret : return_ (h0 !!! workInProgress)
                     = return_ (h !!! workInProgress)).
      { destruct (Hev0 workInProgress) as (_ & [Hr|Hr] & _); [done|].
        destruct (Hdisj workInProgress (Hin _ Hr)).
        apply elem_of_cons. by left. }
      rewrite Hret. eapply chain_evolves; [exact Hev0| |done].
      intros x Hx Hc'. apply (Hdisj x (Hin _ Hc')).
      apply elem_of_cons. by right. }
  assert (Hwip : workInProgress ∉ nodes t).
  { intros Hw0. apply (Hdisj _ Hw0). apply elem_of_cons. by left. }
  destruct (propagateContextChange_walkForest workInProgress ctx
              changedBits renderExpirationTime
              t _ h h1 Hchild Hlay Hndt Hwip Hrun)
    as [fuel1 Hfuel1].
  assert (h1 = h') as ->
    by apply (propagateContextChange_fuel _ _ _ _ _ _ _ _ _
                Hfuel1 Hfirst).
  pose proof (walkForest_keeps _ _ _ _ _ _ _ _ Hrun) as Hev1.
  assert (Hev : evolves renderExpirationTime anywhere anywhere anywhere
                        h h').
  { eapply evolves_trans;
      [eapply evolves_weaken; [| | |exact Hev0]; done|].
    eapply evolves_weaken; [| | |exact Hev1]; done. }
  (* after the first run the visited fibers are settled *)
  assert (Hq : quiet ctx changedBits renderExpirationTime h' h'
                 (reached workInProgress h' t path)).
  { rewrite (reached_evolves _ _ _ _ _ _ _ _ Hev1).
    assert (Hq0 : quiet ctx changedBits renderExpirationTime h0 h'
                    (reached workInProgress h0 t path)).
    { eapply walkForest_settles; [done|done|done| |exact Hrun].
      intros c Hc. subst h0. rewrite Hc. split.
      - unfold present, write_return. rewrite lookup_insert_eq. eauto.
      - rewrite lookup_write_return. by rewrite decide_True. }
    intros v pa Hv. destruct (Hq0 v pa Hv) as (Hp & Hr & Hs).
    split; [done|]. split; [done|]. intros Hm. apply Hs.
    by rewrite <- (matched_evolves _ _ _ _ _ _ _ _ _ Hev1). }
  apply (propagateContextChange_walkForest workInProgress ctx
           changedBits renderExpirationTime t 1 h' h').
  - by rewrite (shape_child _ _
                  (evolves_shape _ _ _ _ _ _ workInProgress Hev)).
  - eapply lay_evolves; [exact Hev|done].
  - done.
  - done.
  - assert (Hsame : match first t with
                    | Some c => write_return c (Some workInProgress) h'
                    | None => h'
                    end = h').
    { destruct t as [|c ck cs]; [done|]. cbn [first].
      destruct (Hq c path) as (Hc & Hcr & _);
        [cbn [reached]; apply elem_of_cons; by left|].
      by apply write_return_same. }
    rewrite Hsame. by eapply walkForest_quiet.
Qed.

Lemma propagateContextChange_twice_witness :
  exists h',
    propagateContextChange 100 page 0 5 1%Z 3%Z = Some h' /\
    (exists fuel',
       propagateContextChange fuel' h' 0 5 1%Z 3%Z = Some h') /\
    (forall fuel' h'',
       propagateContextChange fuel' h' 0 5 1%Z 3%Z = Some h'' ->
       h'' = h').
Proof.
  destruct (propagateContextChange 100 page 0 5 1%Z 3%Z) as [h'|] eqn:Hrun;
    [|by vm_compute in Hrun].
  exists h'. split; [done|].
  apply (propagateContextChange_twice 0 5 1%Z 3%Z page pageTree [10] 100 h');
    [done|exact page_wellFormed|exact Hrun].
Defined.

End PropagationTwice.

(** ** Nested providers and the reads of a render *)

Module NewContextRender.
Import ReactFiber ReactTypes ReactFiberStack ReactFiberNewContext.
Import NewContextFacts.

(** [pushProvider] for each provider on the way down, outermost
    first. *)
Definition pushProviders (cfg : Config) (providers : list (Fiber * Z))
    (s : State) : State :=
  foldl (fun s p => pushProvider cfg p.1 p.2 s) s providers.

(** [popProvider] for each provider on the way up. *)
Definition popProviders (cfg : Config) (providers : list Fiber)
    (s : State) : State :=
  foldl (fun s p => popProvider cfg p s) s providers.

(** Two states with the same cursors and the same value and
    changed-bits fields on every context. *)
Definition sameCells (s s' : State) : Prop :=
  valueCursor s = valueCursor s' /\
  changedBitsCursor s = changedBitsCursor s' /\
  forall c,
    _currentValue (contexts s !!! c) = _currentValue (contexts s' !!! c) /\
    _currentValue2 (contexts s !!! c)
    = _currentValue2 (contexts s' !!! c) /\
    _changedBits (contexts s !!! c) = _changedBits (contexts s' !!! c) /\
    _changedBits2 (contexts s !!! c) = _changedBits2 (contexts s' !!! c).

Lemma sameCells_refl s : sameCells s s.
Proof. by repeat split. Qed.

Lemma sameCells_trans s1 s2 s3 :
  sameCells s1 s2 -> sameCells s2 s3 -> sameCells s1 s3.
Proof.
  intros (Hv1 & Hb1 & H1) (Hv2 & Hb2 & H2).
  split; [congruence|]. split; [congruence|].
  intros c. destruct (H1 c) as (? & ? & ? & ?).
  destruct (H2 c) as (? & ? & ? & ?). repeat split; congruence.
Qed.

Lemma popProvider_sameCells cfg p s s' :
  sameCells s s' ->
  sameCells (popProvider cfg p s) (popProvider cfg p s').
Proof.
  intros (Hv & Hb & Hc). unfold popProvider, sameCells.
  cbn [valueCursor changedBitsCursor contexts]. rewrite Hv, Hb.
  split; [done|]. split; [done|]. intros c.
  destruct (decide (c = type_context p)) as [->|Hne].
  - rewrite !lookup_total_insert_eq.
    destruct (Hc (type_context p)) as (? & ? & ? & ?).
    destruct (isPrimaryRenderer cfg); cbn; repeat split; congruence.
  - rewrite !lookup_total_insert_ne by done. apply Hc.
Qed.

Lemma pop_push_sameCells cfg p changedBits s :
  sameCells (popProvider cfg p (pushProvider cfg p changedBits s)) s.
Proof.
  unfold popProvider, pushProvider, sameCells.
  destruct (isPrimaryRenderer cfg) eqn:Hp;
    cbn [contexts valueCursor changedBitsCursor];
    rewrite ?Hp, ?lookup_total_insert_eq, ?pop_push, ?current_push;
    (split; [done|]; split; [done|]); intros c;
    (destruct (decide (c = type_context p)) as [->|Hne];
     [rewrite lookup_total_insert_eq; by cbn
     |by rewrite !lookup_total_insert_ne by done]).
Qed.

Lemma popProviders_app cfg l1 l2 s :
  popProviders cfg (l1 ++ l2) s
  = popProviders cfg l2 (popProviders cfg l1 s).
Proof. apply foldl_app. Qed.

Lemma popProviders_sameCells cfg l s s' :
  sameCells s s' ->
  sameCells (popProviders cfg l s) (popProviders cfg l s').
Proof.
  revert s s'. induction l as [|p l IH]; intros s s' Hs; [done|].
  cbn. by apply IH, popProvider_sameCells.
Qed.

(** Providers nest: after the providers on a path were pushed from the
    outermost to the innermost and popped in the reverse order, both
    cursors and the value and changed-bits fields of every context are
    as before, also when several providers of the path provide the
    same context. *)
Theorem pushProviders_popProviders_roundtrip
    (cfg : Config) (providers : list (Fiber * Z)) (s : State) :
  sameCells
    (popProviders cfg (reverse providers.*1)
                  (pushProviders cfg providers s))
    s.
Proof.
  revert s. induction providers as [|[p b] ps IH]; intros s;
    [apply sameCells_refl|].
  cbn [fmap list_fmap fst]. rewrite reverse_cons, popProviders_app.
  cbn [pushProviders foldl fst snd].
  eapply sameCells_trans; [|apply (pop_push_sameCells cfg p b s)].
  cbn [popProviders foldl]. apply popProvider_sameCells, IH.
Qed.

(** *** The reads of a render *)

(** The bits that a read records. *)
Definition resolvedBits (observedBits : ObservedBits) : Z :=
  match observedBits with
  | ObservedNumber n => n
  | _ => maxSigned31BitInt
  end.

(** The reads of a render, in order, with the values they return; a
    read that throws ends the render. *)
Fixpoint readContexts (cfg : Config) (reads : list (nat * ObservedBits))
    (s : State) : JS.completion State (list JS.value) :=
  match reads with
  | [] => JS.Normal s []
  | (c, bits) :: rest =>
    match readContext cfg c bits s with
    | JS.Throw s' err => JS.Throw s' err
    | JS.Normal s' v =>
      match readContexts cfg rest s' with
      | JS.Throw s'' err => JS.Throw s'' err
      | JS.Normal s'' vs => JS.Normal s'' (v :: vs)
      end
    end
  end.

(** [c] has a record in the list of [f] that observes [bits] or all
    bits. *)
Definition recorded (s : State) (f : ptr) (c : nat) (bits : Z) : Prop :=
  exists d, d ∈ firstContextDependency (fibers s !!! f) /\
            context d = c /\
            (observedBits d = bits \/ observedBits d = maxSigned31BitInt).

(** What holds between [prepareToReadContext] and the end of the
    render of [f]. *)
Definition rendering (f : ptr) (s : State) : Prop :=
  currentlyRenderingFiber s = Some f /\
  (lastContextDependency s = None ->
   firstContextDependency (fibers s !!! f) = []) /\
  (forall c, lastContextWithAllBitsObserved s = Some c ->
             recorded s f c maxSigned31BitInt).

Lemma prepareToReadContext_rendering cfg f t s :
  rendering f (prepareToReadContext cfg f t s).1.
Proof.
  unfold prepareToReadContext. cbn [fibers].
  destruct (firstContextDependency (fibers s !!! f)) as [|d rest] eqn:Hd.
  - cbn. by repeat split.
  - cbn. repeat split; [|done]. intros _.
    unfold with_fibers, write_firstContextDependency. cbn [fibers].
    by rewrite lookup_total_insert_eq.
Qed.

(** The state after a record was written: [l] is the new list of
    [f]. *)
Lemma rendering_record f c item l s1 s :
  fibers s1 = fibers s ->
  currentlyRenderingFiber s1 = Some f ->
  context item = c ->
  item ∈ l ->
  (forall d, d ∈ firstContextDependency (fibers s !!! f) -> d ∈ l) ->
  (forall c', lastContextWithAllBitsObserved s1 = Some c' ->
              c' = c /\ observedBits item = maxSigned31BitInt \/
              recorded s f c' maxSigned31BitInt) ->
  let s' := with_lastContextDependency (Some item)
              (with_fibers (write_firstContextDependency f l (fibers s1))
                           s1) in
  rendering f s' /\
  (forall c' b, recorded s f c' b -> recorded s' f c' b) /\
  (forall b, observedBits item = b \/
             observedBits item = maxSigned31BitInt ->
             recorded s' f c b).
Proof.
  intros Hfs Hcf Hc Hin Hkeep Hlast s'.
  assert (Hl : firstContextDependency (fibers s' !!! f) = l).
  { subst s'. cbn. unfold write_firstContextDependency.
    by rewrite lookup_total_insert_eq. }
  assert (Hold : forall c' b, recorded s f c' b -> recorded s' f c' b).
  { intros c' b (d & Hd & Hdc & Hb). exists d. rewrite Hl. auto. }
  assert (Hnew : forall b, observedBits item = b \/
                           observedBits item = maxSigned31BitInt ->
                           recorded s' f c b).
  { intros b Hb. exists item. by rewrite Hl. }
  split; [|done]. split; [done|]. split.
  - subst s'. by cbn.
  - intros c' Hc'. destruct (Hlast c' Hc') as [[-> Hmax]|Hr]; auto.
Qed.

Lemma readContext_rendering cfg f c bits s :
  rendering f s ->
  exists s',
    readContext cfg c bits s
    = JS.Normal s' (currentValue cfg (contexts s !!! c)) /\
    rendering f s' /\
    contexts s' = contexts s /\
    (forall c' b, recorded s f c' b -> recorded s' f c' b) /\
    (observesNothing bits = false -> recorded s' f c (resolvedBits bits)).
Proof.
  intros (Hf & Hnil & Hall). unfold readContext.
  destruct (bool_decide (lastContextWithAllBitsObserved s = Some c))
    eqn:Hlast.
  { exists s. repeat split; try done. intros _.
    apply bool_decide_eq_true in Hlast.
    destruct (Hall c Hlast) as (d & Hd & Hc & Hb).
    exists d. repeat split; try done. right. by destruct Hb. }
  destruct (observesNothing bits) eqn:Hnone.
  { exists s. by repeat split. }
  set (item := mkContextDependency c _).
  assert (Hitem : observedBits item = resolvedBits bits \/
                  observedBits item = maxSigned31BitInt).
  { subst item. cbn. destruct bits as [|b|n]; cbn; [by left|by left|].
    destruct (n =? maxSigned31BitInt); [by right|by left]. }
  assert (Hmax : observesAll bits = true ->
                 observedBits item = maxSigned31BitInt).
  { subst item. cbn. destruct bits as [|b|n]; cbn; try done.
    by intros ->. }
  set (s1 := if observesAll bits then _ else s).
  assert (Hs1 : fibers s1 = fibers s /\ contexts s1 = contexts s /\
                lastContextDependency s1 = lastContextDependency s /\
                currentlyRenderingFiber s1 = Some f).
  { subst s1. by destruct (observesAll bits). }
  destruct Hs1 as (Hfs & Hcs & Hld & Hcf). rewrite Hld, Hcf.
  assert (Hlast1 : forall c', lastContextWithAllBitsObserved s1 = Some c' ->
                    c' = c /\ observedBits item = maxSigned31BitInt \/
                    recorded s f c' maxSigned31BitInt).
  { subst s1. destruct (observesAll bits) eqn:Hobs; cbn; intros c' Hc'.
    - left. injection Hc' as <-. auto.
    - right. by apply Hall. }
  destruct (lastContextDependency s) as [ld|] eqn:Hl.
  - destruct (rendering_record f c item
                (firstContextDependency (fibers s1 !!! f) ++ [item]) s1 s)
      as (Hr & Hold & Hnew); try done.
    { apply elem_of_app. right. by apply list_elem_of_singleton. }
    { intros d Hd. rewrite Hfs. apply elem_of_app. by left. }
    eexists. split; [|split; [exact Hr|]].
    + cbn. by rewrite Hcs.
    + split; [by cbn|]. split; [done|]. intros _. by apply Hnew.
  - destruct (rendering_record f c item [item] s1 s)
      as (Hr & Hold & Hnew); try done.
    { by apply list_elem_of_singleton. }
    { intros d Hd. rewrite (Hnil eq_refl) in Hd.
      by apply elem_of_nil in Hd. }
    eexists. split; [|split; [exact Hr|]].
    + cbn. by rewrite Hcs.
    + split; [by cbn|]. split; [done|]. intros _. by apply Hnew.
Qed.

Lemma readContexts_rendering cfg f reads :
  forall s, rendering f s ->
  exists s',
    readContexts cfg reads s
    = JS.Normal s' ((fun r => currentValue cfg (contexts s !!! r.1))
                      <$> reads) /\
    rendering f s' /\
    contexts s' = contexts s /\
    (forall c' b, recorded s f c' b -> recorded s' f c' b) /\
    (forall c bits, (c, bits) ∈ reads -> observesNothing bits = false ->
                    recorded s' f c (resolvedBits bits)).
Proof.
  induction reads as [|[c bits] reads IH]; intros s Hs.
  - exists s. do 4 (split; [done|]). intros c bits Hin.
    by apply elem_of_nil in Hin.
  - destruct (readContext_rendering cfg f c bits s Hs)
      as (s1 & Hrun1 & Hs1 & Hc1 & Hkeep1 & Hnew1).
    destruct (IH s1 Hs1) as (s2 & Hrun2 & Hs2 & Hc2 & Hkeep2 & Hnew2).
    exists s2. cbn [readContexts]. rewrite Hrun1, Hrun2, Hc1.
    split; [done|]. split; [done|]. split; [congruence|]. split.
    + intros c' b Hr. by apply Hkeep2, Hkeep1.
    + intros c' bits' Hin Hobs.
      apply elem_of_cons in Hin as [[= -> ->]|Hin]; [|by apply Hnew2].
      by apply Hkeep2, Hnew1.
Qed.

(** After [prepareToReadContext] the reads of the render all return,
    each with the current value of its context, and at the end every
    read that observes something has a record in the list of the
    fiber, for its own bits or for all bits: a read that is skipped
    because the context is observed with all bits is covered by the
    record that says so. *)
Theorem readContexts_recorded
    (cfg : Config) (workInProgress : ptr) (renderExpirationTime : Z)
    (reads : list (nat * ObservedBits)) (s : State) :
  let s0 := (prepareToReadContext cfg workInProgress
                                  renderExpirationTime s).1 in
  exists s',
    readContexts cfg reads s0
    = JS.Normal s' ((fun r => currentValue cfg (contexts s !!! r.1))
                      <$> reads) /\
    forall c bits,
      (c, bits) ∈ reads -> observesNothing bits = false ->
      recorded s' workInProgress c (resolvedBits bits).
Proof.
  intros s0.
  destruct (readContexts_rendering cfg workInProgress reads s0
              (prepareToReadContext_rendering cfg workInProgress
                 renderExpirationTime s))
    as (s' & Hrun & _ & _ & _ & Hnew).
  exists s'. split; [|done]. rewrite Hrun. do 2 f_equal.
  subst s0. unfold prepareToReadContext.
  by destruct (firstContextDependency _).
Qed.

(** *** A pushed change and the next render *)

Lemma fibers_pushProvider cfg p b s :
  fibers (pushProvider cfg p b s) = fibers s.
Proof. unfold pushProvider. by destruct (isPrimaryRenderer cfg). Qed.

(** A fiber with a dependency that [propagateContextChange] matches
    against a change reports a pending context when it is rendered
    while the provider is pushed with these changed bits. *)
Theorem prepareToReadContext_pending
    (cfg : Config) (provider : Fiber) (changedBits : Z)
    (workInProgress : ptr) (renderExpirationTime : Z) (s : State) :
  existsb (dependencyMatches (type_context provider) changedBits)
          (firstContextDependency (fibers s !!! workInProgress)) = true ->
  (prepareToReadContext cfg workInProgress renderExpirationTime
                        (pushProvider cfg provider changedBits s)).2
  = true.
Proof.
  intros Hm. unfold prepareToReadContext. cbn [fibers].
  rewrite fibers_pushProvider.
  destruct (firstContextDependency (fibers s !!! workInProgress))
    as [|d rest]; [done|].
  cbn [snd with_fibers contexts].
  apply existsb_exists in Hm as (d0 & Hin & Hd0).
  apply existsb_exists. exists d0. split; [done|].
  unfold dependencyMatches in Hd0.
  apply andb_true_iff in Hd0 as [Hc Hb].
  apply Nat.eqb_eq in Hc. rewrite Hc.
  destruct (pushProvider_installs cfg provider changedBits s) as [_ ->].
  apply negb_true_iff, Z.eqb_neq in Hb.
  apply andb_true_iff. split; apply negb_true_iff, Z.eqb_neq.
  - intros ->. unfold JS.bitAnd in Hb. change (JS.int32 0) with 0 in Hb.
    by rewrite Z.land_0_r in Hb.
  - unfold JS.bitAnd in Hb |- *. by rewrite Z.land_comm.
Qed.

Definition themeProvider : Fiber :=
  mkFiber ContextProvider 5%nat None (Some 1%nat) None None 0 0 []
          (JS.String "dark").

Definition themeConsumer : Fiber :=
  mkFiber ContextConsumer 1%nat None None None None 0 0
          [mkContextDependency 5%nat 3] JS.Undefined.

Lemma prepareToReadContext_pending_witness :
  (prepareToReadContext primaryConfig 1%nat 3
     (pushProvider primaryConfig themeProvider 2
        (initialState ∅ {[ 1%nat := themeConsumer ]}))).2 = true.
Proof.
  apply (prepareToReadContext_pending primaryConfig themeProvider 2
           1%nat 3 (initialState ∅ {[ 1%nat := themeConsumer ]})).
  reflexivity.
Defined.

(** The changed bits and the observed bits are wrapped to 32 bits
    before they are compared: a dependency that observes bit 32 alone
    is not pending, whatever changed. *)
Example prepareToReadContext_wraps :
  let consumer :=
    mkFiber ContextConsumer 1%nat None None None None 0 0
            [mkContextDependency 5%nat (2 ^ 32)] JS.Undefined in
  (prepareToReadContext primaryConfig 1%nat 3
     (pushProvider primaryConfig themeProvider (-1)
        (initialState ∅ {[ 1%nat := consumer ]}))).2 = false.
Proof. vm_compute. reflexivity. Qed.

(** *** The range of the changed bits *)

Lemma int32_range z : - 2 ^ 31 <= JS.int32 z < 2 ^ 31.
Proof.
  unfold JS.int32. pose proof (Z.mod_pos_bound z (2 ^ 32) eq_refl).
  destruct (2 ^ 31 <=? z mod 2 ^ 32) eqn:Hk; lia.
Qed.

Definition isFinite (x : spec_float) : bool :=
  match x with
  | S754_nan | S754_infinity _ => false
  | _ => true
  end.

(** The changed bits are a signed 32-bit integer whatever the
    comparator returns, and a comparator result that is [NaN] or an
    infinity counts as no change. *)
Theorem calculateChangedBits_int32 `{JS.Coercions} (ctx : ReactContext)
    (newValue oldValue : JS.value) :
  - 2 ^ 31 <= calculateChangedBits ctx newValue oldValue < 2 ^ 31 /\
  (forall f, _calculateChangedBits ctx = Some f ->
             isFinite (f oldValue newValue) = false ->
             calculateChangedBits ctx newValue oldValue = 0).
Proof.
  rewrite calculateChangedBits_sameValue. split.
  - destruct (JS.sameValue oldValue newValue); [lia|].
    destruct (_calculateChangedBits ctx); [apply int32_range|lia].
  - intros f -> Hf. destruct (JS.sameValue oldValue newValue); [done|].
    by destruct (f oldValue newValue).
Qed.

(** A comparator that divides by a count that is zero. *)
Definition ratioChanged : ReactContext :=
  mkReactContext (Some (fun _ _ => S754_infinity false))
                 JS.Undefined JS.Undefined 0 0 None None.

Lemma calculateChangedBits_int32_witness :
  @calculateChangedBits nanCoercions ratioChanged
     (JS.String "dark") (JS.String "light") = 0.
Proof.
  apply (proj2 (@calculateChangedBits_int32 nanCoercions ratioChanged
                  (JS.String "dark") (JS.String "light"))
           (fun _ _ => S754_infinity false)); reflexivity.
Defined.

End NewContextRender.

(** ** The injection into the devtools hook *)

Module DevToolsInjectionFacts.
Import ReactFiberDevToolsHook ReactFiberDevToolsInjection DevToolsFacts.

Section Injection.
Context {W : Type} (env : Env W).

(** Without callbacks the wrappers do nothing. *)
Lemma call_no_callbacks id c (s : State W) :
  call env (mkHooks W None id None None) c s = JS.Normal s tt.
Proof.
  destruct c; cbn; [|done|done].
  unfold onScheduleRoot. cbn. by destruct (__DEV__ env).
Qed.

Lemma session_no_callbacks id cs (s : State W) :
  session env (mkHooks W None id None None) cs s = JS.Normal s tt.
Proof.
  induction cs as [|c cs IH]; [done|]. cbn [session].
  by rewrite call_no_callbacks.
Qed.

(** Whether the injection installed callbacks. *)
Definition accepted (globalHook : option (GlobalHook W))
    (internals : JS.value) (w : W) : bool :=
  match globalHook with
  | None => false
  | Some hook =>
    negb (isDisabled hook) && supportsFiber hook &&
    match inject hook internals w with
    | JS.Normal _ _ => true
    | JS.Throw _ _ => false
    end
  end.

(** An injection that is refused, because there is no hook, the hook
    is disabled or does not support fibers, or because [inject]
    throws, installs no callback: the reconciler then runs its whole
    session without a call into the host. *)
Theorem refused_injection_installs_nothing
    (globalHook : option (GlobalHook W)) (internals : JS.value) (w : W)
    (cs : list Call) :
  accepted globalHook internals w = false ->
  let m := (injectInternals env globalHook internals (loaded w)).1 in
  session env (hooks m) cs (state m) = JS.Normal (state m) tt.
Proof.
  intros Hacc m. subst m. unfold injectInternals, accepted in *.
  destruct globalHook as [hook|]; [|apply session_no_callbacks].
  destruct (isDisabled hook); [apply session_no_callbacks|].
  destruct (supportsFiber hook); cbn [negb andb] in *;
    [|destruct (__DEV__ env); apply session_no_callbacks].
  unfold inWorld. cbn [loaded state world].
  destruct (inject hook internals w); [done|].
  destruct (__DEV__ env); apply session_no_callbacks.
Qed.

(** The injection returns [false] exactly when there is no hook, and
    after it the whole session of the reconciler returns normally with
    at most one call of [console.error] in all, the one of the
    injection included. *)
Theorem injection_session_contained
    (globalHook : option (GlobalHook W)) (internals : JS.value) (w : W)
    (cs : list Call) :
  let r := injectInternals env globalHook internals (loaded w) in
  (r.2 = false <-> globalHook = None) /\
  exists s',
    session env (hooks r.1) cs (state r.1) = JS.Normal s' tt /\
    (List.length (logged s') <= 1)%nat.
Proof.
  intros r. subst r. unfold injectInternals.
  assert (Hquiet : forall id (s : State W),
            (List.length (logged s) <= 1)%nat ->
            exists s',
              session env (mkHooks W None id None None) cs s
              = JS.Normal s' tt /\ (List.length (logged s') <= 1)%nat).
  { intros id s Hs. exists s. by rewrite session_no_callbacks. }
  destruct globalHook as [hook|];
    [|split; [done|]; apply Hquiet; cbn; lia].
  destruct (isDisabled hook);
    [split; [done|]; apply Hquiet; cbn; lia|].
  destruct (supportsFiber hook); cbn [negb];
    [|split; [done|]; destruct (__DEV__ env); apply Hquiet; cbn; lia].
  unfold inWorld. cbn [loaded state world hasLoggedError logged].
  destruct (inject hook internals w) as [w' id|w' err].
  - split; [done|]. cbn [fst hooks state].
    destruct (session_guarded env
                (mkHooks W
                   (if __DEV__ env
                    then match hook_onScheduleFiberRoot hook with
                         | Some f => Some f
                         | None => None
                         end
                    else None)
                   id (hook_onCommitFiberRoot hook)
                   (hook_onCommitFiberUnmount hook))
                cs (mkState false w' [])) as (s' & Hs' & _ & Hlen).
    exists s'. split; [exact Hs'|]. cbn in Hlen. lia.
  - split; [done|]. destruct (__DEV__ env); apply Hquiet; cbn; lia.
Qed.

End Injection.

(** A hook whose [inject] throws. *)
Definition brokenHook : GlobalHook unit :=
  mkGlobalHook unit false true
    (fun _ w => JS.Throw w (JS.String "inject"))
    None
    (Some (fun _ _ _ _ w => JS.Throw w (JS.String "commit")))
    None.

Lemma refused_injection_installs_nothing_witness :
  let m := (injectInternals devEnv (Some brokenHook) JS.Null
                            (loaded tt)).1 in
  session devEnv (hooks m) [CommitRoot (mkFiberRoot 0 0) 3] (state m)
  = JS.Normal (state m) tt.
Proof.
  apply (refused_injection_installs_nothing
           devEnv (Some brokenHook) JS.Null tt
           [CommitRoot (mkFiberRoot 0 0) 3]).
  reflexivity.
Defined.

End DevToolsInjectionFacts.

(** ** The child list under DOMChildrenOperations *)

Module DOMChildrenFacts.
Import DOM DOMChildrenOperations.

Local Open Scope nat_scope.

Lemma without_absent n l : n ∉ l -> without n l = l.
Proof.
  induction l as [|x l IH]; [done|]. intros Hn.
  apply not_elem_of_cons in Hn as [Hx Hl]. unfold without in *.
  rewrite filter_cons_True by congruence. by rewrite IH.
Qed.

Lemma without_app n l1 l2 :
  without n (l1 ++ l2) = without n l1 ++ without n l2.
Proof. apply filter_app. Qed.

Lemma without_head n l : n ∉ l -> without n (n :: l) = l.
Proof.
  intros Hn. unfold without. rewrite filter_cons_False by (by intros []).
  by apply without_absent.
Qed.

(** In a list without repetition, [n] is found between what is before
    it and what is after it. *)
Lemma without_middle n A B :
  NoDup (A ++ n :: B) -> without n (A ++ n :: B) = A ++ B.
Proof.
  intros Hnd. apply NoDup_app in Hnd as (_ & HA & HB).
  apply NoDup_cons in HB as [HnB _].
  rewrite without_app, without_head by done.
  rewrite without_absent; [done|].
  intros Hn. apply (HA n Hn). by left.
Qed.

Lemma NoDup_absent_before (r : Node) A B :
  NoDup (A ++ r :: B) -> r ∉ A.
Proof.
  intros Hnd Hr. apply NoDup_app in Hnd as (_ & HA & _).
  apply (HA r Hr). by left.
Qed.

Lemma NoDup_absent_after (r : Node) A B :
  NoDup (A ++ r :: B) -> r ∉ B.
Proof.
  intros Hnd. apply NoDup_app in Hnd as (_ & _ & HB).
  by apply NoDup_cons in HB as [? _].
Qed.

Lemma nextSibling_middle n A B :
  n ∉ A -> nextSibling (A ++ n :: B) n = head B.
Proof.
  induction A as [|x A IH]; intros Hn; cbn.
  - by rewrite decide_True.
  - apply not_elem_of_cons in Hn as [Hx HA].
    rewrite decide_False by done. by apply IH.
Qed.

Lemma nextSibling_absent n l : n ∉ l -> nextSibling l n = None.
Proof.
  induction l as [|x l IH]; [done|]. intros Hn.
  apply not_elem_of_cons in Hn as [Hx Hl]. cbn.
  rewrite decide_False by done. by apply IH.
Qed.

Lemma before_middle r n A B :
  r ∉ A -> before r n (A ++ r :: B) = A ++ n :: r :: B.
Proof.
  induction A as [|x A IH]; intros Hr; cbn.
  - by rewrite decide_True.
  - apply not_elem_of_cons in Hr as [Hx HA].
    rewrite decide_False by done. by rewrite IH.
Qed.

(** The two moves of a child: to a later place, before the first node
    of [Q] or to the end when [Q] is empty, and to an earlier place,
    before [r]. *)
Lemma insertBefore_later n U V Q :
  NoDup (U ++ n :: V ++ Q) ->
  insertBefore n (head Q) (U ++ n :: V ++ Q)
  = JS.Normal (U ++ V ++ n :: Q) tt.
Proof.
  intros Hnd. pose proof (without_middle n U (V ++ Q) Hnd) as Hw.
  unfold insertBefore. destruct Q as [|r Q]; cbn [head].
  - rewrite Hw. by rewrite !app_nil_r, <- app_assoc.
  - assert (Hr : r ∈ U ++ n :: V ++ r :: Q).
    { apply elem_of_app. right. apply elem_of_cons. right.
      apply elem_of_app. right. by left. }
    rewrite decide_True by done.
    assert (Hrn : r <> n).
    { intros ->. apply NoDup_app in Hnd as (_ & _ & Hnd).
      apply NoDup_cons in Hnd as [Hn _]. apply Hn.
      apply elem_of_app. right. by left. }
    rewrite decide_False by done. rewrite Hw.
    rewrite (app_assoc U V (r :: Q)), before_middle.
    + by rewrite <- app_assoc.
    + replace (U ++ n :: V ++ r :: Q)
        with ((U ++ n :: V) ++ r :: Q) in Hnd
        by (by rewrite <- app_assoc).
      apply NoDup_absent_before in Hnd. intros Hin. apply Hnd.
      apply elem_of_app in Hin as [Hin|Hin]; apply elem_of_app;
        [by left|right; by right].
Qed.

Lemma insertBefore_earlier n r U V W :
  NoDup (U ++ r :: V ++ n :: W) ->
  insertBefore n (Some r) (U ++ r :: V ++ n :: W)
  = JS.Normal (U ++ n :: r :: V ++ W) tt.
Proof.
  intros Hnd. unfold insertBefore.
  rewrite decide_True by (apply elem_of_app; right; by left).
  assert (Hrn : r <> n).
  { intros ->. apply NoDup_absent_after in Hnd. apply Hnd.
    apply elem_of_app. right. by left. }
  rewrite decide_False by done.
  replace (U ++ r :: V ++ n :: W) with ((U ++ r :: V) ++ n :: W) in *
    by (by rewrite <- app_assoc).
  rewrite (without_middle n _ _ Hnd), <- app_assoc. cbn.
  rewrite before_middle; [done|].
  rewrite <- app_assoc in Hnd. by apply NoDup_absent_before in Hnd.
Qed.

(** **** [removeDelimitedNodes] *)

Lemma removeChild_middle n A B :
  NoDup (A ++ n :: B) ->
  DOM.removeChild (Some n) (A ++ n :: B) = JS.Normal (A ++ B) tt.
Proof.
  intros Hnd. unfold DOM.removeChild.
  rewrite decide_True by (apply elem_of_app; right; by left).
  by rewrite without_middle.
Qed.

Lemma NoDup_removed (n : Node) A B : NoDup (A ++ n :: B) -> NoDup (A ++ B).
Proof.
  intros Hnd. rewrite <- (without_middle n A B Hnd).
  by apply NoDup_filter.
Qed.

Lemma removeDelimitedNodes_run mid :
  forall fuel startNode closingComment A B,
    NoDup (A ++ startNode :: mid ++ closingComment :: B) ->
    (List.length mid < fuel)%nat ->
    removeDelimitedNodes fuel startNode closingComment
      (A ++ startNode :: mid ++ closingComment :: B)
    = Some (JS.Normal (A ++ startNode :: closingComment :: B) tt).
Proof.
  induction mid as [|m mid IH]; intros fuel s c A B Hnd Hfuel;
    (destruct fuel as [|fuel]; [cbn in Hfuel; lia|]);
    cbn [removeDelimitedNodes];
    rewrite nextSibling_middle by (by eapply NoDup_absent_before).
  - cbn. by rewrite decide_True.
  - cbn [head app].
    assert (Hmc : m <> c).
    { intros ->.
      replace (A ++ s :: (c :: mid) ++ c :: B)
        with ((A ++ [s]) ++ c :: mid ++ c :: B) in Hnd
        by (by rewrite <- app_assoc).
      apply NoDup_absent_after in Hnd. apply Hnd.
      apply elem_of_app. right. by left. }
    rewrite decide_False by congruence. cbn [app] in *.
    replace (A ++ s :: m :: mid ++ c :: B)
      with ((A ++ [s]) ++ m :: mid ++ c :: B) in *
      by (by rewrite <- app_assoc).
    rewrite (removeChild_middle m _ _ Hnd).
    apply NoDup_removed in Hnd. rewrite <- app_assoc in *. cbn in *.
    apply IH; [done|]. cbn in Hfuel. lia.
Qed.

Lemma removeDelimitedNodes_open rest :
  forall fuel startNode closingComment A,
    NoDup (A ++ startNode :: rest) ->
    closingComment ∉ rest ->
    (List.length rest < fuel)%nat ->
    removeDelimitedNodes fuel startNode closingComment
      (A ++ startNode :: rest)
    = Some (JS.Throw (A ++ [startNode]) TypeError).
Proof.
  induction rest as [|m rest IH]; intros fuel s c A Hnd Hc Hfuel;
    (destruct fuel as [|fuel]; [cbn in Hfuel; lia|]);
    cbn [removeDelimitedNodes];
    rewrite nextSibling_middle by (by eapply NoDup_absent_before).
  - cbn. by rewrite decide_False.
  - cbn [head]. apply not_elem_of_cons in Hc as [Hcm Hc].
    rewrite decide_False by congruence.
    replace (A ++ s :: m :: rest) with ((A ++ [s]) ++ m :: rest) in *
      by (by rewrite <- app_assoc).
    rewrite (removeChild_middle m _ _ Hnd).
    apply NoDup_removed in Hnd. rewrite <- app_assoc in *. cbn in *.
    apply IH; [done|done|]. cbn in Hfuel. lia.
Qed.

(** [removeDelimitedNodes] removes the nodes between the start node
    and the closing comment and nothing else: the two end nodes stay,
    next to each other, and the children before and after them keep
    their places. When no later sibling of the start node is the
    closing comment, every later sibling is removed and the call ends
    in the [TypeError] of [removeChild(null)]. *)
Theorem removeDelimitedNodes_between
    (fuel : nat) (startNode closingComment : Node)
    (A mid rest : children) :
  (forall B,
     NoDup (A ++ startNode :: mid ++ closingComment :: B) ->
     (List.length mid < fuel)%nat ->
     removeDelimitedNodes fuel startNode closingComment
       (A ++ startNode :: mid ++ closingComment :: B)
     = Some (JS.Normal (A ++ startNode :: closingComment :: B) tt)) /\
  (NoDup (A ++ startNode :: rest) ->
   closingComment ∉ rest ->
   (List.length rest < fuel)%nat ->
   removeDelimitedNodes fuel startNode closingComment
     (A ++ startNode :: rest)
   = Some (JS.Throw (A ++ [startNode]) TypeError)).
Proof.
  split.
  - intros B. apply removeDelimitedNodes_run.
  - apply removeDelimitedNodes_open.
Qed.

Lemma removeDelimitedNodes_between_witness :
  removeDelimitedNodes 5 2 5 [1; 2; 3; 4; 5; 6]
  = Some (JS.Normal [1; 2; 5; 6] tt) /\
  removeDelimitedNodes 5 2 9 [1; 2; 3; 4]
  = Some (JS.Throw [1; 2] TypeError).
Proof.
  split.
  - apply (proj1 (removeDelimitedNodes_between 5 2 5 [1] [3; 4] [])
             [6]).
    + apply (bool_decide_unpack _). vm_compute. exact I.
    + cbn. lia.
  - apply (proj2 (removeDelimitedNodes_between 5 2 9 [1] [] [3; 4])).
    + apply (bool_decide_unpack _). vm_compute. exact I.
    + apply (bool_decide_unpack _). vm_compute. exact I.
    + cbn. lia.
Defined.

(** [removeChild] of a text component removes its two comments and
    all that is between them; of a single node, that node, and a node
    that is no child is a [NotFoundError] that leaves the children as
    they are. *)
Theorem removeChild_removes
    (fuel : nat) (A mid B : children) (n openingComment closingComment : Node)
    (l : children) :
  (NoDup (A ++ openingComment :: mid ++ closingComment :: B) ->
   (List.length mid < fuel)%nat ->
   removeChild fuel (Delimited openingComment closingComment)
     (A ++ openingComment :: mid ++ closingComment :: B)
   = Some (JS.Normal (A ++ B) tt)) /\
  (NoDup (A ++ n :: B) ->
   removeChild fuel (Single n) (A ++ n :: B)
   = Some (JS.Normal (A ++ B) tt)) /\
  (n ∉ l ->
   removeChild fuel (Single n) l = Some (JS.Throw l NotFoundError)).
Proof.
  split; [|split].
  - intros Hnd Hfuel. cbn [removeChild].
    rewrite (removeDelimitedNodes_run mid) by done. cbn -[DOM.removeChild].
    assert (Hnd1 : NoDup ((A ++ [openingComment]) ++ closingComment :: B)).
    { clear Hfuel. induction mid as [|m mid IH].
      - by rewrite <- app_assoc.
      - apply IH.
        replace (A ++ openingComment :: (m :: mid) ++ closingComment :: B)
          with ((A ++ [openingComment])
                  ++ m :: mid ++ closingComment :: B) in Hnd
          by (by rewrite <- app_assoc).
        apply NoDup_removed in Hnd. by rewrite <- app_assoc in Hnd. }
    replace (A ++ openingComment :: closingComment :: B)
      with ((A ++ [openingComment]) ++ closingComment :: B)
      by (by rewrite <- app_assoc).
    rewrite (removeChild_middle _ _ _ Hnd1).
    apply NoDup_removed in Hnd1. rewrite <- app_assoc in *.
    cbn [app] in *. by rewrite (removeChild_middle _ _ _ Hnd1).
  - intros Hnd. cbn [removeChild].
    by rewrite (removeChild_middle _ _ _ Hnd).
  - intros Hn. cbn [removeChild]. unfold DOM.removeChild.
    by rewrite decide_False.
Qed.

Lemma removeChild_removes_witness :
  removeChild 5 (Delimited 2 5) [1; 2; 3; 4; 5; 6]
  = Some (JS.Normal [1; 6] tt) /\
  removeChild 5 (Single 2) [1; 2; 6] = Some (JS.Normal [1; 6] tt) /\
  removeChild 5 (Single 2) [1; 6] = Some (JS.Throw [1; 6] NotFoundError).
Proof.
  pose proof (removeChild_removes 5 [1] [3; 4] [6] 2 2 5 [1; 6])
    as (Hd & _ & _).
  pose proof (removeChild_removes 5 [1] [] [6] 2 2 5 [1; 6])
    as (_ & Hs & Ha).
  split; [|split].
  - apply Hd; [|cbn; lia]. apply (bool_decide_unpack _). vm_compute. exact I.
  - apply Hs. apply (bool_decide_unpack _). vm_compute. exact I.
  - apply Ha. apply (bool_decide_unpack _). vm_compute. exact I.
Defined.

(** **** [moveDelimitedNodes] *)

Lemma NoDup_moved (n : Node) U X Q :
  NoDup (U ++ n :: X ++ Q) -> NoDup (U ++ X ++ n :: Q).
Proof.
  intros Hnd. eapply NoDup_Permutation_proper; [|exact Hnd].
  apply Permutation_app_head. symmetry. apply Permutation_middle.
Qed.

Lemma NoDup_moved_back (n : Node) U X W :
  NoDup (U ++ X ++ n :: W) -> NoDup (U ++ n :: X ++ W).
Proof.
  intros Hnd. eapply NoDup_Permutation_proper; [|exact Hnd].
  apply Permutation_app_head. apply Permutation_middle.
Qed.

(** The range [seg] goes to a later place: before [Q], behind [V]. *)
Lemma moveDelimitedNodesFrom_later seg :
  forall fuel n closingComment U V Q,
    head seg = Some n -> last seg = Some closingComment ->
    NoDup (U ++ seg ++ V ++ Q) ->
    List.length seg <= fuel ->
    moveDelimitedNodesFrom fuel (Some n) closingComment (head Q)
                           (U ++ seg ++ V ++ Q)
    = Some (JS.Normal (U ++ V ++ seg ++ Q) tt).
Proof.
  induction seg as [|x seg IH]; intros fuel n c U V Q Hn Hc Hnd Hfuel;
    [done|].
  injection Hn as ->.
  destruct fuel as [|fuel]; [cbn in Hfuel; lia|].
  cbn [moveDelimitedNodesFrom]. unfold insertChildAt. cbn [app] in *.
  rewrite nextSibling_middle by (by eapply NoDup_absent_before).
  replace (U ++ n :: seg ++ V ++ Q) with (U ++ n :: (seg ++ V) ++ Q) in *
    by (by rewrite <- app_assoc).
  rewrite insertBefore_later by done.
  destruct seg as [|m seg].
  - injection Hc as ->. by rewrite decide_True.
  - rewrite last_cons_cons in Hc.
    assert (Hnc : n <> c).
    { intros ->. apply NoDup_absent_after in Hnd. apply Hnd.
      apply elem_of_app. left. apply elem_of_app. left.
      by apply last_Some_elem_of. }
    rewrite decide_False by done. cbn [app head].
    assert (Hnd' : NoDup (U ++ (m :: seg) ++ (V ++ [n]) ++ Q)).
    { apply NoDup_moved in Hnd. by rewrite <- !app_assoc in *. }
    pose proof (IH fuel m c U (V ++ [n]) Q eq_refl Hc Hnd') as Hrun.
    rewrite <- !app_assoc in *. cbn [app] in *.
    apply Hrun. cbn in Hfuel |- *. lia.
Qed.

(** The range [seg] goes to an earlier place: before [r]. *)
Lemma moveDelimitedNodesFrom_earlier seg :
  forall fuel n closingComment r U V W,
    head seg = Some n -> last seg = Some closingComment ->
    NoDup (U ++ r :: V ++ seg ++ W) ->
    List.length seg <= fuel ->
    moveDelimitedNodesFrom fuel (Some n) closingComment (Some r)
                           (U ++ r :: V ++ seg ++ W)
    = Some (JS.Normal (U ++ seg ++ r :: V ++ W) tt).
Proof.
  induction seg as [|x seg IH]; intros fuel n c r U V W Hn Hc Hnd Hfuel;
    [done|].
  injection Hn as ->.
  destruct fuel as [|fuel]; [cbn in Hfuel; lia|].
  cbn [moveDelimitedNodesFrom]. unfold insertChildAt. cbn [app] in *.
  assert (Hl : U ++ r :: V ++ n :: seg ++ W
               = (U ++ r :: V) ++ n :: seg ++ W)
    by (by rewrite <- app_assoc).
  assert (Hnext : nextSibling (U ++ r :: V ++ n :: seg ++ W) n
                  = head (seg ++ W)).
  { rewrite Hl. apply nextSibling_middle. rewrite Hl in Hnd.
    by eapply NoDup_absent_before. }
  rewrite Hnext, insertBefore_earlier by done.
  destruct seg as [|m seg].
  - injection Hc as ->. by rewrite decide_True.
  - rewrite last_cons_cons in Hc.
    assert (Hnc : n <> c).
    { intros ->. rewrite Hl in Hnd.
      apply NoDup_absent_after in Hnd. apply Hnd.
      apply elem_of_app. left. by apply last_Some_elem_of. }
    rewrite decide_False by done. cbn [app head].
    assert (Hnd' : NoDup ((U ++ [n]) ++ r :: V ++ (m :: seg) ++ W)).
    { apply (NoDup_moved_back n U (r :: V)) in Hnd.
      by rewrite <- !app_assoc. }
    pose proof (IH fuel m c r (U ++ [n]) V W eq_refl Hc Hnd') as Hrun.
    rewrite <- !app_assoc in *. cbn [app] in *.
    apply Hrun. cbn in Hfuel |- *. lia.
Qed.

(** [moveDelimitedNodes] moves the opening comment, the closing
    comment and all that is between them, in their order, before the
    reference node, or to the end without one; the other children keep
    their order. The children without the range are [P ++ Q], and the
    reference is the first node of [Q]. *)
Theorem moveDelimitedNodes_moves
    (fuel : nat) (openingComment closingComment : Node)
    (mid X Y P Q : children) :
  let seg := openingComment :: mid ++ [closingComment] in
  NoDup (X ++ seg ++ Y) ->
  X ++ Y = P ++ Q ->
  List.length seg <= fuel ->
  moveDelimitedNodes fuel openingComment closingComment (head Q)
                     (X ++ seg ++ Y)
  = Some (JS.Normal (P ++ seg ++ Q) tt).
Proof.
  intros seg Hnd Hsplit Hfuel. unfold moveDelimitedNodes.
  assert (Hlast : last seg = Some closingComment).
  { subst seg. by rewrite app_comm_cons, last_snoc. }
  apply app_eq_inv in Hsplit as [(L & -> & ->)|(L & -> & ->)].
  - destruct L as [|r L].
    + rewrite app_nil_r in *.
      apply (moveDelimitedNodesFrom_later seg fuel openingComment
               closingComment P [] Y eq_refl Hlast); done.
    + rewrite <- app_assoc in *. cbn [app head] in *.
      by apply moveDelimitedNodesFrom_earlier.
  - rewrite <- !app_assoc.
    by apply moveDelimitedNodesFrom_later.
Qed.

Lemma moveDelimitedNodes_moves_witness :
  moveDelimitedNodes 3 2 4 (Some 1) [1; 2; 3; 4; 5]
  = Some (JS.Normal [2; 3; 4; 1; 5] tt) /\
  moveDelimitedNodes 3 2 4 None [1; 2; 3; 4; 5]
  = Some (JS.Normal [1; 5; 2; 3; 4] tt).
Proof.
  split.
  - apply (moveDelimitedNodes_moves 3 2 4 [3] [1] [5] [] [1; 5]).
    + apply (bool_decide_unpack _). vm_compute. exact I.
    + reflexivity.
    + cbn. lia.
  - apply (moveDelimitedNodes_moves 3 2 4 [3] [1] [5] [1; 5] []).
    + apply (bool_decide_unpack _). vm_compute. exact I.
    + reflexivity.
    + cbn. lia.
Defined.

(** **** A move behind a node *)

(** [moveChild] of a node with the reference that [getNodeAfter] gives
    for [afterNode] puts the node right behind [afterNode], and first
    without an [afterNode]; the other children keep their order. *)
Theorem moveChild_after (fuel : nat) (n afterNode : Node) (l : children) :
  NoDup l -> n ∈ l ->
  (moveChild fuel (Single n) (getNodeAfter l None) l
   = Some (JS.Normal (n :: without n l) tt)) /\
  (afterNode ∈ l -> afterNode <> n ->
   exists A B,
     without n l = A ++ afterNode :: B /\
     moveChild fuel (Single n) (getNodeAfter l (Some (Single afterNode))) l
     = Some (JS.Normal (A ++ afterNode :: n :: B) tt)).
Proof.
  intros Hnd Hn.
  apply list_elem_of_split in Hn as (U & W & ->).
  rewrite (without_middle n U W Hnd).
  cbn [moveChild getNodeAfter]. unfold insertChildAt, firstChild. split.
  - destruct U as [|r U].
    + cbn [head app] in *. unfold insertBefore.
      rewrite decide_True by (by left). rewrite decide_True by done.
      cbn [nextSibling]. rewrite decide_True by done.
      apply NoDup_cons in Hnd as [HnW _]. rewrite without_head by done.
      destruct W as [|w W]; cbn; [done|]. by rewrite decide_True.
    + cbn [head app]. f_equal.
      apply (insertBefore_earlier n r [] U W Hnd).
  - intros Ha Hne.
    apply elem_of_app in Ha as [Ha|Ha].
    + apply list_elem_of_split in Ha as (A & V & ->).
      exists A, (V ++ W). split; [by rewrite <- app_assoc|].
      rewrite <- app_assoc in *. cbn [app] in *.
      rewrite nextSibling_middle by (by eapply NoDup_absent_before).
      f_equal. destruct V as [|v V]; cbn [head app] in *.
      * replace (A ++ afterNode :: n :: W)
          with ((A ++ [afterNode]) ++ n :: W) in *
          by (by rewrite <- app_assoc).
        unfold insertBefore.
        rewrite decide_True by (apply elem_of_app; right; by left).
        rewrite decide_True by done.
        rewrite nextSibling_middle by (by eapply NoDup_absent_before).
        rewrite (without_middle n _ _ Hnd).
        destruct W as [|w W]; cbn [head]; [by rewrite app_nil_r|].
        rewrite before_middle; [done|].
        replace ((A ++ [afterNode]) ++ n :: w :: W)
          with (((A ++ [afterNode]) ++ [n]) ++ w :: W) in Hnd
          by (by rewrite <- !app_assoc).
        apply NoDup_absent_before in Hnd. intros Hw. apply Hnd.
        apply elem_of_app. by left.
      * replace (A ++ afterNode :: v :: V ++ n :: W)
          with ((A ++ [afterNode]) ++ v :: V ++ n :: W) in *
          by (by rewrite <- app_assoc).
        rewrite insertBefore_earlier by done.
        by rewrite <- app_assoc.
    + apply elem_of_cons in Ha as [->|Ha]; [done|].
      apply list_elem_of_split in Ha as (V & B & ->).
      exists (U ++ V), B. split; [by rewrite <- app_assoc|].
      replace (U ++ n :: V ++ afterNode :: B)
        with ((U ++ n :: V) ++ afterNode :: B) in *
        by (by rewrite <- app_assoc).
      rewrite nextSibling_middle by (by eapply NoDup_absent_before).
      f_equal.
      replace ((U ++ n :: V) ++ afterNode :: B)
        with (U ++ n :: (V ++ [afterNode]) ++ B) in *
        by (by rewrite <- !app_assoc).
      rewrite insertBefore_later by done.
      by rewrite <- !app_assoc.
Qed.

Lemma moveChild_after_witness :
  moveChild 0 (Single 3) (getNodeAfter [1; 2; 3; 4] None) [1; 2; 3; 4]
  = Some (JS.Normal [3; 1; 2; 4] tt) /\
  exists A B,
    without 3 [1; 2; 3; 4] = A ++ 1 :: B /\
    moveChild 0 (Single 3)
              (getNodeAfter [1; 2; 3; 4] (Some (Single 1))) [1; 2; 3; 4]
    = Some (JS.Normal (A ++ 1 :: 3 :: B) tt).
Proof.
  assert (Hnd : NoDup [1; 2; 3; 4])
    by (apply (bool_decide_unpack _); vm_compute; exact I).
  assert (Hin : 3 ∈ [1; 2; 3; 4])
    by (apply (bool_decide_unpack _); vm_compute; exact I).
  destruct (moveChild_after 0 3 1 [1; 2; 3; 4] Hnd Hin) as [Hfirst Hafter].
  split; [exact Hfirst|]. apply Hafter; [|done].
  apply (bool_decide_unpack _). vm_compute. exact I.
Defined.

End DOMChildrenFacts.

(** ** The methods of the devtools hook *)

Module DevToolsHookMethodsFacts.
Import DevToolsHookMethods.

Local Open Scope nat_scope.

(** *** Subscriptions *)

(** No event is left with an empty array of handlers. *)
Definition tidy (listeners : Listeners) : Prop :=
  forall event, listeners !! event <> Some [].

Lemma tidy_empty : tidy ∅.
Proof. intros event. by rewrite lookup_empty. Qed.

Lemma tidy_on event fn listeners subscribed u :
  tidy listeners -> on event fn listeners = JS.Normal subscribed u ->
  tidy subscribed.
Proof.
  intros Ht Hon e. unfold on in Hon.
  destruct (get event listeners) as [handlers| |];
    [|done|]; injection Hon as <- _.
  - destruct (decide (e = event)) as [->|Hne].
    + rewrite lookup_insert_eq. intros [= Hnil].
      by apply app_eq_nil in Hnil as [_ ?].
    + rewrite lookup_insert_ne by done. apply Ht.
  - destruct (decide (e = event)) as [->|Hne].
    + by rewrite lookup_insert_eq.
    + rewrite lookup_insert_ne by done. apply Ht.
Qed.

Lemma tidy_off event fn listeners after u :
  tidy listeners -> off event fn listeners = JS.Normal after u ->
  tidy after.
Proof.
  intros Ht Hoff e. unfold off in Hoff.
  destruct (get event listeners) as [handlers| |]; [|done|];
    [|by injection Hoff as <- _].
  destruct (match indexOf fn handlers with
            | Some index => delete index handlers
            | None => handlers
            end) as [|h rest]; injection Hoff as <- _.
  - destruct (decide (e = event)) as [->|Hne].
    + by rewrite lookup_delete_eq.
    + rewrite lookup_delete_ne by done. apply Ht.
  - destruct (decide (e = event)) as [->|Hne].
    + by rewrite lookup_insert_eq.
    + rewrite lookup_insert_ne by done. apply Ht.
Qed.

Lemma indexOf_last fn handlers :
  fn ∉ handlers ->
  indexOf fn (handlers ++ [fn]) = Some (List.length handlers).
Proof.
  induction handlers as [|h handlers IH]; intros Hfn; cbn.
  - by rewrite decide_True.
  - apply not_elem_of_cons in Hfn as [Hne Hfn].
    rewrite decide_False by done. by rewrite IH.
Qed.

Lemma delete_last {A} (x : A) l : delete (List.length l) (l ++ [x]) = l.
Proof. induction l as [|y l IH]; [done|]. cbn. f_equal. apply IH. Qed.

Lemma get_insert event handlers (listeners : Listeners) :
  get event (<[event := handlers]> listeners) = Own handlers.
Proof. unfold get. by rewrite lookup_insert_eq. Qed.

(** A subscription that is taken back leaves the listeners as they
    were, when the handler was not registered for the event before,
    and no event is left with an empty array. For an event name that
    the listeners inherit from [Object.prototype] and do not hold
    themselves, [sub] throws a [TypeError] and registers nothing. *)
Theorem sub_unsubscribe
    (event : string) (fn : Handler) (listeners : Listeners) :
  tidy listeners ->
  (forall handlers, listeners !! event = Some handlers -> fn ∉ handlers) ->
  match get event listeners with
  | Inherited => sub event fn listeners = JS.Throw listeners TypeError
  | Own _ | Absent =>
    exists subscribed unsubscribe,
      sub event fn listeners = JS.Normal subscribed unsubscribe /\
      tidy subscribed /\
      (exists handlers, subscribed !! event = Some handlers /\
                        fn ∈ handlers) /\
      unsubscribe subscribed = JS.Normal listeners tt
  end.
Proof.
  intros Ht Hfn. unfold sub, on.
  destruct (get event listeners) as [handlers| |] eqn:Hget; [|done|].
  - assert (Hl : listeners !! event = Some handlers).
    { unfold get in Hget. destruct (listeners !! event) as [hs|];
        [by injection Hget as ->|by case_bool_decide]. }
    eexists _, _. split; [done|]. split; [|split].
    + eapply (tidy_on event fn listeners _ tt Ht).
      unfold on. by rewrite Hget.
    + exists (handlers ++ [fn]). rewrite lookup_insert_eq.
      split; [done|]. apply elem_of_app. right.
      by apply list_elem_of_singleton.
    + unfold off. rewrite get_insert.
      rewrite indexOf_last by (by apply Hfn). rewrite delete_last.
      destruct handlers as [|h rest]; [by destruct (Ht event)|].
      rewrite insert_insert_eq. by rewrite insert_id.
  - assert (Hl : listeners !! event = None).
    { unfold get in Hget. destruct (listeners !! event) as [hs|];
        [done|done]. }
    eexists _, _. split; [done|]. split; [|split].
    + eapply (tidy_on event fn listeners _ tt Ht).
      unfold on. by rewrite Hget.
    + exists [fn]. rewrite lookup_insert_eq.
      split; [done|]. by apply list_elem_of_singleton.
    + unfold off. rewrite get_insert. cbn.
      rewrite decide_True by done. cbn.
      rewrite delete_insert_eq. by rewrite delete_id.
Qed.

Lemma sub_unsubscribe_witness :
  let ls : Listeners := {[ "renderer" := [1; 2] ]} in
  (exists subscribed unsubscribe,
     sub "renderer" 3 ls = JS.Normal subscribed unsubscribe /\
     unsubscribe subscribed = JS.Normal ls tt) /\
  (exists subscribed unsubscribe,
     sub "operations" 3 ls = JS.Normal subscribed unsubscribe /\
     unsubscribe subscribed = JS.Normal ls tt) /\
  sub "toString" 3 ls = JS.Throw ls TypeError.
Proof.
  intros ls.
  assert (Ht : tidy ls).
  { intros e. subst ls. destruct (decide (e = "renderer")) as [->|Hne].
    - by rewrite lookup_singleton_eq.
    - by rewrite lookup_singleton_ne. }
  split; [|split].
  - pose proof (sub_unsubscribe "renderer" 3 ls Ht) as Hs.
    change (get "renderer" ls) with (Own [1; 2]) in Hs.
    destruct Hs as (subscribed & unsubscribe & Hsub & _ & _ & Hun).
    + subst ls. intros handlers.
      rewrite lookup_singleton_eq. intros [= <-].
      apply (bool_decide_unpack _). vm_compute. exact I.
    + by exists subscribed, unsubscribe.
  - pose proof (sub_unsubscribe "operations" 3 ls Ht) as Hs.
    change (get "operations" ls) with Absent in Hs.
    destruct Hs as (subscribed & unsubscribe & Hsub & _ & _ & Hun).
    + subst ls. intros handlers. by rewrite lookup_singleton_ne.
    + by exists subscribed, unsubscribe.
  - pose proof (sub_unsubscribe "toString" 3 ls Ht) as Hs.
    change (get "toString" ls) with Inherited in Hs.
    apply Hs. subst ls. intros handlers. by rewrite lookup_singleton_ne.
Defined.

(** *** Mounted roots *)

Definition finalState {S A} (c : JS.completion S A) : S :=
  match c with
  | JS.Normal s _ => s
  | JS.Throw s _ => s
  end.

(** The roots recorded for a renderer, none before the first commit. *)
Definition mounted (roots : FiberRoots) (rendererID : RendererID)
    : gset nat :=
  default ∅ (roots !! rendererID).

(** After [onCommitFiberRoot], whether the interface of the renderer
    returns or throws, the committed root is among the roots of its
    renderer exactly when it is not unmounting; the other roots of the
    renderer and the roots of the other renderers are as before. *)
Theorem onCommitFiberRoot_tracks {W}
    (rendererInterfaces : gmap RendererID (RendererInterface W))
    (rendererID : RendererID) (r : Root) (priorityLevel : option Z)
    (roots : FiberRoots) (w : W) :
  let roots' :=
    (finalState (onCommitFiberRoot rendererInterfaces rendererID r
                                   priorityLevel (roots, w))).1 in
  (root r ∈ mounted roots' rendererID <-> isUnmounting r = false) /\
  (forall x, x <> root r ->
     x ∈ mounted roots' rendererID <-> x ∈ mounted roots rendererID) /\
  (forall id, id <> rendererID -> mounted roots' id = mounted roots id).
Proof.
  unfold onCommitFiberRoot. cbn [fst snd].
  destruct (getFiberRoots rendererID roots) as [roots1 mountedRoots] eqn:Hg.
  set (mountedRoots' := if negb _ && negb _ then _ else _).
  assert (Hfinal : forall c : JS.completion (FiberRoots * W) unit,
            (finalState c).1 = <[rendererID := mountedRoots']> roots1 ->
            let roots' := (finalState c).1 in
            (root r ∈ mounted roots' rendererID <-> isUnmounting r = false) /\
            (forall x, x <> root r ->
               x ∈ mounted roots' rendererID
               <-> x ∈ mounted roots rendererID) /\
            (forall id, id <> rendererID ->
               mounted roots' id = mounted roots id)).
  { intros c Hc roots'. subst roots'. rewrite Hc. unfold mounted.
    rewrite lookup_insert_eq. cbn [default].
    assert (Hm : mountedRoots = default ∅ (roots !! rendererID) /\
                 forall id, id <> rendererID ->
                            roots1 !! id = roots !! id).
    { unfold getFiberRoots in Hg.
      destruct (roots !! rendererID) as [m|] eqn:Hr;
        injection Hg as <- <-; (split; [done|]); intros id Hid;
        [done|by rewrite lookup_insert_ne]. }
    destruct Hm as [<- Hother]. subst mountedRoots'.
    split; [|split].
    - destruct (bool_decide (root r ∈ mountedRoots)) eqn:Hk,
        (isUnmounting r); cbn;
        try apply bool_decide_eq_true in Hk;
        try apply bool_decide_eq_false in Hk;
        rewrite ?elem_of_union, ?elem_of_difference, ?elem_of_singleton;
        intuition congruence.
    - intros x Hx.
      destruct (bool_decide (root r ∈ mountedRoots)),
        (isUnmounting r); cbn;
        rewrite ?elem_of_union, ?elem_of_difference, ?elem_of_singleton;
        intuition congruence.
    - intros id Hid. rewrite lookup_insert_ne by done.
      by rewrite Hother. }
  destruct (rendererInterfaces !! rendererID) as [i|]; [|by apply Hfinal].
  destruct (handleCommitFiberRoot i r priorityLevel w) eqn:Hh;
    by apply Hfinal.
Qed.

(** *** The console in strict mode *)

(** The calls of [setStrictMode], in order. *)
Definition strictModeCalls (calls : list (RendererID * bool))
    (c : Console) : Console :=
  foldl (fun c call => setStrictMode call.1 call.2 c) c calls.

(** What [name] holds with respect to the console [t0] as it was
    found. *)
Definition wrapping (wrapped : bool) (t0 : gmap string Method)
    (name : string) : Method :=
  if wrapped && bool_decide (name ∈ consoleMethodsToOverrideForStrictMode)
  then StrictModeOverride (method t0 name)
  else method t0 name.

(** The callbacks that put the four methods of [t0] back. *)
Definition restoring (t0 : gmap string Method) : list (string * Method) :=
  (fun name => (name, method t0 name))
    <$> consoleMethodsToOverrideForStrictMode.

Definition consistent (t0 : gmap string Method) (c : Console) : Prop :=
  (forall name,
     method (targetConsole c) name
     = wrapping (isRunningDuringStrictModeInvocation c) t0 name) /\
  unpatchConsoleCallbacks c
  = if isRunningDuringStrictModeInvocation c then restoring t0 else [].

Lemma method_insert t k v name :
  method (<[k := v]> t) name = if decide (k = name) then v else method t name.
Proof. unfold method. rewrite lookup_insert. by destruct (decide _). Qed.

Lemma overridden name :
  name ∈ consoleMethodsToOverrideForStrictMode ->
  name = "group" \/ name = "groupCollapsed" \/ name = "info" \/
  name = "log".
Proof.
  unfold consoleMethodsToOverrideForStrictMode. intros Hin.
  repeat (apply elem_of_cons in Hin as [->|Hin]; [tauto|]).
  by apply elem_of_nil in Hin.
Qed.

Ltac read_console :=
  rewrite !method_insert;
  repeat first [rewrite decide_True by done | rewrite decide_False by done].

Ltac other_method Hout :=
  rewrite !method_insert;
  repeat first
    [ rewrite decide_False by done
    | rewrite decide_False
        by (intros <-; apply Hout;
            unfold consoleMethodsToOverrideForStrictMode;
            repeat constructor) ].

Lemma patchConsoleForStrictMode_wraps t0 c :
  (forall name, method (targetConsole c) name = method t0 name) ->
  unpatchConsoleCallbacks c = [] ->
  (forall name,
     method (targetConsole (patchConsoleForStrictMode c)) name
     = wrapping true t0 name) /\
  unpatchConsoleCallbacks (patchConsoleForStrictMode c) = restoring t0.
Proof.
  intros Horig Hcb. unfold patchConsoleForStrictMode. rewrite Hcb.
  cbn [foldl consoleMethodsToOverrideForStrictMode targetConsole
       unpatchConsoleCallbacks isRunningDuringStrictModeInvocation app].
  split.
  - intros name. unfold wrapping. cbn [andb].
    destruct (decide (name ∈ consoleMethodsToOverrideForStrictMode))
      as [Hin|Hout].
    + rewrite bool_decide_eq_true_2 by done.
      apply overridden in Hin as [-> | [-> | [-> | ->]]]; read_console;
        by rewrite Horig.
    + rewrite bool_decide_eq_false_2 by done. other_method Hout.
      apply Horig.
  - unfold restoring. cbn. read_console. by rewrite Hcb, !Horig.
Qed.

Lemma unpatchConsoleForStrictMode_restores t0 c :
  (forall name, method (targetConsole c) name = wrapping true t0 name) ->
  unpatchConsoleCallbacks c = restoring t0 ->
  forall name,
    method (targetConsole (unpatchConsoleForStrictMode c)) name
    = method t0 name.
Proof.
  intros Hread Hcb name. unfold unpatchConsoleForStrictMode.
  rewrite Hcb. unfold restoring.
  cbn [fmap list_fmap consoleMethodsToOverrideForStrictMode foldl
       fst snd targetConsole].
  destruct (decide (name ∈ consoleMethodsToOverrideForStrictMode))
    as [Hin|Hout].
  - apply overridden in Hin as [-> | [-> | [-> | ->]]]; by read_console.
  - other_method Hout. rewrite Hread. unfold wrapping.
    by rewrite bool_decide_eq_false_2 by done.
Qed.

Lemma setStrictMode_consistent t0 rendererID isStrictMode c :
  consistent t0 c -> consistent t0 (setStrictMode rendererID isStrictMode c).
Proof.
  intros [Hread Hcb]. unfold setStrictMode.
  destruct isStrictMode,
    (isRunningDuringStrictModeInvocation c) eqn:Hrun.
  - unfold patchConsoleForStrictMode.
    cbn [unpatchConsoleCallbacks targetConsole]. rewrite Hcb. cbn.
    split; [|reflexivity]. cbn. intros name. by rewrite Hread.
  - destruct (patchConsoleForStrictMode_wraps t0
                (mkConsole (targetConsole c) true
                           (unpatchConsoleCallbacks c)))
      as [Hw Hr]; [| |split].
    + intros name. cbn. by rewrite Hread.
    + by cbn.
    + intros name. rewrite Hw. f_equal.
      unfold patchConsoleForStrictMode. cbn [unpatchConsoleCallbacks].
      by rewrite Hcb.
    + rewrite Hr. unfold patchConsoleForStrictMode.
      cbn [unpatchConsoleCallbacks]. by rewrite Hcb.
  - split; [|reflexivity]. intros name.
    rewrite (unpatchConsoleForStrictMode_restores t0); [done| |].
    + intros n. cbn. by rewrite Hread.
    + by cbn.
  - unfold unpatchConsoleForStrictMode.
    cbn [unpatchConsoleCallbacks targetConsole
         isRunningDuringStrictModeInvocation]. rewrite Hcb.
    split; [|reflexivity]. cbn. intros name. by rewrite Hread.
Qed.

Lemma setStrictMode_flag rendererID isStrictMode c :
  isRunningDuringStrictModeInvocation
    (setStrictMode rendererID isStrictMode c) = isStrictMode.
Proof.
  unfold setStrictMode. destruct isStrictMode; [|done].
  unfold patchConsoleForStrictMode. cbn [unpatchConsoleCallbacks].
  by destruct (unpatchConsoleCallbacks c).
Qed.

(** Whatever calls of [setStrictMode] were made on a console found
    without pending callbacks, the four methods are overridden
    exactly while strict mode runs, each by one override around the
    method that was found: an override is never wrapped in another,
    and when strict mode ends every method reads as it was found. *)
Theorem setStrictMode_wraps_once
    (calls : list (RendererID * bool)) (c0 : Console) (name : string) :
  isRunningDuringStrictModeInvocation c0 = false ->
  unpatchConsoleCallbacks c0 = [] ->
  let c := strictModeCalls calls c0 in
  method (targetConsole c) name
  = wrapping (isRunningDuringStrictModeInvocation c) (targetConsole c0)
             name /\
  isRunningDuringStrictModeInvocation c
  = default false (snd <$> last calls).
Proof.
  intros Hrun Hcb c.
  assert (Hc : consistent (targetConsole c0) c /\
               isRunningDuringStrictModeInvocation c
               = default (isRunningDuringStrictModeInvocation c0)
                         (snd <$> last calls)).
  { subst c. induction calls as [|call calls IH] using rev_ind.
    - unfold strictModeCalls. cbn [foldl].
      split; [|done]. split; [|by rewrite Hrun, Hcb].
      intros n. by rewrite Hrun.
    - unfold strictModeCalls in *. rewrite foldl_app, last_snoc.
      cbn [foldl fmap option_fmap option_map default].
      split; [by apply setStrictMode_consistent, IH|].
      apply setStrictMode_flag. }
  destruct Hc as [[Hread _] Hlast]. split; [apply Hread|].
  by rewrite Hlast, Hrun.
Qed.

Definition hostConsole : Console :=
  mkConsole {[ "log" := Host "log"; "info" := Host "info" ]} false [].

Lemma setStrictMode_wraps_once_witness :
  let c := strictModeCalls [(1, true); (1, true); (1, false); (2, true)]
                           hostConsole in
  method (targetConsole c) "log" = StrictModeOverride (Host "log") /\
  isRunningDuringStrictModeInvocation c = true.
Proof.
  apply (setStrictMode_wraps_once
           [(1, true); (1, true); (1, false); (2, true)] hostConsole "log");
    reflexivity.
Defined.

(** *** The ranges of internal modules *)

(** A registration, with the stack of the error it is made with. *)
Inductive Registration :=
| Start (stack : string)
| Stop (stack : string).

Definition register (r : Registration) (m : ModuleRanges) : ModuleRanges :=
  match r with
  | Start stack => registerInternalModuleStart stack m
  | Stop stack => registerInternalModuleStop stack m
  end.

Definition registrations (rs : list Registration) (m : ModuleRanges)
    : ModuleRanges :=
  foldl (fun m r => register r m) m rs.

(** Registrations that nest, with the ranges they stand for, inner
    ranges before the range around them; every stack has a second
    line. *)
Inductive nested : list Registration -> list (string * string) -> Prop :=
| nested_nil : nested [] []
| nested_app rs1 rs2 ranges1 ranges2 :
    nested rs1 ranges1 -> nested rs2 ranges2 ->
    nested (rs1 ++ rs2) (ranges1 ++ ranges2)
| nested_range start stop startFrame stopFrame rs ranges :
    getTopStackFrameString start = Some startFrame ->
    getTopStackFrameString stop = Some stopFrame ->
    nested rs ranges ->
    nested (Start start :: rs ++ [Stop stop])
           (ranges ++ [(startFrame, stopFrame)]).

Lemma registrations_app rs1 rs2 m :
  registrations (rs1 ++ rs2) m = registrations rs2 (registrations rs1 m).
Proof. apply foldl_app. Qed.

Lemma removelast_snoc {A} (l : list A) x : removelast (l ++ [x]) = l.
Proof.
  induction l as [|y l IH]; [done|]. cbn.
  destruct (l ++ [x]) eqn:Hl; [by destruct l|]. by rewrite IH.
Qed.

(** Registrations that nest pair every start with its stop: they add
    their ranges, in the order in which the ranges are closed, and
    leave the stack of open ranges as it was. *)
Theorem registrations_nested rs ranges :
  nested rs ranges ->
  forall m,
    registrations rs m
    = mkModuleRanges (openModuleRangesStack m) (moduleRanges m ++ ranges).
Proof.
  induction 1 as [|rs1 rs2 ranges1 ranges2 _ IH1 _ IH2
                  |start stop startFrame stopFrame rs ranges Hstart Hstop
                     _ IH]; intros m.
  - cbn. rewrite app_nil_r. by destruct m.
  - rewrite registrations_app, IH1, IH2. cbn. by rewrite app_assoc.
  - change (Start start :: rs ++ [Stop stop])
      with ([Start start] ++ rs ++ [Stop stop]).
    rewrite !registrations_app. cbn [registrations foldl register].
    unfold registerInternalModuleStart at 1. rewrite Hstart.
    fold (registrations rs). rewrite IH.
    unfold registerInternalModuleStop. cbn [openModuleRangesStack
      moduleRanges]. rewrite last_snoc, Hstop, removelast_snoc.
    by rewrite app_assoc.
Qed.

Definition frames (line : string) : string :=
  String.append "Error" (String newline line).

Lemma registrations_nested_witness :
  registrations
    [Start (frames "a"); Start (frames "b"); Stop (frames "c");
     Stop (frames "d")]
    (mkModuleRanges [] [])
  = mkModuleRanges [] [("b", "c"); ("a", "d")].
Proof.
  apply (registrations_nested
           [Start (frames "a"); Start (frames "b"); Stop (frames "c");
            Stop (frames "d")]
           [("b", "c"); ("a", "d")]).
  apply (nested_range (frames "a") (frames "d") "a" "d"
                      [Start (frames "b"); Stop (frames "c")]
                      [("b", "c")]); [reflexivity|reflexivity|].
  apply (nested_range (frames "b") (frames "c") "b" "c" [] []);
    [reflexivity|reflexivity|constructor].
Defined.

(** What the registrations do not pair: a stop without an open range
    and a start with a stack of one line change nothing; a stop with a
    stack of one line drops the open start and records no range. *)
Theorem registrations_unpaired
    (stack single : string) (m : ModuleRanges) (startFrame : string) :
  getTopStackFrameString single = None ->
  (openModuleRangesStack m = [] ->
   registerInternalModuleStop stack m = m) /\
  registerInternalModuleStart single m = m /\
  registerInternalModuleStop single
    (mkModuleRanges (openModuleRangesStack m ++ [startFrame])
                    (moduleRanges m))
  = m.
Proof.
  intros Hsingle. split; [|split].
  - intros Hopen. unfold registerInternalModuleStop. by rewrite Hopen.
  - unfold registerInternalModuleStart. by rewrite Hsingle.
  - unfold registerInternalModuleStop. cbn [openModuleRangesStack
      moduleRanges]. rewrite last_snoc, Hsingle, removelast_snoc.
    by destruct m.
Qed.

Lemma registrations_unpaired_witness :
  registerInternalModuleStop (frames "x") (mkModuleRanges [] []) 
  = mkModuleRanges [] [] /\
  registerInternalModuleStart "Error" (mkModuleRanges [] [])
  = mkModuleRanges [] [] /\
  registerInternalModuleStop "Error" (mkModuleRanges ["a"] [])
  = mkModuleRanges [] [].
Proof.
  destruct (registrations_unpaired (frames "x") "Error"
              (mkModuleRanges [] []) "a" eq_refl) as (Hstop & Hstart & Hdrop).
  split; [by apply Hstop|]. split; [exact Hstart|exact Hdrop].
Defined.

End DevToolsHookMethodsFacts.

(** ** The module map of the build *)

Module RollupModulesFacts.
Import RollupModules.

Section Host.
Variable sync : string -> list string -> list string.
Variables basename resolve : string -> string.

Definition addFile (moduleMap : ModuleMap) (file : string) : ModuleMap :=
  assign (basename file) (resolve file) moduleMap.

Lemma createModuleMap_files paths :
  createModuleMap sync basename resolve paths
  = foldl addFile ∅ (mjoin ((fun path => sync path exclude) <$> paths)).
Proof.
  unfold createModuleMap. generalize (∅ : ModuleMap).
  induction paths as [|path paths IH]; intros m; [done|].
  cbn [foldl fmap list_fmap mjoin list_join]. rewrite foldl_app.
  apply IH.
Qed.

Lemma addFiles_lookup files moduleName :
  moduleName <> "__proto__" ->
  foldl addFile ∅ files !! moduleName
  = resolve <$> last (filter (fun file => basename file = moduleName) files).
Proof.
  intros Hname. induction files as [|file files IH] using rev_ind.
  - cbn. by rewrite lookup_empty.
  - rewrite foldl_app, filter_app. cbn [foldl].
    unfold addFile at 1, assign.
    destruct (decide (basename file = moduleName)) as [Hb|Hb].
    + rewrite decide_False by congruence.
      rewrite Hb, lookup_insert_eq.
      rewrite (filter_cons_True _ file []), filter_nil by done.
      by rewrite last_snoc.
    + rewrite (filter_cons_False _ file []), filter_nil by done.
      rewrite app_nil_r.
      destruct (decide (basename file = "__proto__")); [done|].
      by rewrite lookup_insert_ne.
Qed.

Lemma addFiles_proto files :
  foldl addFile ∅ files !! "__proto__" = None.
Proof.
  induction files as [|file files IH] using rev_ind.
  - cbn. by rewrite lookup_empty.
  - rewrite foldl_app. cbn [foldl]. unfold addFile at 1, assign.
    destruct (decide (basename file = "__proto__")) as [Hb|Hb]; [done|].
    by rewrite lookup_insert_ne.
Qed.

(** The module map gives for a module name the resolved path of the
    last file with that name, in the order of the paths and of the
    files that [sync] finds for each, and nothing for a name that no
    file has: among files with one name the later one wins. The name
    [__proto__] gets no entry, whatever the files. *)
Theorem createModuleMap_last (paths : list string) (moduleName : string) :
  createModuleMap sync basename resolve paths !! moduleName
  = if decide (moduleName = "__proto__") then None
    else resolve
           <$> last (filter (fun file => basename file = moduleName)
                            (mjoin ((fun path => sync path exclude)
                                      <$> paths))).
Proof.
  rewrite createModuleMap_files.
  destruct (decide (moduleName = "__proto__")) as [->|Hname].
  - apply addFiles_proto.
  - by apply addFiles_lookup.
Qed.

End Host.

End RollupModulesFacts.

(** ** The notice about the experimental renderer *)

Module ReactDOMFiberNoticeFacts.
Import ReactDOMFiberNotice.

(** However often [render] and [unmountComponentAtNode] give the
    notice, it is printed once in a development build without the
    [useFiber] flag, and never otherwise. *)
Theorem warnAboutUnstableUse_once (__DEV__ useFiber : bool) (calls : nat) :
  let s := Nat.iter calls (warnAboutUnstableUse __DEV__ useFiber)
                    (mkState false []) in
  warnings s
  = if __DEV__ && negb useFiber && negb (calls =? 0)%nat
    then [unstableUse] else [].
Proof.
  intros s. subst s.
  assert (Hiter : forall n,
            Nat.iter (S n) (warnAboutUnstableUse __DEV__ useFiber)
                     (mkState false [])
            = mkState true (if __DEV__ && negb useFiber
                            then [unstableUse] else [])).
  { induction n as [|n IH].
    - cbn. unfold warnAboutUnstableUse, warning. cbn.
      by destruct __DEV__, useFiber.
    - rewrite Nat.iter_succ, IH. unfold warnAboutUnstableUse, warning.
      cbn. by rewrite andb_false_r. }
  destruct calls as [|n]; [by rewrite andb_false_r|].
  rewrite Hiter. cbn [Nat.eqb negb warnings]. by rewrite andb_true_r.
Qed.

End ReactDOMFiberNoticeFacts.
